(** * CanSat terrain scanner and orientation estimator

    A shallow embedding of the ranging-array driver, the terrain classifier
    and the orientation estimator of the two Arduino sketches

      - [cansat_arduino/terrain_scanner/terrain_scanner.ino]  (Uno, 5 sensors)
      - [cansat_arduino/cansat_mega/cansat_mega.ino]          (Mega, 6 sensors)

    Both sketches target AVR boards, where [float] and [double] are the
    same IEEE-754 binary32 format, [int] has 16 bits and [long] 32 bits.
    The terrain code only uses [+ - * /] and comparisons, which IEEE-754
    defines bit for bit: it is embedded over [spec_float] at precision 24.
    The orientation code is the same arithmetic around [atan2] and [sqrt]
    of the C library, which are parameters of the model (see
    [Orientation]).

    Further parts cover the GPS code of cansat_mega.ino ([readGPS],
    [parseGPGGA]), the main loop of terrain_scanner.ino, and the ESP8266
    sketch (CanSat Firmware v1.1: [parseGPS], [readGPS], the parachute,
    the DHT and battery readings), where [double] is binary64 and [int]
    has 32 bits. *)

From Stdlib Require Import ZArith List Bool String Ascii Lia.
From Stdlib Require Import Floats.SpecFloat.
Import ListNotations.

Local Open Scope Z_scope.

(* ================================================================== *)
(** ** Binary32 arithmetic *)
(* ================================================================== *)

Module F32.

Definition prec : Z := 24.
Definition emax : Z := 128.

Definition float : Type := spec_float.

(** Conversion of a C integer to [float] (round to nearest even). *)
Definition of_int (n : Z) : float := binary_normalize prec emax n 0 false.

Definition add : float -> float -> float := SFadd prec emax.
Definition sub : float -> float -> float := SFsub prec emax.
Definition mul : float -> float -> float := SFmul prec emax.
Definition div : float -> float -> float := SFdiv prec emax.

(** C's [a < b] and [a > b]: false as soon as one side is NaN. *)
Definition lt (a b : float) : bool :=
  match SFcompare a b with Some Lt => true | _ => false end.
Definition gt (a b : float) : bool :=
  match SFcompare a b with Some Gt => true | _ => false end.

Definition is_nan (a : float) : bool :=
  match a with S754_nan => true | _ => false end.

(** The literal [0.0343]: 343 and 10000 are exact in binary32 and the
    division is correctly rounded, so this is the float nearest to
    343/10000. *)
Definition lit_0_0343 : float := Eval vm_compute in div (of_int 343) (of_int 10000).
(** The literal [2.0]. *)
Definition lit_2_0 : float := Eval vm_compute in of_int 2.

Definition float_eq_dec (a b : float) : {a = b} + {a <> b}.
Proof.
  decide equality; try apply Z.eq_dec; try apply Pos.eq_dec; apply bool_dec.
Defined.

End F32.

Import F32.

Arguments of_int : simpl never.
Arguments add : simpl never.
Arguments sub : simpl never.
Arguments mul : simpl never.
Arguments div : simpl never.
Arguments lt : simpl never.
Arguments gt : simpl never.

(* ================================================================== *)
(** ** A small state monad *)
(* ================================================================== *)

Definition M (S A : Type) : Type := S -> A * S.

Definition ret {S A} (a : A) : M S A := fun s => (a, s).
Definition bind {S A B} (c : M S A) (k : A -> M S B) : M S B :=
  fun s => let (a, s') := c s in k a s'.
Definition modify {S} (f : S -> S) : M S unit := fun s => (tt, f s).
Definition exec {S A} (c : M S A) (s : S) : S := snd (c s).

Declare Scope monad_scope.
Delimit Scope monad_scope with monad.
Notation "x <- c ;; k" := (bind c (fun x => k))
  (at level 61, c at next level, right associativity) : monad_scope.
Notation "c ;; k" := (bind c (fun _ => k))
  (at level 61, right associativity) : monad_scope.

(* ================================================================== *)
(** ** Simulated hardware: pins, clock and event log *)
(* ================================================================== *)

(** What the sketches do to the outside world.  Times are microseconds. *)
Inductive event : Type :=
| DigitalWrite (pin : Z) (level : bool)
| DelayMicroseconds (us : Z)
| PulseIn (pin : Z) (level : bool) (timeout : Z) (width : Z)
| Delay (ms : Z).

Record stamped : Type := {
  t_start : Z;
  t_end : Z;
  what : event
}.

(** Answer of the world to one [pulseIn]: the width the call returns
    (0 when it timed out) and the time the call took. *)
Record pulse : Type := {
  pulse_width : Z;
  pulse_elapsed : Z
}.

Record hardware : Type := {
  now : Z;
  log : list stamped;
  echo : Z -> Z -> pulse   (* pin, time of the call *)
}.

Definition HIGH : bool := true.
Definition LOW : bool := false.

Definition emit (dt : Z) (e : event) (w : hardware) : hardware :=
  {| now := now w + dt;
     log := log w ++ [ {| t_start := now w; t_end := now w + dt; what := e |} ];
     echo := echo w |}.

Definition digitalWrite (pin : Z) (level : bool) : M hardware unit :=
  modify (emit 0 (DigitalWrite pin level)).

Definition delayMicroseconds (us : Z) : M hardware unit :=
  modify (emit us (DelayMicroseconds us)).

Definition delay (ms : Z) : M hardware unit :=
  modify (emit (1000 * ms) (Delay ms)).

(** [pulseIn] returns an [unsigned long]. *)
Definition pulseIn (pin : Z) (level : bool) (timeout : Z) : M hardware Z :=
  fun w =>
    let p := echo w pin (now w) in
    let width := pulse_width p mod 2 ^ 32 in
    (width, emit (pulse_elapsed p) (PulseIn pin level timeout width) w).

(** Conversion of an [unsigned long] to [long] on AVR. *)
Definition to_long (u : Z) : Z :=
  let m := u mod 2 ^ 32 in
  if m <? 2 ^ 31 then m else m - 2 ^ 32.

(* ================================================================== *)
(** ** Ranging-array driver and sweep statistics (shared by both sketches) *)
(* ================================================================== *)

(** A sketch's state: the hardware it drives and its global variables. *)
Record machine (G : Type) : Type := {
  hw : hardware;
  mem : G
}.
Arguments hw {G} _.
Arguments mem {G} _.
Arguments Build_machine {G} _ _.

Definition on_hw {G A} (c : M hardware A) : M (machine G) A :=
  fun m => let (a, w) := c (hw m) in (a, {| hw := w; mem := mem m |}).

Definition on_mem {G} (f : G -> G) : M (machine G) unit :=
  modify (fun m => {| hw := hw m; mem := f (mem m) |}).

(** The value [-1] a channel reports when no echo came back. *)
Definition NO_ECHO : float := Eval vm_compute in of_int (-1).

(** Timeout handed to [pulseIn], in microseconds. *)
Definition ECHO_TIMEOUT : Z := 30000.

(** Pause after every channel, in milliseconds. *)
Definition SETTLE_MS : Z := 30.

(** Conversion of an echo width to centimetres:
    [duration * 0.0343 / 2.0]. *)
Definition to_cm (duration : Z) : float :=
  div (mul (of_int duration) lit_0_0343) lit_2_0.

(** The locals of [readTerrainArray]: [sum], [sumSq], [validCount],
    [minDist], [maxDist].  [validCount] is an [int]; it is incremented
    at most [NUM_SENSORS] times, far from the 16-bit limit. *)
Record acc : Type := {
  sum : float;
  sumSq : float;
  validCount : Z;
  minDist : float;
  maxDist : float
}.

Definition acc0 : acc :=
  {| sum := of_int 0; sumSq := of_int 0; validCount := 0;
     minDist := of_int 9999; maxDist := of_int 0 |}.

(** [if (dist > 0) { sum += dist; sumSq += dist * dist; validCount++;
                     if (dist < minDist) minDist = dist;
                     if (dist > maxDist) maxDist = dist; }] *)
Definition accumulate (a : acc) (dist : float) : acc :=
  if gt dist (of_int 0) then
    {| sum := add (sum a) dist;
       sumSq := add (sumSq a) (mul dist dist);
       validCount := validCount a + 1;
       minDist := if lt dist (minDist a) then dist else minDist a;
       maxDist := if gt dist (maxDist a) then dist else maxDist a |}
  else a.

(** [if (validCount > 1) { mean = sum / validCount;
                           variance = sumSq / validCount - mean * mean; }
     else variance = 0;] *)
Definition variance_of (a : acc) : float :=
  if 1 <? validCount a then
    let mean := div (sum a) (of_int (validCount a)) in
    sub (div (sumSq a) (of_int (validCount a))) (mul mean mean)
  else of_int 0.

Local Open Scope monad_scope.

Section Driver.

Context {G : Type}.
Variable TRIG_PIN : Z.
Variable echoPins : list Z.
(** [terrain[i] = dist] on the sketch's globals. *)
Variable set_terrain : nat -> float -> G -> G.

Definition readSingleUltrasonic (echoPin : Z) : M hardware float :=
  digitalWrite TRIG_PIN LOW ;;
  delayMicroseconds 2 ;;
  digitalWrite TRIG_PIN HIGH ;;
  delayMicroseconds 10 ;;
  digitalWrite TRIG_PIN LOW ;;
  width <- pulseIn echoPin HIGH ECHO_TIMEOUT ;;
  let duration := to_long width in
  if duration =? 0 then ret NO_ECHO
  else ret (to_cm duration).

(** The [for] loop of [readTerrainArray]: the [n] iterations that remain
    when the index is [i]. *)
Fixpoint sweep_loop (n i : nat) (a : acc) : M (machine G) acc :=
  match n with
  | O => ret a
  | S n' =>
      dist <- on_hw (readSingleUltrasonic (nth i echoPins 0)) ;;
      on_mem (set_terrain i dist) ;;
      let a' := accumulate a dist in
      on_hw (delay SETTLE_MS) ;;
      sweep_loop n' (S i) a'
  end.

(** The same loop on the data alone, the channel readings being given. *)
Fixpoint sweep_on (s : list float) (i : nat) (a : acc) (g : G) : acc * G :=
  match s with
  | [] => (a, g)
  | dist :: s' => sweep_on s' (S i) (accumulate a dist) (set_terrain i dist g)
  end.

(** The readings the hardware returns during [n] iterations. *)
Fixpoint readings (n i : nat) (w : hardware) : list float :=
  match n with
  | O => []
  | S n' =>
      let (dist, w1) := readSingleUltrasonic (nth i echoPins 0) w in
      dist :: readings n' (S i) (exec (delay SETTLE_MS) w1)
  end.

(** The hardware after [n] iterations of the loop. *)
Fixpoint sweep_hw (n i : nat) (w : hardware) : hardware :=
  match n with
  | O => w
  | S n' =>
      let (_, w1) := readSingleUltrasonic (nth i echoPins 0) w in
      sweep_hw n' (S i) (exec (delay SETTLE_MS) w1)
  end.

End Driver.

(** Array store [t[i] = x] on an array seen as a map from its indices. *)
Definition store (i : nat) (x : float) (t : nat -> float) : nat -> float :=
  fun j => if Nat.eqb j i then x else t j.

(** The five outcomes named by the specification. *)
Inductive classification : Type :=
| FLAT_SAFE | UNEVEN | HAZARD | NO_GROUND | NO_DATA.

(** The outcome a status string of either sketch stands for. *)
Definition classification_of (status : string) : option classification :=
  if String.eqb status "FLAT-SAFE"%string then Some FLAT_SAFE
  else if String.eqb status "UNEVEN"%string then Some UNEVEN
  else if String.eqb status "HAZARD!"%string then Some HAZARD
  else if String.eqb status "NO_GROUND"%string then Some NO_GROUND
  else if String.eqb status "NO GROUND"%string then Some NO_GROUND
  else if String.eqb status "NO_DATA"%string then Some NO_DATA
  else None.

(** The decision rule in the words of the specification (section 4.3). *)
Definition rule_chain (invalidCount validCount : Z) (minDist maxDist : float)
  : classification :=
  if 3 <=? invalidCount then NO_GROUND
  else if gt (sub maxDist minDist) (of_int 50) then HAZARD
  else if gt (sub maxDist minDist) (of_int 20) then UNEVEN
  else if 0 <? validCount then FLAT_SAFE
  else NO_DATA.

(** A sample is valid when it is [> 0]. *)
Definition valid (dist : float) : bool := gt dist (of_int 0).

Definition valid_samples (s : list float) : list float := filter valid s.

Definition count_valid (s : list float) : Z := Z.of_nat (List.length (valid_samples s)).

Definition count_invalid (s : list float) : Z :=
  Z.of_nat (List.length (filter (fun d => negb (valid d)) s)).

(** Sum and sum of squares of a list, accumulated from the left. *)
Definition fsum (l : list float) : float := fold_left add l (of_int 0).
Definition fsum_sq (l : list float) : float :=
  fold_left (fun t d => add t (mul d d)) l (of_int 0).

(** The variance in the words of the specification: 0 for at most one
    valid sample, else sum of squares over count minus squared mean. *)
Definition population_variance (v : list float) : float :=
  let n := Z.of_nat (List.length v) in
  if n <=? 1 then of_int 0
  else
    let mean := div (fsum v) (of_int n) in
    sub (div (fsum_sq v) (of_int n)) (mul mean mean).

(* ------------------------------------------------------------------ *)
(** *** terrain_scanner.ino *)
(* ------------------------------------------------------------------ *)

Module Scanner.

Definition NUM_SENSORS : Z := 5.
Definition TRIG_PIN : Z := 2.
Definition ECHO_PIN_0 : Z := 3.
Definition ECHO_PIN_1 : Z := 4.
Definition ECHO_PIN_2 : Z := 5.
Definition ECHO_PIN_3 : Z := 6.
Definition ECHO_PIN_4 : Z := 7.

Definition echoPins : list Z :=
  [ECHO_PIN_0; ECHO_PIN_1; ECHO_PIN_2; ECHO_PIN_3; ECHO_PIN_4].

(** The global variables of the sketch. *)
Record globals : Type := {
  terrain : nat -> float;
  terrainMin : float;
  terrainMax : float;
  terrainVariance : float;
  terrainStatus : string;
  scanCount : Z
}.

Definition set_terrain (i : nat) (x : float) (g : globals) : globals :=
  {| terrain := store i x (terrain g); terrainMin := terrainMin g;
     terrainMax := terrainMax g; terrainVariance := terrainVariance g;
     terrainStatus := terrainStatus g; scanCount := scanCount g |}.

Definition set_stats (lo hi var : float) (g : globals) : globals :=
  {| terrain := terrain g; terrainMin := lo; terrainMax := hi;
     terrainVariance := var;
     terrainStatus := terrainStatus g; scanCount := scanCount g |}.

Definition set_status (s : string) (g : globals) : globals :=
  {| terrain := terrain g; terrainMin := terrainMin g;
     terrainMax := terrainMax g; terrainVariance := terrainVariance g;
     terrainStatus := s; scanCount := scanCount g |}.

Definition initial : globals :=
  {| terrain := fun _ => of_int 0; terrainMin := of_int 0;
     terrainMax := of_int 0; terrainVariance := of_int 0;
     terrainStatus := "INIT"%string; scanCount := 0 |}.

Definition analyzeTerrain (validCount : Z) (g : globals) : globals :=
  let range := sub (terrainMax g) (terrainMin g) in
  let outOfRange := NUM_SENSORS - validCount in
  if 3 <=? outOfRange then set_status "NO_GROUND"%string g
  else if gt range (of_int 50) then set_status "HAZARD!"%string g
  else if gt range (of_int 20) then set_status "UNEVEN"%string g
  else if 0 <? validCount then set_status "FLAT-SAFE"%string g
  else set_status "NO_DATA"%string g.

(** What [readTerrainArray] does after its loop. *)
Definition finish (a : acc) (g : globals) : globals :=
  let g1 :=
    set_stats (if 0 <? validCount a then minDist a else of_int 0)
              (if 0 <? validCount a then maxDist a else of_int 0)
              (variance_of a) g in
  analyzeTerrain (validCount a) g1.

Definition readTerrainArray : M (machine globals) unit :=
  a <- sweep_loop TRIG_PIN echoPins set_terrain (Z.to_nat NUM_SENSORS) 0 acc0 ;;
  on_mem (finish a).

(** [readTerrainArray] on the globals when the channels read [s]. *)
Definition readTerrainArray_on (s : list float) (g : globals) : globals :=
  let (a, g1) := sweep_on set_terrain s 0 acc0 g in
  finish a g1.

End Scanner.

(* ------------------------------------------------------------------ *)
(** *** cansat_mega.ino *)
(* ------------------------------------------------------------------ *)

Module Mega.

Definition NUM_SENSORS : Z := 6.
Definition TRIG_PIN : Z := 22.
Definition ECHO_PIN_0 : Z := 23.
Definition ECHO_PIN_1 : Z := 25.
Definition ECHO_PIN_2 : Z := 27.
Definition ECHO_PIN_3 : Z := 29.
Definition ECHO_PIN_4 : Z := 31.
Definition ECHO_PIN_5 : Z := 33.

Definition echoPins : list Z :=
  [ECHO_PIN_0; ECHO_PIN_1; ECHO_PIN_2; ECHO_PIN_3; ECHO_PIN_4; ECHO_PIN_5].

(** The terrain-mapping fields of [struct SensorData]; the functions
    below touch no other field of [telemetry]. *)
Record SensorData : Type := {
  terrain : nat -> float;
  terrainMin : float;
  terrainMax : float;
  terrainVariance : float;
  terrainStatus : string
}.

Definition set_terrain (i : nat) (x : float) (t : SensorData) : SensorData :=
  {| terrain := store i x (terrain t); terrainMin := terrainMin t;
     terrainMax := terrainMax t; terrainVariance := terrainVariance t;
     terrainStatus := terrainStatus t |}.

Definition set_stats (lo hi var : float) (t : SensorData) : SensorData :=
  {| terrain := terrain t; terrainMin := lo; terrainMax := hi;
     terrainVariance := var; terrainStatus := terrainStatus t |}.

Definition set_status (s : string) (t : SensorData) : SensorData :=
  {| terrain := terrain t; terrainMin := terrainMin t;
     terrainMax := terrainMax t; terrainVariance := terrainVariance t;
     terrainStatus := s |}.

(** [initUltrasonicArray] *)
Definition initial : SensorData :=
  {| terrain := fun _ => of_int 0; terrainMin := of_int 0;
     terrainMax := of_int 0; terrainVariance := of_int 0;
     terrainStatus := "INIT"%string |}.

(** [for (i...) if (telemetry.terrain[i] < 0) outOfRange++;] *)
Fixpoint count_out_of_range (n i : nat) (t : nat -> float) (outOfRange : Z) : Z :=
  match n with
  | O => outOfRange
  | S n' =>
      count_out_of_range n' (S i) t
        (if lt (t i) (of_int 0) then outOfRange + 1 else outOfRange)
  end.

Definition analyzeTerrain (telemetry : SensorData) : SensorData :=
  let range := sub (terrainMax telemetry) (terrainMin telemetry) in
  let outOfRange :=
    count_out_of_range (Z.to_nat NUM_SENSORS) 0 (terrain telemetry) 0 in
  if 3 <=? outOfRange then set_status "NO GROUND"%string telemetry
  else if gt range (of_int 50) then set_status "HAZARD!"%string telemetry
  else if gt range (of_int 20) then set_status "UNEVEN"%string telemetry
  else set_status "FLAT-SAFE"%string telemetry.

Definition finish (a : acc) (t : SensorData) : SensorData :=
  analyzeTerrain (set_stats (minDist a) (maxDist a) (variance_of a) t).

Definition readTerrainArray : M (machine SensorData) unit :=
  a <- sweep_loop TRIG_PIN echoPins set_terrain (Z.to_nat NUM_SENSORS) 0 acc0 ;;
  on_mem (finish a).

Definition readTerrainArray_on (s : list float) (t : SensorData) : SensorData :=
  let (a, t1) := sweep_on set_terrain s 0 acc0 t in
  finish a t1.

End Mega.

(* ------------------------------------------------------------------ *)
(** *** Reading the event log of a sweep *)
(* ------------------------------------------------------------------ *)

(** The rising edges of the shared trigger line. *)
Definition is_trigger (trig : Z) (e : stamped) : bool :=
  match what e with
  | DigitalWrite pin true => pin =? trig
  | _ => false
  end.

Definition is_measure (e : stamped) : bool :=
  match what e with
  | PulseIn _ _ _ _ => true
  | _ => false
  end.

Definition pin_of (e : stamped) : Z :=
  match what e with
  | DigitalWrite pin _ => pin
  | PulseIn pin _ _ _ => pin
  | _ => -1
  end.

(** When each trigger pulse was issued. *)
Definition trigger_times (trig : Z) (l : list stamped) : list Z :=
  map t_start (filter (is_trigger trig) l).

(** When each echo measurement returned (echo or timeout). *)
Definition measure_ends (l : list stamped) : list Z :=
  map t_end (filter is_measure l).

(** When each echo measurement began. *)
Definition measure_starts (l : list stamped) : list Z :=
  map t_start (filter is_measure l).

(** The echo pins in the order they were measured. *)
Definition measured_pins (l : list stamped) : list Z :=
  map pin_of (filter is_measure l).

(** The last thing the hardware did. *)
Definition last_event (w : hardware) : option event :=
  match rev (log w) with
  | e :: _ => Some (what e)
  | [] => None
  end.

(** Every measurement but the last is followed by the next trigger pulse
    no sooner than the settling delay after its end. *)
Definition settled (ends triggers : list Z) : Prop :=
  Forall2 (fun done next => done + 1000 * SETTLE_MS <= next)
          (removelast ends) (tl triggers).

(** Every measurement begins once its own trigger pulse of 10
    microseconds is over. *)
Definition triggered (triggers starts : list Z) : Prop :=
  Forall2 (fun issued start => issued + 10 <= start) triggers starts.

(** The widths [pulseIn] reports fit a [long]: with a timeout of
    [ECHO_TIMEOUT] it gives up, and answers 0, long before a width could
    reach [LONG_MAX] microseconds. *)
Definition LONG_MAX : Z := 2 ^ 31 - 1.

Definition echo_bounded (w : hardware) : Prop :=
  forall pin t, 0 <= pulse_width (echo w pin t) <= LONG_MAX.

(** A sample the driver can return: the sentinel or a positive distance. *)
Definition producible (dist : float) : bool :=
  if float_eq_dec dist NO_ECHO then true else valid dist.

(** A float that is [+infinity] or finite and positive with a mantissa
    [m] and an exponent [e] such that [lo <= log2 m + e]. *)
Definition positive_float (lo : Z) (x : float) : Prop :=
  x = S754_infinity false
  \/ exists m e, x = S754_finite false m e /\ lo <= Z.log2 (Zpos m) + e.

(** A world whose echoes have constant width and take constant time. *)
Definition steady (width elapsed : Z) : hardware :=
  {| now := 0; log := [];
     echo := fun _ _ => {| pulse_width := width; pulse_elapsed := elapsed |} |}.

(* ================================================================== *)
(** ** Sample sweeps *)
(* ================================================================== *)

(** A reading of a whole number of centimetres. *)
Definition cm (n : Z) : float := of_int n.

Definition flat5 : list float := [cm 100; cm 101; cm 102; cm 100; NO_ECHO].
Definition silent5 : list float := [NO_ECHO; NO_ECHO; NO_ECHO; NO_ECHO; NO_ECHO].
Definition silent6 : list float := NO_ECHO :: silent5.
Definition cliff5_lost3 : list float := [cm 10; cm 70; NO_ECHO; NO_ECHO; NO_ECHO].
Definition cliff6_lost4 : list float := NO_ECHO :: cliff5_lost3.
Definition cliff5 : list float := [cm 10; cm 70; cm 70; cm 10; NO_ECHO].
Definition cliff6 : list float := [cm 10; cm 70; cm 70; cm 10; NO_ECHO; NO_ECHO].

(** The valid samples of a sweep are exactly 10 cm and 70 cm. *)
Definition valid_10_70 (s : list float) : Prop :=
  In (cm 10) s /\ In (cm 70) s
  /\ forall d, In d s -> valid d = true -> d = cm 10 \/ d = cm 70.

(** Minimum and maximum accumulated so far over readings of 10 cm and
    70 cm, according to which of the two have been seen. *)
Definition extremes_10_70 (seen10 seen70 : bool) : float * float :=
  match seen10, seen70 with
  | false, false => (of_int 9999, of_int 0)
  | true, false => (cm 10, cm 10)
  | false, true => (cm 70, cm 70)
  | true, true => (cm 10, cm 70)
  end.

(* ================================================================== *)
(** ** Statistics of a sweep, in the large *)
(* ================================================================== *)

(** No sample of [l] lies above [maxDist] or below [minDist]. *)
Definition extremes_bound (a : acc) (l : list float) : Prop :=
  forall d, In d l -> gt d (maxDist a) = false /\ lt d (minDist a) = false.

(** [maxDist] is a sample of [l], or still the initial 0 when [l] is
    empty; [minDist] is a sample of [l] or still the initial 9999. *)
Definition extremes_member (a : acc) (l : list float) : Prop :=
  match l with
  | [] => maxDist a = of_int 0
  | _ :: _ => In (maxDist a) l
  end
  /\ (In (minDist a) l \/ minDist a = of_int 9999).

Ltac order_cases :=
  repeat match goal with
    | H : context [Z.compare ?x ?y] |- _ =>
        destruct (Z.compare_spec x y); try discriminate H
    | H : context [Pos.compare ?x ?y] |- _ =>
        destruct (Pos.compare_spec x y); try discriminate H
    | |- context [Z.compare ?x ?y] => destruct (Z.compare_spec x y)
    | |- context [Pos.compare ?x ?y] => destruct (Pos.compare_spec x y)
    end.

(** No [pulseIn] of the world returns before it was called. *)
Definition echo_forward (w : hardware) : Prop :=
  forall pin t, 0 <= pulse_elapsed (echo w pin t).

(** The smallest and the largest of the valid samples [v] of a sweep, as
    the specification has [minDist] and [maxDist]: taken over the valid
    samples only, from the bounds 9999 and 0 that stand when there is
    none. *)
Definition lowest (v : list float) : float :=
  fold_left (fun lo d => if lt d lo then d else lo) v (of_int 9999).

Definition highest (v : list float) : float :=
  fold_left (fun hi d => if gt d hi then d else hi) v (of_int 0).

(* ================================================================== *)
(** ** GPS: NMEA sentences (cansat_mega.ino and the ESP8266 sketch) *)
(* ================================================================== *)

(** A C string is the list of its characters before the terminating
    ['\0']. *)
Definition cstring : Type := list ascii.

Definition NUL : ascii := "000"%char.
Definition COMMA : ascii := ","%char.
Definition LF : ascii := "010"%char.
Definition CR : ascii := "013"%char.

(** The C string that starts a character array: its characters up to
    the first ['\0']. *)
Fixpoint c_str (l : list ascii) : cstring :=
  match l with
  | [] => []
  | c :: l' => if Ascii.eqb c NUL then [] else c :: c_str l'
  end.

(** [strncmp(s, lit, n) == 0] for a literal [lit] of [n] characters. *)
Fixpoint starts_with (lit : list ascii) (s : cstring) : bool :=
  match lit, s with
  | [], _ => true
  | _ :: _, [] => false
  | a :: lit', b :: s' => Ascii.eqb a b && starts_with lit' s'
  end.

(** *** [strtok(_, ",")] *)

Fixpoint skip_commas (s : cstring) : cstring :=
  match s with
  | c :: s' => if Ascii.eqb c COMMA then skip_commas s' else s
  | [] => []
  end.

(** The token at the head of [s] and what follows its delimiter. *)
Fixpoint cut_token (s : cstring) : cstring * cstring :=
  match s with
  | [] => ([], [])
  | c :: s' =>
      if Ascii.eqb c COMMA then ([], s')
      else let (tok, rest) := cut_token s' in (c :: tok, rest)
  end.

(** One call of [strtok] on the text [s] left to scan: leading commas
    are skipped; at the end of the text the answer is [NULL]; otherwise
    the token runs up to the next comma, which is overwritten with
    ['\0'], and the scan resumes behind it. *)
Definition strtok (s : cstring) : option cstring * cstring :=
  match skip_commas s with
  | [] => (None, [])
  | c :: s' => let (tok, rest) := cut_token (c :: s') in (Some tok, rest)
  end.

(** The tokens successive calls return, at most [fuel] of them. *)
Fixpoint strtok_all (fuel : nat) (s : cstring) : list cstring :=
  match fuel with
  | O => []
  | S fuel' =>
      match strtok s with
      | (None, _) => []
      | (Some tok, rest) => tok :: strtok_all fuel' rest
      end
  end.

(** The comma-separated fields of a sentence, empty ones included. *)
Fixpoint fields_from (cur : cstring) (s : cstring) : list cstring :=
  match s with
  | [] => [rev cur]
  | c :: s' =>
      if Ascii.eqb c COMMA then rev cur :: fields_from [] s'
      else fields_from (c :: cur) s'
  end.

Definition fields (s : cstring) : list cstring := fields_from [] s.

Definition nonempty (f : cstring) : bool :=
  match f with [] => false | _ :: _ => true end.

(** A sentence made of the given fields. *)
Fixpoint join (fs : list cstring) : cstring :=
  match fs with
  | [] => []
  | [f] => f
  | f :: fs' => f ++ COMMA :: join fs'
  end.

Definition comma_free (f : cstring) : bool :=
  forallb (fun c => negb (Ascii.eqb c COMMA)) f.

(** *** Numbers of the GPS code *)

Definition neg (x : float) : float := SFopp x.

(** The integer part of [x], rounded towards zero; 0 for an infinity or
    a NaN. *)
Definition to_int (x : float) : Z :=
  match x with
  | S754_finite s m e =>
      let v := if e <? 0 then Zpos m / 2 ^ (- e) else Zpos m * 2 ^ e in
      if s then - v else v
  | _ => 0
  end.

(** An [int] of [w] bits that is given the integer [n]: the low [w]
    bits of [n], read in two's complement. *)
Definition wrap (w : Z) (n : Z) : Z :=
  let m := n mod 2 ^ w in
  if m <? 2 ^ (w - 1) then m else m - 2 ^ w.

(** [(int) x] where [int] has [w] bits.  C defines the cast when the
    integer part of [x] fits the [int]; beyond that the model keeps its
    low bits. *)
Definition cast_int (w : Z) (x : float) : Z := wrap w (to_int x).

(** [a * b] on [int]s of [w] bits.  C defines the product when it fits;
    beyond that the hardware multiplier keeps its low bits. *)
Definition mul_int (w : Z) (a b : Z) : Z := wrap w (a * b).

(** The NMEA angle [raw] is one that [deg = (int)(raw / 100)] and
    [deg * 100] are defined for with an [int] of [w] bits: the quotient
    is a number and the product fits.  Every angle a receiver sends
    (at most 18000.0) is, already for 16 bits. *)
Definition nmea_in_range (w : Z) (raw : float) : bool :=
  match div raw (of_int 100) with
  | S754_nan | S754_infinity _ => false
  | q => (- 2 ^ (w - 1) <=? to_int q * 100) && (to_int q * 100 <? 2 ^ (w - 1))
  end.

(** Binary64, the [double] of the ESP8266. *)
Module F64.

Definition prec : Z := 53.
Definition emax : Z := 1024.

Definition of_int (n : Z) : float := binary_normalize prec emax n 0 false.
Definition add : float -> float -> float := SFadd prec emax.
Definition mul : float -> float -> float := SFmul prec emax.
Definition div : float -> float -> float := SFdiv prec emax.

(** The literal [1.852]: the double nearest to 1852/1000. *)
Definition lit_1_852 : float := Eval vm_compute in div (of_int 1852) (of_int 1000).
(** The literal [60.0]. *)
Definition lit_60_0 : float := Eval vm_compute in of_int 60.

End F64.

(** Conversion of a float to the format of precision [p]: rounding to
    nearest even on the way down, exact on the way up. *)
Definition convert (p emax : Z) (x : float) : float :=
  match x with
  | S754_finite s m e => binary_normalize p emax (if s then Zneg m else Zpos m) e s
  | _ => x
  end.

Definition to_double : float -> float := convert F64.prec F64.emax.
Definition to_float : float -> float := convert F32.prec F32.emax.

(** [x != 0]: true for a NaN. *)
Definition nonzero (x : float) : bool :=
  match SFcompare x (of_int 0) with Some Eq => false | _ => true end.

(** [token[0]], the ['\0'] of an empty string included. *)
Definition first_char (token : cstring) : ascii :=
  match token with
  | c :: _ => c
  | [] => NUL
  end.

(** The GPS fields of [struct SensorData], the same in both sketches. *)
Record GpsData : Type := {
  latitude : float;
  longitude : float;
  gpsAltitude : float;
  gpsSpeed : float;
  gpsSatellites : Z;
  gpsValid : bool
}.

Definition set_latitude (x : float) (t : GpsData) : GpsData :=
  {| latitude := x; longitude := longitude t; gpsAltitude := gpsAltitude t;
     gpsSpeed := gpsSpeed t; gpsSatellites := gpsSatellites t;
     gpsValid := gpsValid t |}.

Definition set_longitude (x : float) (t : GpsData) : GpsData :=
  {| latitude := latitude t; longitude := x; gpsAltitude := gpsAltitude t;
     gpsSpeed := gpsSpeed t; gpsSatellites := gpsSatellites t;
     gpsValid := gpsValid t |}.

Definition set_gpsAltitude (x : float) (t : GpsData) : GpsData :=
  {| latitude := latitude t; longitude := longitude t; gpsAltitude := x;
     gpsSpeed := gpsSpeed t; gpsSatellites := gpsSatellites t;
     gpsValid := gpsValid t |}.

Definition set_gpsSpeed (x : float) (t : GpsData) : GpsData :=
  {| latitude := latitude t; longitude := longitude t;
     gpsAltitude := gpsAltitude t; gpsSpeed := x;
     gpsSatellites := gpsSatellites t; gpsValid := gpsValid t |}.

Definition set_gpsSatellites (n : Z) (t : GpsData) : GpsData :=
  {| latitude := latitude t; longitude := longitude t;
     gpsAltitude := gpsAltitude t; gpsSpeed := gpsSpeed t;
     gpsSatellites := n; gpsValid := gpsValid t |}.

Definition set_gpsValid (b : bool) (t : GpsData) : GpsData :=
  {| latitude := latitude t; longitude := longitude t;
     gpsAltitude := gpsAltitude t; gpsSpeed := gpsSpeed t;
     gpsSatellites := gpsSatellites t; gpsValid := b |}.

Definition chars (s : string) : cstring := list_ascii_of_string s.

(** The receive buffer [buffer[128]] with its index [idx] is kept as the
    characters [buffer[0] .. buffer[idx-1]] received so far on the current
    line, [idx] being their number.  Nothing else of the array is ever
    read: every reader stops at the ['\0'] stored at [buffer[idx]]. *)
Definition rx_line : Type := list ascii.

Definition idx (line : rx_line) : Z := Z.of_nat (List.length line).

Definition BUFFER_SIZE : Z := 128.

(* ------------------------------------------------------------------ *)
(** *** cansat_mega.ino: [parseGPGGA] and [readGPS] *)
(* ------------------------------------------------------------------ *)

Section MegaGps.

(** [atof] and [atoi] of the C library; on the AVR the [double] that
    [atof] returns is binary32. *)
Variable atof : cstring -> float.
Variable atoi : cstring -> Z.

(** [deg = (int)(raw / 100); min = raw - deg * 100; deg + min / 60.0]:
    the quotient, the difference, the division by 60.0 and the sum are
    binary32, [deg] and [deg * 100] are 16-bit [int]s. *)
Definition nmea_degrees (raw : float) : float :=
  let deg := cast_int 16 (div raw (of_int 100)) in
  let min := sub raw (of_int (mul_int 16 deg 100)) in
  add (of_int deg) (div min (of_int 60)).

(** The same conversion with [deg] and [deg * 100] as mathematical
    integers: what [nmea_degrees] computes for the angles in range. *)
Definition decimal_degrees (raw : float) : float :=
  let deg := to_int (div raw (of_int 100)) in
  let min := sub raw (of_int (deg * 100)) in
  add (of_int deg) (div min (of_int 60)).

(** The [switch (field)] of [parseGPGGA]. *)
Definition gga_field (field : Z) (token : cstring) (t : GpsData) : GpsData :=
  if field =? 3 then set_latitude (nmea_degrees (atof token)) t
  else if field =? 4 then
    (if Ascii.eqb (first_char token) "S"%char
     then set_latitude (neg (latitude t)) t else t)
  else if field =? 5 then set_longitude (nmea_degrees (atof token)) t
  else if field =? 6 then
    (if Ascii.eqb (first_char token) "W"%char
     then set_longitude (neg (longitude t)) t else t)
  else if field =? 7 then set_gpsValid (0 <? atoi token) t
  else if field =? 8 then set_gpsSatellites (atoi token) t
  else if field =? 10 then set_gpsAltitude (atof token) t
  else t.

(** [while (token != NULL) { field++; switch ...; token = strtok(NULL, ","); }] *)
Fixpoint gga_loop (fuel : nat) (token : option cstring) (rest : cstring)
         (field : Z) (t : GpsData) : GpsData :=
  match fuel, token with
  | S fuel', Some tok =>
      let field' := field + 1 in
      let t' := gga_field field' tok t in
      let (token', rest') := strtok rest in
      gga_loop fuel' token' rest' field' t'
  | _, _ => t
  end.

(** A token takes at least one character, so [S (length sentence)]
    rounds see the loop through. *)
Definition parseGPGGA (sentence : cstring) (t : GpsData) : GpsData :=
  let (token, rest) := strtok sentence in
  gga_loop (S (List.length sentence)) token rest 0 t.

(** The body of the [while (gps->available())] loop for the character
    [c] just read. *)
Definition gps_char (st : rx_line * GpsData) (c : ascii) : rx_line * GpsData :=
  let (line, t) := st in
  if Ascii.eqb c LF || Ascii.eqb c CR then
    let sentence := c_str line in
    ([],
     if (6 <? idx line) && starts_with (chars "$GPGGA") sentence
     then parseGPGGA sentence t else t)
  else if idx line <? 127 then (line ++ [c], t)
  else (line, t).

(** [readGPS] when the characters [available] are waiting. *)
Definition readGPS (available : list ascii) (st : rx_line * GpsData)
  : rx_line * GpsData :=
  fold_left gps_char available st.

End MegaGps.

(** The [switch] applied to a list of tokens, the first being field
    number [field + 1]. *)
Fixpoint gga_fold (atof : cstring -> float) (atoi : cstring -> Z)
         (tokens : list cstring) (field : Z) (t : GpsData) : GpsData :=
  match tokens with
  | [] => t
  | tok :: tokens' =>
      gga_fold atof atoi tokens' (field + 1) (gga_field atof atoi (field + 1) tok t)
  end.

(** The non-empty fields of a sentence, which are all [strtok] sees. *)
Definition tokens (sentence : cstring) : list cstring :=
  filter nonempty (fields sentence).

(** *** Sample readers of decimal numbers, for the examples *)

Definition is_digit (c : ascii) : bool :=
  (48 <=? Z.of_nat (nat_of_ascii c)) && (Z.of_nat (nat_of_ascii c) <=? 57).

Fixpoint digits_value (acc : Z) (s : cstring) : Z :=
  match s with
  | c :: s' =>
      if is_digit c then digits_value (10 * acc + (Z.of_nat (nat_of_ascii c) - 48)) s'
      else acc
  | [] => acc
  end.

Fixpoint skip_digits (s : cstring) : cstring :=
  match s with
  | c :: s' => if is_digit c then skip_digits s' else s
  | [] => []
  end.

(** An [atoi] for unsigned decimal numbers. *)
Definition sample_atoi (s : cstring) : Z := digits_value 0 s.

Fixpoint count_digits (s : cstring) : Z :=
  match s with
  | c :: s' => if is_digit c then 1 + count_digits s' else 0
  | [] => 0
  end.

(** An [atof] for unsigned decimal numbers [ddd.ddd], as a quotient
    rounded once in the format of [of_int] and [div]. *)
Definition sample_atof (of_int : Z -> float) (div : float -> float -> float)
           (s : cstring) : float :=
  let whole := digits_value 0 s in
  match skip_digits s with
  | c :: frac =>
      if Ascii.eqb c "."%char then
        div (of_int (digits_value whole frac)) (of_int (10 ^ count_digits frac))
      else of_int whole
  | [] => of_int whole
  end.

Definition atof32 : cstring -> float := sample_atof F32.of_int F32.div.
Definition atof64 : cstring -> float := sample_atof F64.of_int F64.div.

Definition no_fix : GpsData :=
  {| latitude := of_int 0; longitude := of_int 0; gpsAltitude := of_int 0;
     gpsSpeed := of_int 0; gpsSatellites := 0; gpsValid := false |}.

(** [$GPGGA,123519,4807.038,N,01131.000,E,1,08,0.9,545.4,M,46.9,M,,*47] *)
Definition gga_fix : cstring :=
  join [chars "$GPGGA"; chars "123519"; chars "4807.038"; chars "N";
        chars "01131.000"; chars "E"; chars "1"; chars "08"; chars "0.9";
        chars "545.4"; chars "M"; chars "46.9"; chars "M"; []; chars "*47"].

(** What a receiver without a fix sends. *)
Definition gga_searching : cstring :=
  chars "$GPGGA,123520,,,,,0,00,99.99,,,,,,*48".

(** ['\n'] or ['\r'], the characters that end a line for [readGPS]. *)
Definition line_end (c : ascii) : bool := Ascii.eqb c LF || Ascii.eqb c CR.

(** Characters of one line: none of them ends it. *)
Definition one_line (l : list ascii) : bool :=
  forallb (fun c => negb (line_end c)) l.

(* ================================================================== *)
(** ** The ESP8266 sketch (CanSat Firmware v1.1) *)
(* ================================================================== *)

(** The level of an output pin is the one last written to it, [LOW]
    before the first write; this is what [digitalRead] gives for it. *)
Definition pin_level (pin : Z) (l : list stamped) : bool :=
  fold_left (fun level e =>
               match what e with
               | DigitalWrite p v => if p =? pin then v else level
               | _ => level
               end) l LOW.

Definition digitalRead (pin : Z) : M hardware bool :=
  fun w => (pin_level pin (log w), w).

(** The index-th token of a sentence, counted from 0. *)
Definition token_at (sentence : cstring) (index : nat) : option cstring :=
  nth_error (tokens sentence) index.

(** The fields of a token list seen from a loop that is at number [i]:
    field number [k] is still to come when [i <= k]. *)
Definition pick (toks : list cstring) (i k : Z) : option cstring :=
  if k <? i then None else nth_error toks (Z.to_nat (k - i)).

Module Esp.

Definition LED_PIN : Z := 13.

(** The literals [4.2] and [4.2 / 1024.0] in binary64. *)
Definition lit_4_2 : float := Eval vm_compute in F64.div (F64.of_int 42) (F64.of_int 10).
Definition volts_per_count : float :=
  Eval vm_compute in F64.div lit_4_2 (F64.of_int 1024).

(* ------------------------------------------------------------------ *)
(** *** [parseGPS] and [readGPS] *)
(* ------------------------------------------------------------------ *)

(** The local variables of the GGA branch. *)
Record gga_locals : Type := {
  lat : float;
  lon : float;
  latDir : ascii;
  lonDir : ascii
}.

(** [float lat = 0, lon = 0; char latDir = 'N', lonDir = 'E';] *)
Definition gga_locals0 : gga_locals :=
  {| lat := of_int 0; lon := of_int 0; latDir := "N"%char; lonDir := "E"%char |}.

Section Gps.

(** [atof] returns a binary64 [double] here, [atoi] a 32-bit [int]. *)
Variable atof : cstring -> float.
Variable atoi : cstring -> Z.

(** The [switch (fieldIndex)] of the GGA branch. *)
Definition gga_case (fieldIndex : Z) (token : cstring)
           (st : gga_locals * GpsData) : gga_locals * GpsData :=
  let (v, t) := st in
  if fieldIndex =? 2 then
    ({| lat := to_float (atof token); lon := lon v;
        latDir := latDir v; lonDir := lonDir v |}, t)
  else if fieldIndex =? 3 then
    ({| lat := lat v; lon := lon v;
        latDir := first_char token; lonDir := lonDir v |}, t)
  else if fieldIndex =? 4 then
    ({| lat := lat v; lon := to_float (atof token);
        latDir := latDir v; lonDir := lonDir v |}, t)
  else if fieldIndex =? 5 then
    ({| lat := lat v; lon := lon v;
        latDir := latDir v; lonDir := first_char token |}, t)
  else if fieldIndex =? 6 then (v, set_gpsValid (0 <? atoi token) t)
  else if fieldIndex =? 7 then (v, set_gpsSatellites (atoi token) t)
  else if fieldIndex =? 9 then (v, set_gpsAltitude (to_float (atof token)) t)
  else (v, t).

(** [while (token != NULL) { switch ...; token = strtok(NULL, ","); fieldIndex++; }] *)
Fixpoint gga_while (fuel : nat) (token : option cstring) (rest : cstring)
         (fieldIndex : Z) (st : gga_locals * GpsData) : gga_locals * GpsData :=
  match fuel, token with
  | S fuel', Some tok =>
      let st' := gga_case fieldIndex tok st in
      let (token', rest') := strtok rest in
      gga_while fuel' token' rest' (fieldIndex + 1) st'
  | _, _ => st
  end.

(** [deg = (int)(raw / 100); min = raw - (deg * 100); deg + (min / 60.0)]:
    the quotient and the difference are binary32, [deg] and [deg * 100]
    are 32-bit [int]s, the division by the [double] 60.0 and the sum are
    binary64, and the result is stored in a [float]. *)
Definition nmea_degrees (raw : float) : float :=
  let deg := cast_int 32 (F32.div raw (of_int 100)) in
  let min := F32.sub raw (of_int (mul_int 32 deg 100)) in
  to_float (F64.add (F64.of_int deg) (F64.div (to_double min) F64.lit_60_0)).

(** The same conversion with [deg] and [deg * 100] as mathematical
    integers: what [nmea_degrees] computes for the angles in range. *)
Definition decimal_degrees (raw : float) : float :=
  let deg := to_int (F32.div raw (of_int 100)) in
  let min := F32.sub raw (of_int (deg * 100)) in
  to_float (F64.add (F64.of_int deg) (F64.div (to_double min) F64.lit_60_0)).

(** [if (telemetry.gpsValid && lat != 0) { ... }] *)
Definition gga_position (v : gga_locals) (t : GpsData) : GpsData :=
  if gpsValid t && nonzero (lat v) then
    let t1 := set_latitude (nmea_degrees (lat v)) t in
    let t2 := if Ascii.eqb (latDir v) "S"%char
              then set_latitude (neg (latitude t1)) t1 else t1 in
    let t3 := set_longitude (nmea_degrees (lon v)) t2 in
    if Ascii.eqb (lonDir v) "W"%char
    then set_longitude (neg (longitude t3)) t3 else t3
  else t.

(** The loop of the RMC branch, left by [break] at field 7. *)
Fixpoint rmc_while (fuel : nat) (token : option cstring) (rest : cstring)
         (fieldIndex : Z) (t : GpsData) : GpsData :=
  match fuel, token with
  | S fuel', Some tok =>
      if fieldIndex =? 7 then
        set_gpsSpeed (to_float (F64.mul (atof tok) F64.lit_1_852)) t
      else
        let (token', rest') := strtok rest in
        rmc_while fuel' token' rest' (fieldIndex + 1) t
  | _, _ => t
  end.

Definition is_gga (sentence : cstring) : bool :=
  starts_with (chars "$GPGGA") sentence || starts_with (chars "$GNGGA") sentence.

Definition is_rmc (sentence : cstring) : bool :=
  starts_with (chars "$GPRMC") sentence || starts_with (chars "$GNRMC") sentence.

Definition parseGPS (sentence : cstring) (t : GpsData) : GpsData :=
  if is_gga sentence then
    let (token, rest) := strtok sentence in
    let (v, t') := gga_while (S (List.length sentence)) token rest 0 (gga_locals0, t) in
    gga_position v t'
  else if is_rmc sentence then
    let (token, rest) := strtok sentence in
    rmc_while (S (List.length sentence)) token rest 0 t
  else t.

(** The body of the [while (gpsSerial.available() > 0)] loop for the
    character [c] just read; [gpsBuffer] and [gpsBufferIndex] are kept as
    the characters of the current line, as for the other sketch. *)
Definition gps_char (st : rx_line * GpsData) (c : ascii) : rx_line * GpsData :=
  let (line, t) := st in
  if Ascii.eqb c LF || Ascii.eqb c CR then
    if 0 <? idx line then ([], parseGPS (c_str line) t) else (line, t)
  else if idx line <? 128 - 1 then (line ++ [c], t)
  else (line, t).

Definition readGPS (available : list ascii) (st : rx_line * GpsData)
  : rx_line * GpsData :=
  fold_left gps_char available st.

(** The GGA [switch] applied to a list of tokens, the first being field
    number [fieldIndex]. *)
Fixpoint gga_fold (toks : list cstring) (fieldIndex : Z)
         (st : gga_locals * GpsData) : gga_locals * GpsData :=
  match toks with
  | [] => st
  | tok :: toks' => gga_fold toks' (fieldIndex + 1) (gga_case fieldIndex tok st)
  end.

End Gps.

(* ------------------------------------------------------------------ *)
(** *** Telemetry, parachute and housekeeping *)
(* ------------------------------------------------------------------ *)

(** The fields of [struct SensorData] used below. *)
Record SensorData : Type := {
  gps : GpsData;
  temperature : float;
  humidity : float;
  batteryVoltage : float;
  parachuteDeployed : bool;
  status : string
}.

Definition set_gps (g : GpsData) (t : SensorData) : SensorData :=
  {| gps := g; temperature := temperature t; humidity := humidity t;
     batteryVoltage := batteryVoltage t;
     parachuteDeployed := parachuteDeployed t; status := status t |}.

Definition set_temperature (x : float) (t : SensorData) : SensorData :=
  {| gps := gps t; temperature := x; humidity := humidity t;
     batteryVoltage := batteryVoltage t;
     parachuteDeployed := parachuteDeployed t; status := status t |}.

Definition set_humidity (x : float) (t : SensorData) : SensorData :=
  {| gps := gps t; temperature := temperature t; humidity := x;
     batteryVoltage := batteryVoltage t;
     parachuteDeployed := parachuteDeployed t; status := status t |}.

Definition set_parachute (deployed : bool) (s : string) (t : SensorData)
  : SensorData :=
  {| gps := gps t; temperature := temperature t; humidity := humidity t;
     batteryVoltage := batteryVoltage t;
     parachuteDeployed := deployed; status := s |}.

(** [readTemperature] and [readHumidity], given what the DHT library
    answered. *)
Definition readTemperature (temp : float) (telemetry : SensorData) : float :=
  if is_nan temp then temperature telemetry else temp.

Definition readHumidity (hum : float) (telemetry : SensorData) : float :=
  if is_nan hum then humidity telemetry else hum.

(** The two assignments of [loop] that take a DHT sample [(temp, hum)]. *)
Definition read_dht (telemetry : SensorData) (sample : float * float)
  : SensorData :=
  let t1 := set_temperature (readTemperature (fst sample) telemetry) telemetry in
  set_humidity (readHumidity (snd sample) t1) t1.

(** [raw * (4.2 / 1024.0)], a binary64 product stored in a [float]. *)
Definition readBatteryVoltage (raw : Z) : float :=
  to_float (F64.mul (F64.of_int raw) volts_per_count).

(** [for (i = 0; i < 10; i++) { digitalWrite(LED_PIN, !digitalRead(LED_PIN)); delay(100); }] *)
Fixpoint flash (n : nat) : M hardware unit :=
  match n with
  | O => ret tt
  | S n' =>
      (level <- digitalRead LED_PIN ;;
       digitalWrite LED_PIN (negb level) ;;
       delay 100 ;;
       flash n')%monad
  end.

Definition deployParachute : M (machine SensorData) unit :=
  fun m =>
    if negb (parachuteDeployed (mem m)) then
      (on_mem (set_parachute true "PARACHUTE DEPLOYED") ;;
       on_hw (flash 10))%monad m
    else (tt, m).

Definition checkAutoDeployment : M (machine SensorData) unit :=
  fun m =>
    let telemetry := mem m in
    if gpsValid (gps telemetry)
       && gt (gpsAltitude (gps telemetry)) (of_int 0)
       && lt (gpsAltitude (gps telemetry)) (of_int 50)
       && negb (parachuteDeployed telemetry)
    then deployParachute m
    else (tt, m).

Definition handleDeploy : M (machine SensorData) unit := deployParachute.

Definition handleReset : M (machine SensorData) unit :=
  on_mem (set_parachute false "READY").

(** What can happen to the parachute logic, in the order it happens:
    a pass of [loop] through [checkAutoDeployment], a request for
    [/deploy], a request for [/reset], or a GPS sentence. *)
Inductive action : Type :=
| AutoCheck
| WebDeploy
| WebReset
| Sentence (g : GpsData -> GpsData).

Definition act (a : action) : M (machine SensorData) unit :=
  match a with
  | AutoCheck => checkAutoDeployment
  | WebDeploy => handleDeploy
  | WebReset => handleReset
  | Sentence g => on_mem (fun t => set_gps (g (gps t)) t)
  end.

Definition run (l : list action) (m : machine SensorData) : machine SensorData :=
  fold_left (fun m a => exec (act a) m) l m.

Definition is_reset (a : action) : bool :=
  match a with WebReset => true | _ => false end.

End Esp.

(** The DHT code of cansat_mega.ino: [readDHT], given what the library
    answered. *)
Definition readDHT (sample : float * float) (temperature_humidity : float * float)
  : float * float :=
  let (t, h) := sample in
  let (temperature, humidity) := temperature_humidity in
  (if negb (is_nan t) then t else temperature,
   if negb (is_nan h) then h else humidity).

(** The last sample of a list that is a number, [x] when there is none. *)
Definition last_number (x : float) (samples : list float) : float :=
  last (filter (fun s => negb (is_nan s)) samples) x.

(** [$GPGGA,123521,4807.100,N,01131.100,E,0,00,99.9,545.0,M,46.9,M,,*4F]:
    a sentence that carries a position but no fix. *)
Definition gga_lost : cstring :=
  join [chars "$GPGGA"; chars "123521"; chars "4807.100"; chars "N";
        chars "01131.100"; chars "E"; chars "0"; chars "00"; chars "99.9";
        chars "545.0"; chars "M"; chars "46.9"; chars "M"; []; chars "*4F"].

Definition rmc_moving : cstring :=
  chars "$GPRMC,123519,A,4807.038,N,01131.000,E,022.4,084.4,230394,003.1,W*6A".

(** [$GPGGA,123522,4807.038,N,01131.000,E,1,08,0.9,45.0,M,46.9,M,,*4A]:
    a fix at an altitude of 45 m. *)
Definition gga_low : cstring :=
  join [chars "$GPGGA"; chars "123522"; chars "4807.038"; chars "N";
        chars "01131.000"; chars "E"; chars "1"; chars "08"; chars "0.9";
        chars "45.0"; chars "M"; chars "46.9"; chars "M"; []; chars "*4A"].

(** The ESP8266 sketch when [setup] is over, on a board whose clock
    reads 0. *)
Definition esp_ready : machine Esp.SensorData :=
  {| hw := steady 0 0;
     mem := {| Esp.gps := no_fix; Esp.temperature := of_int 0;
               Esp.humidity := of_int 0; Esp.batteryVoltage := of_int 0;
               Esp.parachuteDeployed := false; Esp.status := "ACTIVE" |} |}.

(** The ADC counts [0 .. n - 1]. *)
Definition counts (n : nat) : list Z := map Z.of_nat (seq 0 n).

(** Settles what one case of the GGA [switch] does to a variable. *)
Ltac gga_case_field :=
  let i := fresh "i" in
  let tok := fresh "tok" in
  let v := fresh "v" in
  let t0 := fresh "t" in
  intros i tok [v t0]; unfold Esp.gga_case;
  repeat match goal with
    | |- context [?a =? ?b] => destruct (Z.eqb_spec a b); try lia
    end;
  try reflexivity.

(* ================================================================== *)
(** ** terrain_scanner.ino: [loop] *)
(* ================================================================== *)

(** [millis()]: the milliseconds since the board started, as an
    [unsigned long] of 32 bits. *)
Definition millis : M hardware Z :=
  fun w => ((now w / 1000) mod 2 ^ 32, w).

Module ScannerMain.

Definition SCAN_INTERVAL : Z := 500.
Definition LED_PIN : Z := 13.

(** [scanCount++] on an [unsigned long]. *)
Definition count_scan (g : Scanner.globals) : Scanner.globals :=
  {| Scanner.terrain := Scanner.terrain g;
     Scanner.terrainMin := Scanner.terrainMin g;
     Scanner.terrainMax := Scanner.terrainMax g;
     Scanner.terrainVariance := Scanner.terrainVariance g;
     Scanner.terrainStatus := Scanner.terrainStatus g;
     Scanner.scanCount := (Scanner.scanCount g + 1) mod 2 ^ 32 |}.

(** One pass of [loop].  The static local [lastScan] is passed in and
    its new value returned; the difference [millis() - lastScan] is taken
    on 32 bits.  What goes to the serial port is left out. *)
Definition loop (lastScan : Z) : M (machine Scanner.globals) Z :=
  (t <- on_hw millis ;;
   if SCAN_INTERVAL <=? (t - lastScan) mod 2 ^ 32 then
     lastScan' <- on_hw millis ;;
     on_mem count_scan ;;
     Scanner.readTerrainArray ;;
     level <- on_hw (digitalRead LED_PIN) ;;
     on_hw (digitalWrite LED_PIN (negb level)) ;;
     ret lastScan'
   else ret lastScan)%monad.

End ScannerMain.

(** Sweeps over level ground at 100 cm, one channel without echo. *)
Definition level5 : list float := [cm 100; cm 100; NO_ECHO; cm 100; cm 100].
Definition level6 : list float := cm 100 :: level5.

(** The scanner 600 ms after the start, echoes of 583 microseconds
    taking 1 ms each. *)
Definition scanner_at_600ms : machine Scanner.globals :=
  {| hw := {| now := 600000; log := [];
              echo := fun _ _ => {| pulse_width := 583; pulse_elapsed := 1000 |} |};
     mem := Scanner.initial |}.

(* ================================================================== *)
(** ** Rounding to nearest, ties to even *)
(* ================================================================== *)

(** [binary_round_aux] of the standard library rounds a mantissa with a
    location; the definitions below say what it computes for the
    quotient [N / D] of two integers scaled by a power of two, which is
    what every operation of the sketches' arithmetic rounds. *)
Section RoundingModel.

Variables prec emax : Z.

(** Where [N / D] lies between its integer part and the next integer. *)
Definition loc_of (N D : Z) : location :=
  if N mod D =? 0 then loc_Exact else loc_Inexact (2 * (N mod D) ?= D).

(** [N / D] rounded to the nearest integer, ties to even. *)
Definition rne (N D : Z) : Z := round_nearest_even (N / D) (loc_of N D).

(** A mantissa that rounding carried to [2 ^ prec] takes the next
    exponent. *)
Definition norm (n E : Z) : Z * Z :=
  if n =? 2 ^ prec then (2 ^ (prec - 1), E + 1) else (n, E).

Definition pack (s : bool) (nE : Z * Z) : spec_float :=
  match fst nE with
  | Z0 => S754_zero s
  | Zpos m =>
      if snd nE <=? emax - prec then S754_finite s m (snd nE)
      else S754_infinity s
  | Zneg _ => S754_nan
  end.

(** The float nearest to [N / K * 2 ^ E], [E] being the exponent of the
    format at the magnitude of that number. *)
Definition rounded (s : bool) (N K E : Z) : spec_float :=
  pack s (norm (rne N K) E).

(** [N / K] is a mantissa of the format at the exponent [E]: it is below
    [2 ^ prec], and not below [2 ^ (prec - 1)] unless [E] is the least
    exponent. *)
Definition framed (N K E : Z) : Prop :=
  0 <= N /\ 0 < K /\ N < K * 2 ^ prec
  /\ emin prec emax <= E
  /\ (emin prec emax < E -> K * 2 ^ (prec - 1) <= N).

End RoundingModel.

(** [N1 / K1 * 2 ^ E1 <= N2 / K2 * 2 ^ E2], on integers. *)
Definition value_le (N1 K1 E1 N2 K2 E2 : Z) : Prop :=
  N1 * K2 * 2 ^ (E1 - Z.min E1 E2) <= N2 * K1 * 2 ^ (E2 - Z.min E1 E2).

(** A float that is not negative: [+0], a positive number or
    [+infinity]. *)
Definition nonneg (x : float) : bool :=
  match x with
  | S754_zero s | S754_infinity s | S754_finite s _ _ => negb s
  | S754_nan => false
  end.

Definition not_nan (x : float) : bool := negb (is_nan x).

(** [a <= b] for floats that are numbers. *)
Definition fle (a b : float) : bool := SFleb a b.

(* ================================================================== *)
(** ** Orientation estimator *)
(* ================================================================== *)

(** [readMPU6050] and [readQMC5883L] are IEEE-754 arithmetic around
    two functions of the C library, [atan2] and [sqrt].  The library is
    not part of the sketches: the two functions are parameters of the
    model, and what the proofs need of them is stated in [libm] below.
    On the AVR boards they work on binary32 (there [double] is [float]);
    on the ESP8266 they work on binary64 and the result is rounded to
    the [float] field it is stored in. *)

(** [fabs]. *)
Definition magnitude (x : float) : float :=
  match x with
  | S754_zero _ => S754_zero false
  | S754_infinity _ => S754_infinity false
  | S754_nan => S754_nan
  | S754_finite _ m e => S754_finite false m e
  end.

Definition is_zero (x : float) : bool :=
  match x with S754_zero _ => true | _ => false end.

(** A positive number of the format. *)
Definition finite_pos (prec emax : Z) (x : float) : bool :=
  match x with
  | S754_finite false m e => SpecFloat.bounded prec emax m e
  | _ => false
  end.

(** [x] is a float of the format with [lo <= |x| <= hi]. *)
Definition within (prec emax : Z) (lo hi x : float) : bool :=
  valid_binary prec emax x && SFleb lo (magnitude x) && SFleb (magnitude x) hi.

(** The values of an [int16_t]. *)
Definition int16 (n : Z) : Prop := -32768 <= n <= 32767.

Section Libm.

Variables prec emax : Z.
(** The floats nearest to pi and to pi/2, and a bound [tiny] under the
    least angle two counts can make. *)
Variables pi pio2 tiny : float.
Variable atan2 : float -> float -> float.
Variable sqrt : float -> float.

(** [atan2] on the axes (C11, F.10.1.4): [atan2(+-0, x)] is [+-0] for
    [x > 0] and [+-pi] for [x < 0]; [atan2(y, +-0)] is [pi/2] for
    [y > 0] and [-pi/2] for [y < 0]. *)
Definition atan2_axes : Prop :=
  (forall s x, SFltb (S754_zero false) x = true ->
     atan2 (S754_zero s) x = S754_zero s)
  /\ (forall s x, SFltb x (S754_zero false) = true ->
        atan2 (S754_zero s) x = if s then SFopp pi else pi)
  /\ (forall s y, SFltb (S754_zero false) y = true ->
        atan2 y (S754_zero s) = pio2)
  /\ (forall s y, SFltb y (S754_zero false) = true ->
        atan2 y (S754_zero s) = SFopp pio2).

(** The angle of a point whose abscissa is not negative lies between
    [-pi/2] and [pi/2]. *)
Definition atan2_right_half : Prop :=
  forall y x, is_nan y = false -> nonneg x = true ->
    within prec emax (S754_zero false) pio2 (atan2 y x) = true.

(** The angle of a point whose coordinates are 16-bit counts is a zero,
    or lies between [tiny] and [pi] in magnitude. *)
Definition atan2_of_counts : Prop :=
  forall y x : Z, int16 y -> int16 x ->
    let a := atan2 (binary_normalize prec emax y 0 false)
                   (binary_normalize prec emax x 0 false) in
    is_zero a || within prec emax tiny pi a = true.

(** The square root of a number that is not negative is not negative,
    and the square root of 1 is 1. *)
Definition sqrt_sign : Prop :=
  (forall x, nonneg x = true -> nonneg (sqrt x) = true)
  /\ sqrt (binary_normalize prec emax 1 0 false)
     = binary_normalize prec emax 1 0 false.

Record libm : Prop := {
  libm_axes : atan2_axes;
  libm_right_half : atan2_right_half;
  libm_of_counts : atan2_of_counts;
  libm_sqrt : sqrt_sign
}.

(** An [atan2] that is exact on the axes and coarse elsewhere: a point
    off the horizontal axis gets the angle of the vertical half-axis on
    its side. *)
Definition coarse_atan2 (y x : float) : float :=
  if is_nan y || is_nan x then S754_nan
  else match y with
       | S754_zero s =>
           if nonneg x then S754_zero s else if s then SFopp pi else pi
       | _ => if nonneg y then pio2 else SFopp pio2
       end.

End Libm.

Module Orientation.

(** The accelerometer and magnetometer fields of [struct SensorData]. *)
Record SensorData : Type := {
  accelX : float; accelY : float; accelZ : float;
  roll : float; pitch : float;
  magX : float; magY : float; magZ : float;
  heading : float
}.

(** [SensorData telemetry;] is a global: every field starts at 0. *)
Definition initial : SensorData :=
  {| accelX := of_int 0; accelY := of_int 0; accelZ := of_int 0;
     roll := of_int 0; pitch := of_int 0;
     magX := of_int 0; magY := of_int 0; magZ := of_int 0;
     heading := of_int 0 |}.

(** [PI] of Arduino.h is 3.1415926535897932384626433832795; as a
    binary32 constant it is 13176795 * 2^-22, as a binary64 constant
    7074237752028440 * 2^-51. *)
Definition PI_f : float := S754_finite false 13176795 (-22).
Definition PI_d : float := S754_finite false 7074237752028440 (-51).

(** The halves of them, the floats nearest to pi/2. *)
Definition PIO2_f : float := S754_finite false 13176795 (-23).
Definition PIO2_d : float := S754_finite false 7074237752028440 (-52).

(** [2^-16], below [atan (1 / 32768)], the least angle that two 16-bit
    counts make with the horizontal axis. *)
Definition tiny_f : float := Eval vm_compute in div (of_int 1) (of_int 65536).
Definition tiny_d : float :=
  Eval vm_compute in F64.div (F64.of_int 1) (F64.of_int 65536).

(** *** cansat_mega.ino: everything in binary32 *)

Section Mega.

Variable atan2 : float -> float -> float.
Variable sqrt : float -> float.

(** [angle * 180.0 / PI]. *)
Definition degrees (angle : float) : float :=
  div (mul angle (of_int 180)) PI_f.

(** [readMPU6050], the three [int16_t] values read from the bus being
    [rawX], [rawY], [rawZ]. *)
Definition readMPU6050 (rawX rawY rawZ : Z) (telemetry : SensorData) : SensorData :=
  let ax := div (of_int rawX) (of_int 16384) in
  let ay := div (of_int rawY) (of_int 16384) in
  let az := div (of_int rawZ) (of_int 16384) in
  {| accelX := ax; accelY := ay; accelZ := az;
     roll := degrees (atan2 ay az);
     pitch := degrees (atan2 (neg ax) (sqrt (add (mul ay ay) (mul az az))));
     magX := magX telemetry; magY := magY telemetry; magZ := magZ telemetry;
     heading := heading telemetry |}.

(** [readQMC5883L]. *)
Definition readQMC5883L (rawX rawY rawZ : Z) (telemetry : SensorData) : SensorData :=
  let heading0 := degrees (atan2 (of_int rawY) (of_int rawX)) in
  let heading1 :=
    if lt heading0 (of_int 0) then add heading0 (of_int 360) else heading0 in
  {| accelX := accelX telemetry; accelY := accelY telemetry;
     accelZ := accelZ telemetry;
     roll := roll telemetry; pitch := pitch telemetry;
     magX := of_int rawX; magY := of_int rawY; magZ := of_int rawZ;
     heading := heading1 |}.

End Mega.

(** *** The ESP8266 sketch: binary64, rounded to the [float] fields *)

Section Esp8266.

Variable atan2 : float -> float -> float.
Variable sqrt : float -> float.

(** [angle * 180.0 / PI] in [double], stored to a [float]. *)
Definition degrees_esp (angle : float) : float :=
  to_float (F64.div (F64.mul angle (F64.of_int 180)) PI_d).

(** [readMPU6050]: the quotients are taken in [double] and stored to the
    [float] fields; the sum of the squares is [float] arithmetic, its
    square root and the angles are [double]. *)
Definition readMPU6050_esp (rawX rawY rawZ : Z) (telemetry : SensorData)
  : SensorData :=
  let ax := to_float (F64.div (F64.of_int rawX) (F64.of_int 16384)) in
  let ay := to_float (F64.div (F64.of_int rawY) (F64.of_int 16384)) in
  let az := to_float (F64.div (F64.of_int rawZ) (F64.of_int 16384)) in
  {| accelX := ax; accelY := ay; accelZ := az;
     roll := degrees_esp (atan2 (to_double ay) (to_double az));
     pitch := degrees_esp
                (atan2 (to_double (neg ax))
                       (sqrt (to_double (add (mul ay ay) (mul az az)))));
     magX := magX telemetry; magY := magY telemetry; magZ := magZ telemetry;
     heading := heading telemetry |}.

(** [readQMC5883L]: the sample is used only when the bus delivered all
    six bytes; the heading is stored to the [float] field before it is
    compared with 0. *)
Definition readQMC5883L_esp (available : Z) (x y z : Z) (telemetry : SensorData)
  : SensorData :=
  if available =? 6 then
    let heading0 := degrees_esp (atan2 (F64.of_int y) (F64.of_int x)) in
    {| accelX := accelX telemetry; accelY := accelY telemetry;
       accelZ := accelZ telemetry;
       roll := roll telemetry; pitch := pitch telemetry;
       magX := of_int x; magY := of_int y; magZ := of_int z;
       heading := if lt heading0 (of_int 0) then add heading0 (of_int 360)
                  else heading0 |}
  else telemetry.

End Esp8266.

End Orientation.

(* ================================================================== *)
(** * Properties *)
(* ================================================================== *)

(** ** The definitions at work *)

Example lit_0_0343_value : lit_0_0343 = S754_finite false 9207336 (-28).
Proof. reflexivity. Qed.

(** 583 microseconds are 9207336 * 2^-28 * 583 / 2, about 9.998 cm. *)
Example to_cm_583 : to_cm 583 = S754_finite false 10484135 (-20).
Proof. reflexivity. Qed.

Example flat5_status :
  Scanner.terrainStatus (Scanner.readTerrainArray_on flat5 Scanner.initial)
  = "FLAT-SAFE"%string.
Proof. reflexivity. Qed.

Example silent6_status :
  Mega.terrainStatus (Mega.readTerrainArray_on silent6 Mega.initial)
  = "NO GROUND"%string.
Proof. reflexivity. Qed.

(** Five echoes of 583 microseconds, each answered after 600. *)
Example steady_scan :
  let m := exec Scanner.readTerrainArray
                {| hw := steady 583 600; mem := Scanner.initial |} in
  Scanner.terrainStatus (mem m) = "FLAT-SAFE"%string
  /\ map (Scanner.terrain (mem m)) (seq 0 5) = repeat (to_cm 583) 5
  /\ trigger_times Scanner.TRIG_PIN (log (hw m))
     = [2; 30614; 61226; 91838; 122450]
  /\ measure_ends (log (hw m)) = [612; 31224; 61836; 92448; 123060]
  /\ now (hw m) = 153060.
Proof. repeat split. Qed.

(** Six channels that all time out after 30000 microseconds. *)
Example silent_scan :
  let m := exec Mega.readTerrainArray
                {| hw := steady 0 30000; mem := Mega.initial |} in
  Mega.terrainStatus (mem m) = "NO GROUND"%string
  /\ map (Mega.terrain (mem m)) (seq 0 6) = silent6
  /\ trigger_times Mega.TRIG_PIN (log (hw m))
     = [2; 60014; 120026; 180038; 240050; 300062]
  /\ measure_ends (log (hw m))
     = [30012; 90024; 150036; 210048; 270060; 330072].
Proof. repeat split. Qed.

(** Readings of exactly 0 are neither valid nor below 0.  The driver
    never returns them; the 6-sensor sketch would call six of them flat
    ground. *)
Example mega_zero_readings :
  Mega.terrainStatus
    (Mega.readTerrainArray_on (repeat (of_int 0) 6) Mega.initial)
  = "FLAT-SAFE"%string
  /\ producible (of_int 0) = false.
Proof. split; reflexivity. Qed.

(** ** Comparisons *)

Lemma gt_not_lt (a b : float) : gt a b = true -> lt a b = false.
Proof.
  unfold gt, lt. destruct (SFcompare a b) as [[ | | ] | ]; congruence.
Qed.

Lemma NO_ECHO_invalid : valid NO_ECHO = false.
Proof. reflexivity. Qed.

Lemma valid_not_negative (d : float) : valid d = true -> lt d (of_int 0) = false.
Proof. apply gt_not_lt. Qed.

Lemma producible_cases (d : float) :
  producible d = true -> d = NO_ECHO \/ valid d = true.
Proof.
  unfold producible. destruct (float_eq_dec d NO_ECHO); auto.
Qed.

Lemma producible_negative (d : float) :
  producible d = true -> lt d (of_int 0) = negb (valid d).
Proof.
  intros H. destruct (producible_cases d H) as [-> | Hv].
  - reflexivity.
  - rewrite Hv. now apply valid_not_negative.
Qed.

(** ** The accumulators of a sweep *)

Lemma accumulate_invalid (a : acc) (d : float) :
  valid d = false -> accumulate a d = a.
Proof. unfold accumulate, valid. now intros ->. Qed.

Lemma accumulate_sentinel (a : acc) : accumulate a NO_ECHO = a.
Proof. apply accumulate_invalid, NO_ECHO_invalid. Qed.

Lemma fold_accumulate_valid (s : list float) (a : acc) :
  fold_left accumulate s a = fold_left accumulate (valid_samples s) a.
Proof.
  revert a. induction s as [ | d s IH]; intros a; simpl; [ reflexivity | ].
  destruct (valid d) eqn:Hd; simpl.
  - apply IH.
  - rewrite accumulate_invalid by assumption. apply IH.
Qed.

Lemma valid_samples_app (s1 s2 : list float) :
  valid_samples (s1 ++ s2) = valid_samples s1 ++ valid_samples s2.
Proof. apply filter_app. Qed.

Lemma count_valid_cons (d : float) (s : list float) :
  count_valid (d :: s) = (if valid d then 1 else 0) + count_valid s.
Proof.
  unfold count_valid, valid_samples. simpl.
  destruct (valid d); simpl List.length; lia.
Qed.

Lemma count_invalid_cons (d : float) (s : list float) :
  count_invalid (d :: s) = (if valid d then 0 else 1) + count_invalid s.
Proof.
  unfold count_invalid. simpl.
  destruct (valid d); simpl List.length; lia.
Qed.

Lemma count_split (s : list float) :
  count_valid s + count_invalid s = Z.of_nat (List.length s).
Proof.
  induction s as [ | d s IH].
  - reflexivity.
  - rewrite count_valid_cons, count_invalid_cons.
    simpl List.length. destruct (valid d); lia.
Qed.

Lemma fold_validCount (s : list float) (a : acc) :
  validCount (fold_left accumulate s a) = validCount a + count_valid s.
Proof.
  revert a. induction s as [ | d s IH]; intros a.
  - unfold count_valid. simpl. lia.
  - simpl fold_left. rewrite IH, count_valid_cons.
    unfold accumulate. fold (valid d). destruct (valid d); simpl validCount; lia.
Qed.

Lemma fold_sum (s : list float) (a : acc) :
  sum (fold_left accumulate s a) = fold_left add (valid_samples s) (sum a).
Proof.
  revert a. induction s as [ | d s IH]; intros a; [ reflexivity | ].
  simpl fold_left. rewrite IH. unfold valid_samples. simpl filter.
  unfold accumulate. fold (valid d). destruct (valid d); reflexivity.
Qed.

Lemma fold_sumSq (s : list float) (a : acc) :
  sumSq (fold_left accumulate s a)
  = fold_left (fun t d => add t (mul d d)) (valid_samples s) (sumSq a).
Proof.
  revert a. induction s as [ | d s IH]; intros a; [ reflexivity | ].
  simpl fold_left. rewrite IH. unfold valid_samples. simpl filter.
  unfold accumulate. fold (valid d). destruct (valid d); reflexivity.
Qed.

Lemma sweep_on_fst {G} (st : nat -> float -> G -> G) (s : list float)
      (i : nat) (a : acc) (g : G) :
  fst (sweep_on st s i a g) = fold_left accumulate s a.
Proof.
  revert i a g. induction s as [ | d s IH]; intros i a g; simpl;
    [ reflexivity | apply IH ].
Qed.

(** ** What a sweep leaves in the globals *)

Lemma Scanner_on_eq (s : list float) (g : Scanner.globals) :
  Scanner.readTerrainArray_on s g
  = Scanner.finish (fold_left accumulate s acc0)
                   (snd (sweep_on Scanner.set_terrain s 0 acc0 g)).
Proof.
  unfold Scanner.readTerrainArray_on.
  rewrite <- (sweep_on_fst Scanner.set_terrain s 0 acc0 g).
  now destruct (sweep_on Scanner.set_terrain s 0 acc0 g).
Qed.

Lemma Mega_on_eq (s : list float) (t : Mega.SensorData) :
  Mega.readTerrainArray_on s t
  = Mega.finish (fold_left accumulate s acc0)
                (snd (sweep_on Mega.set_terrain s 0 acc0 t)).
Proof.
  unfold Mega.readTerrainArray_on.
  rewrite <- (sweep_on_fst Mega.set_terrain s 0 acc0 t).
  now destruct (sweep_on Mega.set_terrain s 0 acc0 t).
Qed.

Lemma Scanner_analyze_status (vc : Z) (g : Scanner.globals) :
  classification_of (Scanner.terrainStatus (Scanner.analyzeTerrain vc g))
  = Some (rule_chain (Scanner.NUM_SENSORS - vc) vc
                     (Scanner.terrainMin g) (Scanner.terrainMax g)).
Proof.
  unfold Scanner.analyzeTerrain, rule_chain.
  destruct (3 <=? Scanner.NUM_SENSORS - vc); [ reflexivity | ].
  destruct (gt _ (of_int 50)); [ reflexivity | ].
  destruct (gt _ (of_int 20)); [ reflexivity | ].
  destruct (0 <? vc); reflexivity.
Qed.

Lemma Scanner_analyze_stats (vc : Z) (g : Scanner.globals) :
  Scanner.terrainMin (Scanner.analyzeTerrain vc g) = Scanner.terrainMin g
  /\ Scanner.terrainMax (Scanner.analyzeTerrain vc g) = Scanner.terrainMax g
  /\ Scanner.terrainVariance (Scanner.analyzeTerrain vc g)
     = Scanner.terrainVariance g.
Proof.
  unfold Scanner.analyzeTerrain.
  destruct (3 <=? _); [ now repeat split | ].
  destruct (gt _ (of_int 50)); [ now repeat split | ].
  destruct (gt _ (of_int 20)); [ now repeat split | ].
  destruct (0 <? vc); now repeat split.
Qed.

Lemma Mega_analyze_status (t : Mega.SensorData) :
  classification_of (Mega.terrainStatus (Mega.analyzeTerrain t))
  = Some
      (let out := Mega.count_out_of_range (Z.to_nat Mega.NUM_SENSORS) 0
                                          (Mega.terrain t) 0 in
       let range := sub (Mega.terrainMax t) (Mega.terrainMin t) in
       if 3 <=? out then NO_GROUND
       else if gt range (of_int 50) then HAZARD
       else if gt range (of_int 20) then UNEVEN
       else FLAT_SAFE).
Proof.
  unfold Mega.analyzeTerrain. cbv zeta.
  destruct (3 <=? _); [ reflexivity | ].
  destruct (gt _ (of_int 50)); [ reflexivity | ].
  destruct (gt _ (of_int 20)); reflexivity.
Qed.

Lemma Mega_analyze_stats (t : Mega.SensorData) :
  Mega.terrainMin (Mega.analyzeTerrain t) = Mega.terrainMin t
  /\ Mega.terrainMax (Mega.analyzeTerrain t) = Mega.terrainMax t
  /\ Mega.terrainVariance (Mega.analyzeTerrain t) = Mega.terrainVariance t
  /\ Mega.terrain (Mega.analyzeTerrain t) = Mega.terrain t.
Proof.
  unfold Mega.analyzeTerrain. cbv zeta.
  destruct (3 <=? _); [ now repeat split | ].
  destruct (gt _ (of_int 50)); [ now repeat split | ].
  destruct (gt _ (of_int 20)); now repeat split.
Qed.

(** The loop stores the readings in [terrain], in order. *)

Lemma Mega_sweep_on_below (s : list float) (i : nat) (a : acc)
      (t : Mega.SensorData) (j : nat) :
  (j < i)%nat ->
  Mega.terrain (snd (sweep_on Mega.set_terrain s i a t)) j = Mega.terrain t j.
Proof.
  revert i a t. induction s as [ | d s IH]; intros i a t Hj; simpl.
  - reflexivity.
  - rewrite IH by lia. simpl. unfold store.
    destruct (Nat.eqb_spec j i); [ lia | reflexivity ].
Qed.

Lemma Mega_sweep_on_terrain (s : list float) (i : nat) (a : acc)
      (t : Mega.SensorData) :
  map (Mega.terrain (snd (sweep_on Mega.set_terrain s i a t)))
      (seq i (List.length s)) = s.
Proof.
  revert i a t. induction s as [ | d s IH]; intros i a t; simpl.
  - reflexivity.
  - f_equal.
    + rewrite Mega_sweep_on_below by lia. simpl. unfold store.
      now rewrite Nat.eqb_refl.
    + apply IH.
Qed.

Lemma count_out_of_range_filter (n i : nat) (f : nat -> float) (c : Z) :
  Mega.count_out_of_range n i f c
  = c + Z.of_nat (List.length
                    (filter (fun d => lt d (of_int 0)) (map f (seq i n)))).
Proof.
  revert i c. induction n as [ | n IH]; intros i c; simpl.
  - lia.
  - rewrite IH. destruct (lt (f i) (of_int 0)); simpl List.length; lia.
Qed.

Lemma negative_count_producible (s : list float) :
  forallb producible s = true ->
  Z.of_nat (List.length (filter (fun d => lt d (of_int 0)) s)) = count_invalid s.
Proof.
  induction s as [ | d s IH]; intros H.
  - reflexivity.
  - simpl in H. apply andb_prop in H. destruct H as [Hd Hs].
    rewrite count_invalid_cons, <- (IH Hs). simpl filter.
    rewrite (producible_negative d Hd).
    destruct (valid d); simpl List.length; lia.
Qed.

Lemma Mega_out_of_range (s : list float) (a : acc) (t : Mega.SensorData) :
  List.length s = 6%nat ->
  Mega.count_out_of_range (Z.to_nat Mega.NUM_SENSORS) 0
    (Mega.terrain (snd (sweep_on Mega.set_terrain s 0 a t))) 0
  = Z.of_nat (List.length (filter (fun d => lt d (of_int 0)) s)).
Proof.
  intros Hlen. rewrite count_out_of_range_filter.
  change (Z.to_nat Mega.NUM_SENSORS) with 6%nat. rewrite <- Hlen.
  now rewrite Mega_sweep_on_terrain.
Qed.

(** ** C1: the decision rule *)

Lemma Scanner_rule_chain (s : list float) (g : Scanner.globals) :
  List.length s = 5%nat ->
  let g' := Scanner.readTerrainArray_on s g in
  classification_of (Scanner.terrainStatus g')
  = Some (rule_chain (count_invalid s) (count_valid s)
                     (Scanner.terrainMin g') (Scanner.terrainMax g')).
Proof.
  intros Hlen g'. subst g'. rewrite Scanner_on_eq. unfold Scanner.finish.
  set (a := fold_left accumulate s acc0). set (g1 := Scanner.set_stats _ _ _ _).
  destruct (Scanner_analyze_stats (validCount a) g1) as (-> & -> & _).
  rewrite Scanner_analyze_status. do 2 f_equal.
  - unfold a. rewrite fold_validCount. simpl validCount.
    pose proof (count_split s) as Hc. rewrite Hlen in Hc.
    unfold Scanner.NUM_SENSORS. lia.
  - unfold a. rewrite fold_validCount. reflexivity.
Qed.

Lemma Mega_rule_chain (s : list float) (t : Mega.SensorData) :
  List.length s = 6%nat -> forallb producible s = true ->
  let t' := Mega.readTerrainArray_on s t in
  classification_of (Mega.terrainStatus t')
  = Some (rule_chain (count_invalid s) (count_valid s)
                     (Mega.terrainMin t') (Mega.terrainMax t')).
Proof.
  intros Hlen Hp t'. subst t'. rewrite Mega_on_eq. unfold Mega.finish.
  set (a := fold_left accumulate s acc0).
  set (t0 := snd (sweep_on Mega.set_terrain s 0 acc0 t)).
  set (t1 := Mega.set_stats _ _ _ t0).
  destruct (Mega_analyze_stats t1) as (-> & -> & _).
  rewrite Mega_analyze_status. cbv zeta.
  assert (Hout : Mega.count_out_of_range (Z.to_nat Mega.NUM_SENSORS) 0
                   (Mega.terrain t1) 0 = count_invalid s).
  { unfold t1, t0. simpl Mega.terrain.
    rewrite (Mega_out_of_range s acc0 t Hlen).
    now apply negative_count_producible. }
  rewrite Hout. unfold rule_chain. f_equal.
  destruct (3 <=? count_invalid s) eqn:Hinv; [ reflexivity | ].
  destruct (gt _ (of_int 50)); [ reflexivity | ].
  destruct (gt _ (of_int 20)); [ reflexivity | ].
  pose proof (count_split s) as Hc. rewrite Hlen in Hc.
  apply Z.leb_gt in Hinv.
  destruct (0 <? count_valid s) eqn:Hv; [ reflexivity | ].
  apply Z.ltb_ge in Hv. lia.
Qed.

(** ** The sketch on the simulated hardware and on given readings *)

Lemma sweep_loop_run {G} (trig : Z) (pins : list Z) (st : nat -> float -> G -> G)
      (n i : nat) (a : acc) (m : machine G) :
  sweep_loop trig pins st n i a m
  = (fst (sweep_on st (readings trig pins n i (hw m)) i a (mem m)),
     {| hw := sweep_hw trig pins n i (hw m);
        mem := snd (sweep_on st (readings trig pins n i (hw m)) i a (mem m)) |}).
Proof.
  revert i a m. induction n as [ | n IH]; intros i a [w g].
  - reflexivity.
  - cbn [sweep_loop readings sweep_hw hw mem].
    unfold bind at 1. unfold on_hw at 1. cbn [hw mem].
    destruct (readSingleUltrasonic trig (nth i pins 0) w) as [dist w1] eqn:Hr.
    unfold bind at 1. unfold on_mem at 1, modify at 1. cbn [hw mem].
    unfold bind at 1. unfold on_hw at 1. cbn [hw mem].
    unfold exec. destruct (delay SETTLE_MS w1) as [u w2] eqn:Hd. cbn [snd].
    rewrite IH. reflexivity.
Qed.

Lemma readings_length (trig : Z) (pins : list Z) (n i : nat) (w : hardware) :
  List.length (readings trig pins n i w) = n.
Proof.
  revert i w. induction n as [ | n IH]; intros i w; simpl; [ reflexivity | ].
  destruct (readSingleUltrasonic trig (nth i pins 0) w) as [dist w1].
  simpl. now rewrite IH.
Qed.

(** Running the 5-sensor sketch is [readTerrainArray_on] at the readings
    the hardware returned. *)
Lemma Scanner_run (m : machine Scanner.globals) :
  mem (exec Scanner.readTerrainArray m)
  = Scanner.readTerrainArray_on
      (readings Scanner.TRIG_PIN Scanner.echoPins 5 0 (hw m)) (mem m).
Proof.
  unfold exec, Scanner.readTerrainArray, bind.
  change (Z.to_nat Scanner.NUM_SENSORS) with 5%nat.
  rewrite sweep_loop_run. cbn [fst snd]. unfold on_mem, modify. cbn [snd mem].
  rewrite Scanner_on_eq.
  now rewrite sweep_on_fst.
Qed.

Lemma Mega_run (m : machine Mega.SensorData) :
  mem (exec Mega.readTerrainArray m)
  = Mega.readTerrainArray_on
      (readings Mega.TRIG_PIN Mega.echoPins 6 0 (hw m)) (mem m).
Proof.
  unfold exec, Mega.readTerrainArray, bind.
  change (Z.to_nat Mega.NUM_SENSORS) with 6%nat.
  rewrite sweep_loop_run. cbn [fst snd]. unfold on_mem, modify. cbn [snd mem].
  rewrite Mega_on_eq.
  now rewrite sweep_on_fst.
Qed.

Lemma Scanner_run_hw (m : machine Scanner.globals) :
  hw (exec Scanner.readTerrainArray m)
  = sweep_hw Scanner.TRIG_PIN Scanner.echoPins 5 0 (hw m).
Proof.
  unfold exec, Scanner.readTerrainArray, bind.
  change (Z.to_nat Scanner.NUM_SENSORS) with 5%nat.
  rewrite sweep_loop_run. reflexivity.
Qed.

Lemma Mega_run_hw (m : machine Mega.SensorData) :
  hw (exec Mega.readTerrainArray m)
  = sweep_hw Mega.TRIG_PIN Mega.echoPins 6 0 (hw m).
Proof.
  unfold exec, Mega.readTerrainArray, bind.
  change (Z.to_nat Mega.NUM_SENSORS) with 6%nat.
  rewrite sweep_loop_run. reflexivity.
Qed.

(** ** C3: the variance *)

Lemma variance_of_fold (s : list float) :
  variance_of (fold_left accumulate s acc0)
  = population_variance (valid_samples s).
Proof.
  unfold variance_of, population_variance.
  rewrite fold_validCount, fold_sum, fold_sumSq. simpl validCount.
  fold (count_valid s). simpl sum. simpl sumSq. unfold fsum, fsum_sq.
  rewrite Z.add_0_l.
  destruct (Z.ltb_spec 1 (count_valid s)), (Z.leb_spec (count_valid s) 1);
    try lia; reflexivity.
Qed.

(** C3.  After a sweep, the variance either sketch reports is 0 (and so
    not NaN) when at most one sample is valid, and otherwise it is the
    sum of the squares of the valid samples over their count, minus the
    square of their mean (their sum over their count): the population
    formula, evaluated in binary32. *)
Theorem terrain_variance (s : list float) :
  let v := valid_samples s in
  let n := of_int (count_valid s) in
  let formula := sub (div (fsum_sq v) n) (mul (div (fsum v) n) (div (fsum v) n)) in
  (forall g,
      let var := Scanner.terrainVariance (Scanner.readTerrainArray_on s g) in
      var = population_variance v
      /\ (count_valid s <= 1 -> var = of_int 0 /\ is_nan var = false)
      /\ (1 < count_valid s -> var = formula))
  /\ (forall t,
         let var := Mega.terrainVariance (Mega.readTerrainArray_on s t) in
         var = population_variance v
         /\ (count_valid s <= 1 -> var = of_int 0 /\ is_nan var = false)
         /\ (1 < count_valid s -> var = formula)).
Proof.
  intros v n formula.
  assert (Hcases : forall var, var = population_variance v ->
            (count_valid s <= 1 -> var = of_int 0 /\ is_nan var = false)
            /\ (1 < count_valid s -> var = formula)).
  { intros var ->. unfold population_variance.
    change (Z.of_nat (List.length v)) with (count_valid s).
    destruct (Z.leb_spec (count_valid s) 1); split; intros; try lia.
    - now split.
    - reflexivity. }
  split.
  - intros g var. subst var. rewrite Scanner_on_eq. unfold Scanner.finish.
    destruct (Scanner_analyze_stats
                (validCount (fold_left accumulate s acc0))
                (Scanner.set_stats
                   (if 0 <? validCount (fold_left accumulate s acc0)
                    then minDist (fold_left accumulate s acc0) else of_int 0)
                   (if 0 <? validCount (fold_left accumulate s acc0)
                    then maxDist (fold_left accumulate s acc0) else of_int 0)
                   (variance_of (fold_left accumulate s acc0))
                   (snd (sweep_on Scanner.set_terrain s 0 acc0 g))))
      as (_ & _ & ->).
    simpl Scanner.terrainVariance. rewrite variance_of_fold.
    split; [ reflexivity | now apply Hcases ].
  - intros t var. subst var. rewrite Mega_on_eq. unfold Mega.finish.
    destruct (Mega_analyze_stats
                (Mega.set_stats (minDist (fold_left accumulate s acc0))
                   (maxDist (fold_left accumulate s acc0))
                   (variance_of (fold_left accumulate s acc0))
                   (snd (sweep_on Mega.set_terrain s 0 acc0 t))))
      as (_ & _ & -> & _).
    simpl Mega.terrainVariance. rewrite variance_of_fold.
    split; [ reflexivity | now apply Hcases ].
Qed.

Lemma terrain_variance_witness :
  Scanner.terrainVariance (Scanner.readTerrainArray_on silent5 Scanner.initial)
  = of_int 0
  /\ Mega.terrainVariance (Mega.readTerrainArray_on cliff6 Mega.initial)
     = of_int 900.
Proof.
  destruct (terrain_variance silent5) as [Hs _].
  destruct (terrain_variance cliff6) as [_ Hm].
  split.
  - destruct (Hs Scanner.initial) as (_ & H1 & _).
    apply H1. vm_compute. discriminate.
  - destruct (Hm Mega.initial) as (_ & _ & H2).
    rewrite H2 by (vm_compute; reflexivity). reflexivity.
Defined.

(** ** C7: every sweep is classified *)

(** C7.  The classifier is total.  Whatever the readings of a sweep
    (valid, sentinel, zero, infinite or NaN) and whatever the world does
    to the hardware, [readTerrainArray] returns and leaves a status that
    stands for one of the five classifications; the initial status is
    none of them. *)
Theorem classifier_total :
  (forall s g, exists c,
        classification_of
          (Scanner.terrainStatus (Scanner.readTerrainArray_on s g)) = Some c)
  /\ (forall s t, exists c,
         classification_of
           (Mega.terrainStatus (Mega.readTerrainArray_on s t)) = Some c)
  /\ (forall m, exists c,
         classification_of
           (Scanner.terrainStatus (mem (exec Scanner.readTerrainArray m)))
         = Some c)
  /\ (forall m, exists c,
         classification_of
           (Mega.terrainStatus (mem (exec Mega.readTerrainArray m))) = Some c)
  /\ classification_of (Scanner.terrainStatus Scanner.initial) = None
  /\ classification_of (Mega.terrainStatus Mega.initial) = None.
Proof.
  assert (Hs : forall s g, exists c,
               classification_of
                 (Scanner.terrainStatus (Scanner.readTerrainArray_on s g))
               = Some c).
  { intros s g. rewrite Scanner_on_eq. unfold Scanner.finish.
    rewrite Scanner_analyze_status. eauto. }
  assert (Hm : forall s t, exists c,
               classification_of
                 (Mega.terrainStatus (Mega.readTerrainArray_on s t)) = Some c).
  { intros s t. rewrite Mega_on_eq. unfold Mega.finish.
    rewrite Mega_analyze_status. eauto. }
  repeat split.
  - exact Hs.
  - exact Hm.
  - intros m. rewrite Scanner_run. apply Hs.
  - intros m. rewrite Mega_run. apply Hm.
Qed.

(** ** C10: a sweep without any valid sample *)

Lemma no_valid_fold (s : list float) :
  count_valid s = 0 -> fold_left accumulate s acc0 = acc0.
Proof.
  intros H. rewrite fold_accumulate_valid.
  unfold count_valid in H.
  destruct (valid_samples s); [ reflexivity | simpl in H; lia ].
Qed.

(** C10.  When no sample of a sweep is valid, the 6-sensor sketch
    reports the untouched accumulators, [terrainMin = 9999] and
    [terrainMax = 0]: its minimum exceeds its maximum and the range
    [terrainMax - terrainMin] is [-9999], negative.  The 5-sensor sketch
    reports [terrainMin = terrainMax = 0] for such a sweep. *)
Theorem zero_valid_extremes (s5 s6 : list float)
        (H5 : count_valid s5 = 0) (H6 : count_valid s6 = 0) :
  (forall t,
      let t' := Mega.readTerrainArray_on s6 t in
      Mega.terrainMin t' = of_int 9999
      /\ Mega.terrainMax t' = of_int 0
      /\ gt (Mega.terrainMin t') (Mega.terrainMax t') = true
      /\ sub (Mega.terrainMax t') (Mega.terrainMin t') = of_int (-9999)
      /\ lt (sub (Mega.terrainMax t') (Mega.terrainMin t')) (of_int 0) = true)
  /\ (forall g,
         let g' := Scanner.readTerrainArray_on s5 g in
         Scanner.terrainMin g' = of_int 0 /\ Scanner.terrainMax g' = of_int 0).
Proof.
  split.
  - intros t t'. subst t'. rewrite Mega_on_eq. unfold Mega.finish.
    rewrite (no_valid_fold s6 H6).
    destruct (Mega_analyze_stats
                (Mega.set_stats (minDist acc0) (maxDist acc0) (variance_of acc0)
                   (snd (sweep_on Mega.set_terrain s6 0 acc0 t))))
      as (-> & -> & _).
    simpl Mega.terrainMin. simpl Mega.terrainMax.
    repeat split; reflexivity.
  - intros g g'. subst g'. rewrite Scanner_on_eq. unfold Scanner.finish.
    rewrite (no_valid_fold s5 H5).
    destruct (Scanner_analyze_stats (validCount acc0)
                (Scanner.set_stats
                   (if 0 <? validCount acc0 then minDist acc0 else of_int 0)
                   (if 0 <? validCount acc0 then maxDist acc0 else of_int 0)
                   (variance_of acc0)
                   (snd (sweep_on Scanner.set_terrain s5 0 acc0 g))))
      as (-> & -> & _).
    split; reflexivity.
Qed.

Lemma zero_valid_extremes_witness :
  Mega.terrainMin (Mega.readTerrainArray_on silent6 Mega.initial) = of_int 9999
  /\ Mega.terrainMax (Mega.readTerrainArray_on silent6 Mega.initial) = of_int 0
  /\ Scanner.terrainMin (Scanner.readTerrainArray_on silent5 Scanner.initial)
     = of_int 0
  /\ Scanner.terrainMax (Scanner.readTerrainArray_on silent5 Scanner.initial)
     = of_int 0.
Proof.
  destruct (zero_valid_extremes silent5 silent6 eq_refl eq_refl) as [Hm Hs].
  destruct (Hm Mega.initial) as (H1 & H2 & _).
  destruct (Hs Scanner.initial) as (H3 & H4).
  repeat split; assumption.
Defined.

(** ** C2: readings of 10 cm and 70 cm *)

Lemma negative_count_le (s : list float) :
  Z.of_nat (List.length (filter (fun d => lt d (of_int 0)) s)) <= count_invalid s.
Proof.
  induction s as [ | d s IH].
  - reflexivity.
  - rewrite count_invalid_cons. simpl filter.
    destruct (valid d) eqn:Hv.
    + rewrite (valid_not_negative d Hv). lia.
    + destruct (lt d (of_int 0)); simpl List.length; lia.
Qed.

Lemma accumulate_10 (a : acc) (b10 b70 : bool) :
  (minDist a, maxDist a) = extremes_10_70 b10 b70 ->
  (minDist (accumulate a (cm 10)), maxDist (accumulate a (cm 10)))
  = extremes_10_70 true b70.
Proof.
  destruct a as [su sq vc mn mx]. cbn [minDist maxDist].
  destruct b10, b70; intros [= -> ->]; vm_compute; reflexivity.
Qed.

Lemma accumulate_70 (a : acc) (b10 b70 : bool) :
  (minDist a, maxDist a) = extremes_10_70 b10 b70 ->
  (minDist (accumulate a (cm 70)), maxDist (accumulate a (cm 70)))
  = extremes_10_70 b10 true.
Proof.
  destruct a as [su sq vc mn mx]. cbn [minDist maxDist].
  destruct b10, b70; intros [= -> ->]; vm_compute; reflexivity.
Qed.

Lemma fold_10_70 (s : list float) :
  forall (a : acc) (b10 b70 : bool),
    (minDist a, maxDist a) = extremes_10_70 b10 b70 ->
    (forall d, In d s -> valid d = true -> d = cm 10 \/ d = cm 70) ->
    exists c10 c70,
      (minDist (fold_left accumulate s a), maxDist (fold_left accumulate s a))
      = extremes_10_70 c10 c70
      /\ (b10 = true \/ In (cm 10) s -> c10 = true)
      /\ (b70 = true \/ In (cm 70) s -> c70 = true).
Proof.
  induction s as [ | d s IH]; intros a b10 b70 Ha Hs.
  - exists b10, b70. simpl. repeat split; [ assumption | | ]; intros [ | []]; assumption.
  - simpl fold_left.
    assert (Hs' : forall d', In d' s -> valid d' = true -> d' = cm 10 \/ d' = cm 70)
      by (intros d' Hin; apply Hs; now right).
    destruct (valid d) eqn:Hv.
    + destruct (Hs d (or_introl eq_refl) Hv) as [-> | ->].
      * destruct (IH _ true b70 (accumulate_10 a b10 b70 Ha) Hs')
          as (c10 & c70 & He & H10 & H70).
        exists c10, c70. repeat split; [ assumption | auto | ].
        intros [Hb | [Hd | Hin]]; [ auto | discriminate Hd | auto ].
      * destruct (IH _ b10 true (accumulate_70 a b10 b70 Ha) Hs')
          as (c10 & c70 & He & H10 & H70).
        exists c10, c70. repeat split; [ assumption | | auto ].
        intros [Hb | [Hd | Hin]]; [ auto | discriminate Hd | auto ].
    + rewrite (accumulate_invalid a d Hv).
      destruct (IH a b10 b70 Ha Hs') as (c10 & c70 & He & H10 & H70).
      exists c10, c70. repeat split; [ assumption | | ].
      * intros [Hb | [Hd | Hin]]; [ auto | | auto ].
        subst d. discriminate Hv.
      * intros [Hb | [Hd | Hin]]; [ auto | | auto ].
        subst d. discriminate Hv.
Qed.

Lemma extremes_of_10_70 (s : list float) :
  valid_10_70 s ->
  minDist (fold_left accumulate s acc0) = cm 10
  /\ maxDist (fold_left accumulate s acc0) = cm 70.
Proof.
  intros (H10 & H70 & Hs).
  destruct (fold_10_70 s acc0 false false eq_refl Hs) as (c10 & c70 & He & I10 & I70).
  rewrite (I10 (or_intror H10)), (I70 (or_intror H70)) in He.
  now inversion He.
Qed.

(** C2 as stated fails: readings of 10 cm and 70 cm next to three lost
    channels are classified NO_GROUND, not HAZARD, by both sketches. *)
Lemma cliff_lost3_no_ground :
  List.length cliff5_lost3 = 5%nat
  /\ valid_10_70 cliff5_lost3
  /\ classification_of
       (Scanner.terrainStatus
          (Scanner.readTerrainArray_on cliff5_lost3 Scanner.initial))
     = Some NO_GROUND
  /\ List.length cliff6_lost4 = 6%nat
  /\ valid_10_70 cliff6_lost4
  /\ classification_of
       (Mega.terrainStatus (Mega.readTerrainArray_on cliff6_lost4 Mega.initial))
     = Some NO_GROUND
  /\ Some NO_GROUND <> Some HAZARD.
Proof.
  assert (V5 : valid_10_70 cliff5_lost3).
  { repeat split; [ simpl; auto | simpl; auto | ].
    intros d Hin Hv. simpl in Hin.
    destruct Hin as [<- | [<- | [<- | [<- | [<- | []]]]]]; auto; discriminate Hv. }
  assert (V6 : valid_10_70 cliff6_lost4).
  { repeat split; [ simpl; auto | simpl; auto | ].
    intros d Hin Hv. simpl in Hin.
    destruct Hin as [<- | [<- | [<- | [<- | [<- | [<- | []]]]]]]; auto;
      discriminate Hv. }
  repeat split; try reflexivity; try apply V5; try apply V6.
  discriminate.
Qed.

(** C2, amended.  A sweep whose valid samples are exactly 10 cm and
    70 cm, and in which fewer than three samples are invalid, is
    classified HAZARD by both sketches. *)
Theorem cliff_hazard (s5 s6 : list float)
        (H5 : List.length s5 = 5%nat) (H6 : List.length s6 = 6%nat)
        (V5 : valid_10_70 s5) (V6 : valid_10_70 s6)
        (I5 : count_invalid s5 < 3) (I6 : count_invalid s6 < 3) :
  (forall g,
      classification_of
        (Scanner.terrainStatus (Scanner.readTerrainArray_on s5 g)) = Some HAZARD)
  /\ (forall t,
         classification_of
           (Mega.terrainStatus (Mega.readTerrainArray_on s6 t)) = Some HAZARD).
Proof.
  split.
  - intros g. rewrite Scanner_on_eq. unfold Scanner.finish.
    rewrite Scanner_analyze_status. simpl Scanner.terrainMin. simpl Scanner.terrainMax.
    destruct (extremes_of_10_70 s5 V5) as [-> ->].
    rewrite fold_validCount. simpl validCount.
    pose proof (count_split s5) as Hc. rewrite H5 in Hc.
    unfold rule_chain, Scanner.NUM_SENSORS.
    destruct (Z.leb_spec 3 (5 - (0 + count_valid s5))); [ lia | ].
    destruct (Z.ltb_spec 0 (0 + count_valid s5)); [ | lia ].
    reflexivity.
  - intros t. rewrite Mega_on_eq. unfold Mega.finish.
    rewrite Mega_analyze_status. cbv zeta. simpl Mega.terrain.
    simpl Mega.terrainMin. simpl Mega.terrainMax.
    rewrite (Mega_out_of_range s6 acc0 t H6).
    destruct (extremes_of_10_70 s6 V6) as [-> ->].
    pose proof (negative_count_le s6) as Hle.
    destruct (Z.leb_spec 3
                (Z.of_nat (List.length (filter (fun d => lt d (of_int 0)) s6))));
      [ lia | reflexivity ].
Qed.

Lemma cliff_hazard_witness :
  classification_of
    (Scanner.terrainStatus (Scanner.readTerrainArray_on cliff5 Scanner.initial))
  = Some HAZARD
  /\ classification_of
       (Mega.terrainStatus (Mega.readTerrainArray_on cliff6 Mega.initial))
     = Some HAZARD.
Proof.
  assert (V5 : valid_10_70 cliff5).
  { repeat split; [ simpl; auto | simpl; auto | ].
    intros d Hin Hv. simpl in Hin.
    destruct Hin as [<- | [<- | [<- | [<- | [<- | []]]]]]; auto; discriminate Hv. }
  assert (V6 : valid_10_70 cliff6).
  { repeat split; [ simpl; auto | simpl; auto | ].
    intros d Hin Hv. simpl in Hin.
    destruct Hin as [<- | [<- | [<- | [<- | [<- | [<- | []]]]]]]; auto;
      discriminate Hv. }
  destruct (cliff_hazard cliff5 cliff6 eq_refl eq_refl V5 V6) as [Hs Hm].
  - vm_compute. reflexivity.
  - vm_compute. reflexivity.
  - split; [ exact (Hs Scanner.initial) | exact (Hm Mega.initial) ].
Defined.

(** ** C4: one channel *)

Lemma readSingle_echo (trig pin : Z) (w : hardware) :
  echo (snd (readSingleUltrasonic trig pin w)) = echo w.
Proof.
  unfold readSingleUltrasonic, bind, digitalWrite, delayMicroseconds, pulseIn,
    modify.
  cbv beta iota zeta.
  destruct (to_long _ =? 0); reflexivity.
Qed.

Lemma sentinel_skipped (s1 s2 : list float) (a : acc) :
  fold_left accumulate (s1 ++ NO_ECHO :: s2) a
  = fold_left accumulate (s1 ++ s2) a.
Proof.
  rewrite !fold_left_app. simpl fold_left. now rewrite accumulate_sentinel.
Qed.

Lemma Scanner_stats_of (s : list float) (g : Scanner.globals) :
  let a := fold_left accumulate s acc0 in
  Scanner.terrainMin (Scanner.readTerrainArray_on s g)
  = (if 0 <? validCount a then minDist a else of_int 0)
  /\ Scanner.terrainMax (Scanner.readTerrainArray_on s g)
     = (if 0 <? validCount a then maxDist a else of_int 0)
  /\ Scanner.terrainVariance (Scanner.readTerrainArray_on s g) = variance_of a.
Proof.
  intros a. rewrite Scanner_on_eq. unfold Scanner.finish. fold a.
  destruct (Scanner_analyze_stats (validCount a)
              (Scanner.set_stats
                 (if 0 <? validCount a then minDist a else of_int 0)
                 (if 0 <? validCount a then maxDist a else of_int 0)
                 (variance_of a)
                 (snd (sweep_on Scanner.set_terrain s 0 acc0 g))))
    as (-> & -> & ->).
  repeat split.
Qed.

Lemma Mega_stats_of (s : list float) (t : Mega.SensorData) :
  let a := fold_left accumulate s acc0 in
  Mega.terrainMin (Mega.readTerrainArray_on s t) = minDist a
  /\ Mega.terrainMax (Mega.readTerrainArray_on s t) = maxDist a
  /\ Mega.terrainVariance (Mega.readTerrainArray_on s t) = variance_of a.
Proof.
  intros a. rewrite Mega_on_eq. unfold Mega.finish. fold a.
  destruct (Mega_analyze_stats
              (Mega.set_stats (minDist a) (maxDist a) (variance_of a)
                 (snd (sweep_on Mega.set_terrain s 0 acc0 t))))
    as (-> & -> & -> & _).
  repeat split.
Qed.

(** C4.  One channel measurement ends with a [pulseIn] on the channel's
    echo pin with a timeout of 30000 microseconds.  When the duration it
    returns is 0 the sample is the sentinel [-1]; otherwise it is
    [duration * 0.0343 / 2.0].  The sentinel is not a valid sample: it
    leaves sum, sum of squares, count, minimum and maximum as they were,
    so the statistics either sketch reports for a sweep are those of the
    sweep without it. *)
Theorem echo_timeout_sentinel (trig pin : Z) (w : hardware) :
  (exists width,
      last_event (snd (readSingleUltrasonic trig pin w))
      = Some (PulseIn pin HIGH 30000 width)
      /\ (to_long width = 0 ->
          fst (readSingleUltrasonic trig pin w) = of_int (-1))
      /\ (to_long width <> 0 ->
          fst (readSingleUltrasonic trig pin w)
          = div (mul (of_int (to_long width)) lit_0_0343) lit_2_0))
  /\ valid (of_int (-1)) = false
  /\ (forall a, accumulate a (of_int (-1)) = a)
  /\ (forall s1 s2,
         count_valid (s1 ++ of_int (-1) :: s2) = count_valid (s1 ++ s2)
         /\ (forall g,
                let g1 := Scanner.readTerrainArray_on (s1 ++ of_int (-1) :: s2) g in
                let g2 := Scanner.readTerrainArray_on (s1 ++ s2) g in
                Scanner.terrainMin g1 = Scanner.terrainMin g2
                /\ Scanner.terrainMax g1 = Scanner.terrainMax g2
                /\ Scanner.terrainVariance g1 = Scanner.terrainVariance g2)
         /\ (forall t,
                let t1 := Mega.readTerrainArray_on (s1 ++ of_int (-1) :: s2) t in
                let t2 := Mega.readTerrainArray_on (s1 ++ s2) t in
                Mega.terrainMin t1 = Mega.terrainMin t2
                /\ Mega.terrainMax t1 = Mega.terrainMax t2
                /\ Mega.terrainVariance t1 = Mega.terrainVariance t2)).
Proof.
  change (of_int (-1)) with NO_ECHO.
  split; [ | split; [ reflexivity | split; [ apply accumulate_sentinel | ] ] ].
  - unfold readSingleUltrasonic, bind, digitalWrite, delayMicroseconds, pulseIn,
      modify.
    cbv beta iota zeta.
    match goal with
    | |- context [to_long ?u =? 0] => exists u; set (width := u)
    end.
    destruct (Z.eqb_spec (to_long width) 0) as [Hz | Hz].
    + split; [ | split; [ reflexivity | intros Hn; now elim Hn ] ].
      unfold last_event, ret, emit. cbn [snd log].
      rewrite rev_app_distr. reflexivity.
    + split; [ | split; [ intros Hn; now elim Hz | reflexivity ] ].
      unfold last_event, ret, emit. cbn [snd log].
      rewrite rev_app_distr. reflexivity.
  - intros s1 s2. split; [ | split ].
    + unfold count_valid. rewrite !valid_samples_app. reflexivity.
    + intros g g1 g2. subst g1 g2.
      destruct (Scanner_stats_of (s1 ++ NO_ECHO :: s2) g) as (-> & -> & ->).
      destruct (Scanner_stats_of (s1 ++ s2) g) as (-> & -> & ->).
      rewrite sentinel_skipped. repeat split.
    + intros t t1 t2. subst t1 t2.
      destruct (Mega_stats_of (s1 ++ NO_ECHO :: s2) t) as (-> & -> & ->).
      destruct (Mega_stats_of (s1 ++ s2) t) as (-> & -> & ->).
      rewrite sentinel_skipped. repeat split.
Qed.

Lemma echo_timeout_sentinel_witness :
  fst (readSingleUltrasonic Scanner.TRIG_PIN Scanner.ECHO_PIN_0 (steady 0 30000))
  = of_int (-1)
  /\ fst (readSingleUltrasonic Mega.TRIG_PIN Mega.ECHO_PIN_5 (steady 583 600))
     = div (mul (of_int 583) lit_0_0343) lit_2_0.
Proof.
  split.
  - destruct (echo_timeout_sentinel Scanner.TRIG_PIN Scanner.ECHO_PIN_0
                (steady 0 30000)) as [(width & Hlast & Hz & _) _].
    apply Hz. injection Hlast as <-. reflexivity.
  - destruct (echo_timeout_sentinel Mega.TRIG_PIN Mega.ECHO_PIN_5
                (steady 583 600)) as [(width & Hlast & _ & Hnz) _].
    injection Hlast as <-. apply Hnz. discriminate.
Defined.

(** ** Positive floats

    Rounding in binary32 never turns a positive quantity that is not
    below the smallest subnormal into zero.  The lemmas follow the
    magnitude [log2 m + e] of a float through the rounding of
    [SpecFloat]. *)

Lemma digits2_size (p : positive) : digits2_pos p = Pos.size p.
Proof. induction p; simpl; congruence. Qed.

Lemma digits_log2 (p : positive) : Zpos (digits2_pos p) = Z.log2 (Zpos p) + 1.
Proof.
  rewrite digits2_size. destruct p; simpl; lia.
Qed.

Lemma shr_1_m (r : shr_record) :
  0 <= shr_m r -> shr_m (shr_1 r) = shr_m r / 2.
Proof.
  destruct r as [m b s]. simpl. intros Hm.
  destruct m as [ | p | p]; [ reflexivity | | lia ].
  destruct p; simpl shr_m.
  - rewrite Pos2Z.inj_xI. apply Z.div_unique with 1; lia.
  - rewrite Pos2Z.inj_xO. apply Z.div_unique with 0; lia.
  - reflexivity.
Qed.

Lemma iter_shr_m (p : positive) :
  forall r, 0 <= shr_m r ->
    shr_m (SpecFloat.iter_pos shr_1 p r) = shr_m r / 2 ^ Zpos p.
Proof.
  induction p as [p IH | p IH | ]; intros r Hr.
  - cbn [SpecFloat.iter_pos].
    assert (H1 : 0 <= shr_m (shr_1 r)) by (rewrite shr_1_m by assumption; apply Z.div_pos; lia).
    assert (H2 : 0 <= shr_m (SpecFloat.iter_pos shr_1 p (shr_1 r))) by (rewrite IH by assumption; apply Z.div_pos; lia).
    rewrite IH, IH, shr_1_m by assumption.
    rewrite !Z.div_div by lia. f_equal.
    replace (Z.pos p~1) with (1 + Z.pos p + Z.pos p) by lia.
    rewrite !Z.pow_add_r by lia. change (2 ^ 1) with 2. ring.
  - cbn [SpecFloat.iter_pos].
    assert (H2 : 0 <= shr_m (SpecFloat.iter_pos shr_1 p r)) by (rewrite IH by assumption; apply Z.div_pos; lia).
    rewrite IH, IH by assumption.
    rewrite !Z.div_div by lia. f_equal.
    replace (Z.pos p~0) with (Z.pos p + Z.pos p) by lia.
    rewrite !Z.pow_add_r by lia. ring.
  - cbn [SpecFloat.iter_pos]. rewrite shr_1_m by assumption. reflexivity.
Qed.

Lemma shr_magnitude (m e : Z) (l : location) :
  0 < m -> emin prec emax <= Z.log2 m + e ->
  let '(r, e') := shr_fexp prec emax m e l in
  0 < shr_m r /\ Z.log2 (shr_m r) + e' = Z.log2 m + e.
Proof.
  intros Hm Hmag. unfold shr_fexp, shr.
  assert (Hloc : shr_m (shr_record_of_loc m l) = m)
    by (destruct l as [ | [ | | ]]; reflexivity).
  destruct (fexp prec emax (Zdigits2 m + e) - e) as [ | p | p] eqn:Hn.
  - now rewrite Hloc.
  - rewrite iter_shr_m by (rewrite Hloc; lia). rewrite Hloc.
    assert (Hp : Z.pos p <= Z.log2 m).
    { destruct m as [ | q | q]; try lia.
      unfold fexp, emin, prec, emax in *. cbn [Zdigits2] in Hn.
      rewrite digits_log2 in Hn. lia. }
    rewrite <- Z.shiftr_div_pow2 by lia.
    assert (Hl : Z.log2 (Z.shiftr m (Z.pos p)) = Z.log2 m - Z.pos p).
    { rewrite Z.log2_shiftr by assumption. lia. }
    split; [ | lia ].
    rewrite Z.shiftr_div_pow2 by lia.
    apply Z.div_str_pos. split; [ lia | ].
    apply Z.le_trans with (2 ^ Z.log2 m).
    + apply Z.pow_le_mono_r; lia.
    + apply Z.log2_spec. assumption.
  - now rewrite Hloc.
Qed.

Lemma round_magnitude (m : Z) (l : location) :
  0 < m ->
  0 < round_nearest_even m l /\ Z.log2 m <= Z.log2 (round_nearest_even m l).
Proof.
  intros Hm. unfold round_nearest_even.
  destruct l as [ | [ | | ]]; try (split; [ lia | apply Z.le_refl ]).
  - destruct (Z.even m); split; try lia; try apply Z.le_refl.
    apply Z.log2_le_mono. lia.
  - split; [ lia | apply Z.log2_le_mono; lia ].
Qed.

(** Rounding a positive mantissa that is not below the smallest
    subnormal gives a positive float whose magnitude did not shrink. *)
Lemma round_aux_positive (m : positive) (e : Z) (l : location) :
  emin prec emax <= Z.log2 (Zpos m) + e ->
  binary_round_aux prec emax false (Zpos m) e l = S754_infinity false
  \/ exists m' e',
      binary_round_aux prec emax false (Zpos m) e l = S754_finite false m' e'
      /\ Z.log2 (Zpos m) + e <= Z.log2 (Zpos m') + e'.
Proof.
  intros Hmag. unfold binary_round_aux.
  pose proof (shr_magnitude (Zpos m) e l eq_refl Hmag) as H1.
  destruct (shr_fexp prec emax (Z.pos m) e l) as [r1 e1].
  destruct H1 as [Hpos1 Hmag1].
  pose proof (round_magnitude (shr_m r1) (loc_of_shr_record r1) Hpos1) as [Hpos Hlog].
  set (m1 := round_nearest_even (shr_m r1) (loc_of_shr_record r1)) in *.
  assert (Hmag1' : emin prec emax <= Z.log2 m1 + e1) by lia.
  pose proof (shr_magnitude m1 e1 loc_Exact Hpos Hmag1') as H2.
  destruct (shr_fexp prec emax m1 e1 loc_Exact) as [r2 e2].
  destruct H2 as [Hpos2 Hmag2].
  destruct (shr_m r2) as [ | m2 | m2]; try lia.
  destruct (e2 <=? emax - prec); [ right | now left ].
  exists m2, e2. split; [ reflexivity | lia ].
Qed.

Lemma iter_xO_log2 (m k : positive) :
  Z.log2 (Zpos (Pos.iter xO m k)) = Z.log2 (Zpos m) + Zpos k.
Proof.
  induction k as [ | k IH] using Pos.peano_ind.
  - cbn [Pos.iter]. change (Z.pos m~0) with (2 * Z.pos m).
    rewrite Z.log2_double by lia. lia.
  - rewrite Pos.iter_succ. change (Z.pos (Pos.iter xO m k)~0) with (2 * Z.pos (Pos.iter xO m k)).
    rewrite Z.log2_double by lia. lia.
Qed.

Lemma shl_align_magnitude (m : positive) (e e' : Z) :
  Z.log2 (Zpos (fst (shl_align m e e'))) + snd (shl_align m e e')
  = Z.log2 (Zpos m) + e.
Proof.
  unfold shl_align. destruct (e' - e) as [ | k | k] eqn:Hk; cbn [fst snd]; try reflexivity.
  rewrite iter_xO_log2. lia.
Qed.

Lemma of_int_positive (d : Z) :
  1 <= d -> positive_float 0 (of_int d).
Proof.
  intros Hd. destruct d as [ | p | p]; try lia.
  unfold of_int, binary_normalize, binary_round.
  pose proof (shl_align_magnitude p 0 (fexp prec emax (Z.pos (digits2_pos p) + 0))) as Hs.
  destruct (shl_align p 0 (fexp prec emax (Z.pos (digits2_pos p) + 0))) as [mz ez].
  cbn [fst snd] in Hs.
  pose proof (Z.log2_nonneg (Zpos p)) as Hp.
  destruct (round_aux_positive mz ez loc_Exact) as [Hinf | (m' & e' & Heq & Hmag)].
  - unfold emin, prec, emax. lia.
  - now left.
  - right. exists m', e'. split; [ assumption | lia ].
Qed.

Lemma mul_positive (lx ly : Z) (x y : float) :
  positive_float lx x -> positive_float ly y ->
  emin prec emax <= lx + ly ->
  positive_float (lx + ly) (mul x y).
Proof.
  intros [-> | (mx & ex & -> & Hx)] [-> | (my & ey & -> & Hy)] Hlo;
    try (now left).
  unfold mul. cbn [SFmul xorb].
  assert (Hm : Z.log2 (Zpos mx) + Z.log2 (Zpos my) <= Z.log2 (Zpos (mx * my))).
  { rewrite Pos2Z.inj_mul. apply Z.log2_mul_below; lia. }
  destruct (round_aux_positive (mx * my) (ex + ey) loc_Exact)
    as [Hinf | (m' & e' & Heq & Hmag)].
  - lia.
  - now left.
  - right. exists m', e'. split; [ assumption | lia ].
Qed.

Lemma halve_positive (lx : Z) (x : float) :
  positive_float lx x -> -100 <= lx ->
  positive_float (lx - 1) (div x lit_2_0).
Proof.
  intros [-> | (mx & ex & -> & Hx)] Hlo; [ now left | ].
  unfold div, lit_2_0. cbn [SFdiv xorb]. unfold SFdiv_core_binary.
  change IntDef.Z.min with Z.min. change IntDef.Z.shiftl with Z.shiftl.
  change IntDef.Z.div_eucl with Z.div_eucl.
  set (d1 := Zdigits2 (Z.pos mx)).
  assert (Hd1 : d1 = Z.log2 (Zpos mx) + 1) by apply digits_log2.
  change (Zdigits2 8388608) with 24.
  set (e' := Z.min (fexp prec emax (d1 + ex - (24 + -22))) (ex - -22)).
  assert (He' : e' = Z.min (d1 + ex - 26) (ex + 22)).
  { unfold e', fexp, emin, prec, emax. lia. }
  set (s := ex - -22 - e').
  assert (Hs : 0 <= s) by (unfold s; lia).
  assert (Hs2 : 24 - d1 <= s) by (unfold s; lia).
  set (m' := match s with Z.pos _ => Z.shiftl (Z.pos mx) s | 0 => Z.pos mx | Z.neg _ => 0 end).
  assert (Hm' : m' = Z.shiftl (Zpos mx) s).
  { unfold m'. destruct s; try lia; reflexivity. }
  destruct (Z.div_eucl m' 8388608) as [q r] eqn:Hdiv.
  assert (Hq : q = Z.shiftr m' 23).
  { rewrite Z.shiftr_div_pow2 by lia. change (2 ^ 23) with 8388608.
    unfold Z.div. now rewrite Hdiv. }
  assert (Hlm : Z.log2 m' = Z.log2 (Zpos mx) + s).
  { rewrite Hm'. apply Z.log2_shiftl; lia. }
  assert (Hm'pos : 0 < m').
  { rewrite Hm', Z.shiftl_mul_pow2 by lia. apply Z.mul_pos_pos; [ lia | ].
    apply Z.pow_pos_nonneg; lia. }
  assert (Hlq : Z.log2 q = Z.log2 m' - 23).
  { rewrite Hq, Z.log2_shiftr by assumption. lia. }
  assert (Hqpos : 0 < q).
  { rewrite Hq, Z.shiftr_div_pow2 by lia. apply Z.div_str_pos. split; [ lia | ].
    apply Z.le_trans with (2 ^ Z.log2 m').
    - apply Z.pow_le_mono_r; lia.
    - now apply Z.log2_spec. }
  destruct q as [ | pq | pq]; try lia.
  destruct (round_aux_positive pq e' (new_location 8388608 r))
    as [Hinf | (m2 & e2 & Heq & Hmag)].
  - unfold emin, prec, emax. unfold s in *. lia.
  - now left.
  - right. exists m2, e2. split; [ assumption | unfold s in *; lia ].
Qed.

Lemma positive_float_valid (lo : Z) (x : float) :
  positive_float lo x -> valid x = true.
Proof. intros [-> | (m & e & -> & _)]; reflexivity. Qed.

(** Every echo width of at least one microsecond converts to a positive
    distance. *)
Lemma to_cm_valid (d : Z) : 1 <= d -> valid (to_cm d) = true.
Proof.
  intros Hd. unfold to_cm.
  apply (positive_float_valid (0 + -5 - 1)).
  apply halve_positive; [ | lia ].
  apply mul_positive.
  - now apply of_int_positive.
  - right. exists 9207336%positive, (-28). split; [ reflexivity | ].
    change (Z.log2 9207336) with 23. lia.
  - unfold emin, prec, emax. lia.
Qed.

(** ** C9: NO_DATA cannot be reached *)

Lemma readSingle_producible (trig pin : Z) (w : hardware) :
  echo_bounded w ->
  producible (fst (readSingleUltrasonic trig pin w)) = true.
Proof.
  intros Hb.
  unfold readSingleUltrasonic, bind, digitalWrite, delayMicroseconds, pulseIn,
    modify.
  cbv beta iota zeta. cbn [emit echo now].
  match goal with
  | |- context [echo w ?p ?t] =>
      pose proof (Hb p t) as Hw; set (u := pulse_width (echo w p t)) in *
  end.
  unfold LONG_MAX in Hw.
  assert (Hl : to_long (u mod 2 ^ 32) = u).
  { unfold to_long. rewrite Zmod_mod. rewrite Z.mod_small by lia.
    destruct (Z.ltb_spec u (2 ^ 31)); lia. }
  rewrite Hl.
  destruct (Z.eqb_spec u 0) as [Hz | Hz]; cbn [fst ret].
  - reflexivity.
  - unfold producible. destruct (float_eq_dec (to_cm u) NO_ECHO); [ reflexivity | ].
    apply to_cm_valid. lia.
Qed.

Lemma emit_bounded (dt : Z) (e : event) (w : hardware) :
  echo_bounded w -> echo_bounded (emit dt e w).
Proof. intros H. exact H. Qed.

Lemma readings_producible (trig : Z) (pins : list Z) (n i : nat) (w : hardware) :
  echo_bounded w -> forallb producible (readings trig pins n i w) = true.
Proof.
  revert i w. induction n as [ | n IH]; intros i w Hb; [ reflexivity | ].
  cbn [readings].
  pose proof (readSingle_producible trig (nth i pins 0) w Hb) as Hp.
  pose proof (readSingle_echo trig (nth i pins 0) w) as He.
  destruct (readSingleUltrasonic trig (nth i pins 0) w) as [dist w1].
  cbn [fst snd] in Hp, He. cbn [forallb]. rewrite Hp. cbn [andb].
  apply IH. unfold exec, delay, modify. cbn [snd].
  apply emit_bounded. unfold echo_bounded. now rewrite He.
Qed.

Lemma Scanner_never_no_data (s : list float) (g : Scanner.globals) :
  classification_of (Scanner.terrainStatus (Scanner.readTerrainArray_on s g))
  <> Some NO_DATA.
Proof.
  rewrite Scanner_on_eq. unfold Scanner.finish.
  rewrite Scanner_analyze_status. unfold rule_chain, Scanner.NUM_SENSORS.
  destruct (Z.leb_spec 3 (5 - validCount (fold_left accumulate s acc0)));
    [ discriminate | ].
  destruct (gt _ (of_int 50)); [ discriminate | ].
  destruct (gt _ (of_int 20)); [ discriminate | ].
  destruct (Z.ltb_spec 0 (validCount (fold_left accumulate s acc0)));
    [ discriminate | lia ].
Qed.

Lemma Mega_never_no_data (s : list float) (t : Mega.SensorData) :
  classification_of (Mega.terrainStatus (Mega.readTerrainArray_on s t))
  <> Some NO_DATA.
Proof.
  rewrite Mega_on_eq. unfold Mega.finish.
  rewrite Mega_analyze_status. cbv zeta.
  destruct (3 <=? _); [ discriminate | ].
  destruct (gt _ (of_int 50)); [ discriminate | ].
  destruct (gt _ (of_int 20)); discriminate.
Qed.

Lemma Scanner_no_valid (s : list float) (g : Scanner.globals) :
  count_valid s = 0 ->
  classification_of (Scanner.terrainStatus (Scanner.readTerrainArray_on s g))
  = Some NO_GROUND.
Proof.
  intros H. rewrite Scanner_on_eq. unfold Scanner.finish.
  rewrite Scanner_analyze_status, (no_valid_fold s H). reflexivity.
Qed.

Lemma Mega_no_valid (s : list float) (t : Mega.SensorData) :
  List.length s = 6%nat -> forallb producible s = true -> count_valid s = 0 ->
  classification_of (Mega.terrainStatus (Mega.readTerrainArray_on s t))
  = Some NO_GROUND.
Proof.
  intros Hlen Hp H. rewrite Mega_on_eq. unfold Mega.finish.
  rewrite Mega_analyze_status. cbv zeta. simpl Mega.terrain.
  rewrite (Mega_out_of_range s _ t Hlen), (negative_count_producible s Hp).
  pose proof (count_split s) as Hc. rewrite Hlen, H in Hc.
  destruct (Z.leb_spec 3 (count_invalid s)); [ reflexivity | lia ].
Qed.

(** C9.  With the echo widths [pulseIn] can report, every sample the
    driver returns is the sentinel [-1] or strictly positive.  A sweep of
    such samples without any valid one has N (5 or 6) invalid samples and
    is classified NO_GROUND, and no sweep the sketches run is classified
    NO_DATA.  The 5-sensor sketch never answers NO_DATA whatever the
    readings, and the 6-sensor sketch has no such answer at all. *)
Theorem no_data_unreachable
        (ms : machine Scanner.globals) (mm : machine Mega.SensorData)
        (Bs : echo_bounded (hw ms)) (Bm : echo_bounded (hw mm)) :
  let s5 := readings Scanner.TRIG_PIN Scanner.echoPins 5 0 (hw ms) in
  let s6 := readings Mega.TRIG_PIN Mega.echoPins 6 0 (hw mm) in
  let status5 := Scanner.terrainStatus (mem (exec Scanner.readTerrainArray ms)) in
  let status6 := Mega.terrainStatus (mem (exec Mega.readTerrainArray mm)) in
  (forall pin,
      let d := fst (readSingleUltrasonic Scanner.TRIG_PIN pin (hw ms)) in
      d = of_int (-1) \/ gt d (of_int 0) = true)
  /\ (forall pin,
         let d := fst (readSingleUltrasonic Mega.TRIG_PIN pin (hw mm)) in
         d = of_int (-1) \/ gt d (of_int 0) = true)
  /\ (forall d, In d s5 -> d = of_int (-1) \/ gt d (of_int 0) = true)
  /\ (forall d, In d s6 -> d = of_int (-1) \/ gt d (of_int 0) = true)
  /\ (count_valid s5 = 0 ->
      count_invalid s5 = Scanner.NUM_SENSORS
      /\ classification_of status5 = Some NO_GROUND)
  /\ (count_valid s6 = 0 ->
      count_invalid s6 = Mega.NUM_SENSORS
      /\ classification_of status6 = Some NO_GROUND)
  /\ classification_of status5 <> Some NO_DATA
  /\ classification_of status6 <> Some NO_DATA
  /\ (forall s g,
         classification_of
           (Scanner.terrainStatus (Scanner.readTerrainArray_on s g))
         <> Some NO_DATA)
  /\ (forall t,
         Mega.terrainStatus (Mega.analyzeTerrain t) = "NO GROUND"%string
         \/ Mega.terrainStatus (Mega.analyzeTerrain t) = "HAZARD!"%string
         \/ Mega.terrainStatus (Mega.analyzeTerrain t) = "UNEVEN"%string
         \/ Mega.terrainStatus (Mega.analyzeTerrain t) = "FLAT-SAFE"%string).
Proof.
  intros s5 s6 status5 status6.
  assert (P5 : forallb producible s5 = true) by now apply readings_producible.
  assert (P6 : forallb producible s6 = true) by now apply readings_producible.
  assert (L5 : List.length s5 = 5%nat) by apply readings_length.
  assert (L6 : List.length s6 = 6%nat) by apply readings_length.
  assert (E5 : status5
               = Scanner.terrainStatus (Scanner.readTerrainArray_on s5 (mem ms)))
    by (unfold status5; now rewrite Scanner_run).
  assert (E6 : status6
               = Mega.terrainStatus (Mega.readTerrainArray_on s6 (mem mm)))
    by (unfold status6; now rewrite Mega_run).
  rewrite forallb_forall in P5, P6.
  repeat match goal with |- _ /\ _ => split end.
  - intros pin. apply producible_cases. now apply readSingle_producible.
  - intros pin. apply producible_cases. now apply readSingle_producible.
  - intros d Hd. apply producible_cases. now apply P5.
  - intros d Hd. apply producible_cases. now apply P6.
  - intros H0. split.
    + pose proof (count_split s5) as Hc. rewrite L5, H0 in Hc.
      unfold Scanner.NUM_SENSORS. lia.
    + rewrite E5. now apply Scanner_no_valid.
  - intros H0. split.
    + pose proof (count_split s6) as Hc. rewrite L6, H0 in Hc.
      unfold Mega.NUM_SENSORS. lia.
    + rewrite E6. apply Mega_no_valid; try assumption.
      now apply forallb_forall.
  - rewrite E5. apply Scanner_never_no_data.
  - rewrite E6. apply Mega_never_no_data.
  - apply Scanner_never_no_data.
  - intros t. unfold Mega.analyzeTerrain. cbv zeta.
    destruct (3 <=? _); [ now left | ].
    destruct (gt _ (of_int 50)); [ now right; left | ].
    destruct (gt _ (of_int 20)); [ now right; right; left | now right; right; right ].
Qed.

Lemma no_data_unreachable_witness :
  classification_of
    (Scanner.terrainStatus
       (mem (exec Scanner.readTerrainArray
               {| hw := steady 0 30000; mem := Scanner.initial |})))
  = Some NO_GROUND
  /\ classification_of
       (Mega.terrainStatus
          (mem (exec Mega.readTerrainArray
                  {| hw := steady 583 600; mem := Mega.initial |})))
     <> Some NO_DATA.
Proof.
  assert (B0 : echo_bounded (steady 0 30000)).
  { intros pin t. unfold LONG_MAX. simpl. lia. }
  assert (B1 : echo_bounded (steady 583 600)).
  { intros pin t. unfold LONG_MAX. simpl. lia. }
  destruct (no_data_unreachable
              {| hw := steady 0 30000; mem := Scanner.initial |}
              {| hw := steady 583 600; mem := Mega.initial |} B0 B1)
    as (_ & _ & _ & _ & H5 & _ & _ & H6 & _).
  split; [ | exact H6 ].
  apply H5. reflexivity.
Defined.

(** ** C8: one channel after the other *)

Lemma trigger_times_app (trig : Z) (l1 l2 : list stamped) :
  trigger_times trig (l1 ++ l2) = trigger_times trig l1 ++ trigger_times trig l2.
Proof. unfold trigger_times. now rewrite filter_app, map_app. Qed.

Lemma measure_ends_app (l1 l2 : list stamped) :
  measure_ends (l1 ++ l2) = measure_ends l1 ++ measure_ends l2.
Proof. unfold measure_ends. now rewrite filter_app, map_app. Qed.

Lemma measure_starts_app (l1 l2 : list stamped) :
  measure_starts (l1 ++ l2) = measure_starts l1 ++ measure_starts l2.
Proof. unfold measure_starts. now rewrite filter_app, map_app. Qed.

Lemma measured_pins_app (l1 l2 : list stamped) :
  measured_pins (l1 ++ l2) = measured_pins l1 ++ measured_pins l2.
Proof. unfold measured_pins. now rewrite filter_app, map_app. Qed.

(** One pass of the loop body on the hardware: trigger pulse at [now + 2],
    one measurement, then the settling delay. *)
Lemma channel_window (trig pin : Z) (w : hardware) :
  exists evs t_done,
    log (exec (delay SETTLE_MS) (snd (readSingleUltrasonic trig pin w)))
    = log w ++ evs
    /\ measure_ends evs = [t_done]
    /\ now (exec (delay SETTLE_MS) (snd (readSingleUltrasonic trig pin w)))
       = t_done + 1000 * SETTLE_MS
    /\ trigger_times trig evs = [now w + 2]
    /\ measure_starts evs = [now w + 12]
    /\ measured_pins evs = [pin].
Proof.
  unfold readSingleUltrasonic, bind, digitalWrite, delayMicroseconds, pulseIn,
    exec, delay, modify.
  cbv beta iota zeta.
  destruct (to_long _ =? 0).
  - cbn [snd ret emit log now echo]. rewrite <- !app_assoc. cbn [app].
    eexists. eexists. split; [ reflexivity | ].
    unfold trigger_times, measure_ends, measure_starts, measured_pins.
    cbn [filter is_trigger is_measure what map t_start t_end pin_of LOW HIGH].
    rewrite Z.eqb_refl. cbn [map t_start].
    repeat split; f_equal; lia.
  - cbn [snd ret emit log now echo]. rewrite <- !app_assoc. cbn [app].
    eexists. eexists. split; [ reflexivity | ].
    unfold trigger_times, measure_ends, measure_starts, measured_pins.
    cbn [filter is_trigger is_measure what map t_start t_end pin_of LOW HIGH].
    rewrite Z.eqb_refl. cbn [map t_start].
    repeat split; f_equal; lia.
Qed.

Lemma sweep_hw_log (trig : Z) (pins : list Z) (n : nat) :
  forall (i : nat) (w : hardware),
  exists evs,
    log (sweep_hw trig pins n i w) = log w ++ evs
    /\ measured_pins evs = map (fun k => nth k pins 0) (seq i n)
    /\ List.length (trigger_times trig evs) = n
    /\ List.length (measure_ends evs) = n
    /\ settled (measure_ends evs) (trigger_times trig evs)
    /\ triggered (trigger_times trig evs) (measure_starts evs)
    /\ (n <> 0%nat -> hd_error (trigger_times trig evs) = Some (now w + 2)).
Proof.
  induction n as [ | n IH]; intros i w.
  - exists []. rewrite app_nil_r. repeat split; try constructor.
    intros H; now elim H.
  - cbn [sweep_hw].
    destruct (channel_window trig (nth i pins 0) w)
      as (evs1 & t_done & Hlog & Hends & Hnow & Htrig & Hstart & Hpins).
    destruct (readSingleUltrasonic trig (nth i pins 0) w) as [dist w1].
    cbn [snd] in Hlog, Hnow.
    destruct (IH (S i) (exec (delay SETTLE_MS) w1))
      as (evs2 & Hlog2 & Hpins2 & Hlt & Hle & Hset & Htr & Hhd).
    exists (evs1 ++ evs2).
    rewrite trigger_times_app, measure_ends_app, measure_starts_app,
      measured_pins_app, Htrig, Hends, Hstart, Hpins.
    repeat match goal with |- _ /\ _ => split end.
    + now rewrite Hlog2, Hlog, app_assoc.
    + cbn [seq map app]. now rewrite Hpins2.
    + cbn [app List.length]. now rewrite Hlt.
    + cbn [app List.length]. now rewrite Hle.
    + unfold settled in *. cbn [app tl].
      destruct n as [ | n].
      * destruct (measure_ends evs2); [ | discriminate Hle ].
        destruct (trigger_times trig evs2); [ | discriminate Hlt ].
        constructor.
      * specialize (Hhd (Nat.neq_succ_0 n)).
        destruct (measure_ends evs2) as [ | e ends]; [ discriminate Hle | ].
        destruct (trigger_times trig evs2) as [ | t trigs];
          [ discriminate Hhd | ].
        unfold hd_error in Hhd. injection Hhd as ->.
        change (removelast (t_done :: e :: ends))
          with (t_done :: removelast (e :: ends)).
        constructor; [ | exact Hset ].
        assert (Hn : now (exec (delay SETTLE_MS) w1) = now w1 + 1000 * SETTLE_MS)
          by reflexivity.
        unfold SETTLE_MS in *. lia.
    + unfold triggered in *. cbn [app]. constructor; [ lia | exact Htr ].
    + intros _. reflexivity.
Qed.

Lemma Forall2_nth_error {A B} (R : A -> B -> Prop) (l1 : list A) (l2 : list B) :
  Forall2 R l1 l2 ->
  forall k a b, nth_error l1 k = Some a -> nth_error l2 k = Some b -> R a b.
Proof.
  induction 1 as [ | x y l1 l2 Hxy _ IH]; intros k a b Ha Hb.
  - destruct k; discriminate Ha.
  - destruct k as [ | k]; cbn in Ha, Hb.
    + now injection Ha as <-; injection Hb as <-.
    + eapply IH; eassumption.
Qed.

Lemma nth_error_removelast {A} (l : list A) (k : nat) :
  (k < List.length (removelast l))%nat ->
  nth_error (removelast l) k = nth_error l k.
Proof.
  revert k. induction l as [ | x l IH]; intros k Hk.
  - cbn in Hk. lia.
  - destruct l as [ | y l]; [ cbn in Hk; lia | ].
    change (removelast (x :: y :: l)) with (x :: removelast (y :: l)) in *.
    destruct k as [ | k]; [ reflexivity | ].
    cbn [nth_error]. apply IH. cbn [List.length] in Hk. lia.
Qed.

Lemma settled_nth (ends triggers : list Z) :
  settled ends triggers ->
  forall k done next,
    nth_error ends k = Some done ->
    nth_error triggers (S k) = Some next ->
    done + 1000 * SETTLE_MS <= next.
Proof.
  intros Hs k done next Hd Hn.
  assert (Hk : (k < List.length (tl triggers))%nat).
  { apply nth_error_Some. destruct triggers; [ discriminate Hn | ].
    cbn [tl]. cbn [nth_error] in Hn. now rewrite Hn. }
  unfold settled in Hs.
  pose proof (Forall2_length Hs) as Hlen.
  eapply (Forall2_nth_error _ _ _ Hs k).
  - rewrite nth_error_removelast by lia. exact Hd.
  - destruct triggers; [ discriminate Hn | exact Hn ].
Qed.

(** C8.  The events a sweep adds to the log of either sketch: the echo
    pins are measured in the order of [echoPins], once each, every one
    after a trigger pulse of its own; and the trigger pulse of channel
    [k+1] is issued no sooner than 30 ms (30000 microseconds) after the
    measurement of channel [k] returned, by echo or by timeout. *)
Theorem sweep_sequential
        (ms : machine Scanner.globals) (mm : machine Mega.SensorData) :
  (exists evs,
      log (hw (exec Scanner.readTerrainArray ms)) = log (hw ms) ++ evs
      /\ measured_pins evs = Scanner.echoPins
      /\ List.length (trigger_times Scanner.TRIG_PIN evs) = 5%nat
      /\ triggered (trigger_times Scanner.TRIG_PIN evs) (measure_starts evs)
      /\ settled (measure_ends evs) (trigger_times Scanner.TRIG_PIN evs)
      /\ forall k done next,
          nth_error (measure_ends evs) k = Some done ->
          nth_error (trigger_times Scanner.TRIG_PIN evs) (S k) = Some next ->
          done + 30000 <= next)
  /\ (exists evs,
         log (hw (exec Mega.readTerrainArray mm)) = log (hw mm) ++ evs
         /\ measured_pins evs = Mega.echoPins
         /\ List.length (trigger_times Mega.TRIG_PIN evs) = 6%nat
         /\ triggered (trigger_times Mega.TRIG_PIN evs) (measure_starts evs)
         /\ settled (measure_ends evs) (trigger_times Mega.TRIG_PIN evs)
         /\ forall k done next,
             nth_error (measure_ends evs) k = Some done ->
             nth_error (trigger_times Mega.TRIG_PIN evs) (S k) = Some next ->
             done + 30000 <= next).
Proof.
  split.
  - rewrite Scanner_run_hw.
    destruct (sweep_hw_log Scanner.TRIG_PIN Scanner.echoPins 5 0 (hw ms))
      as (evs & Hlog & Hpins & Hlt & _ & Hset & Htr & _).
    exists evs. repeat split; try assumption.
    intros k done next. apply (settled_nth _ _ Hset).
  - rewrite Mega_run_hw.
    destruct (sweep_hw_log Mega.TRIG_PIN Mega.echoPins 6 0 (hw mm))
      as (evs & Hlog & Hpins & Hlt & _ & Hset & Htr & _).
    exists evs. repeat split; try assumption.
    intros k done next. apply (settled_nth _ _ Hset).
Qed.


(* ================================================================== *)
(** * Further properties of the sketches *)
(* ================================================================== *)

(** ** The order of binary32 *)

Lemma compare_cont_spec (m1 m2 : positive) :
  Pos.compare_cont Eq m1 m2 = Pos.compare m1 m2.
Proof. reflexivity. Qed.

Lemma SFcompare_Lt_trans (a b c : float) :
  SFcompare a b = Some Lt -> SFcompare b c = Some Lt -> SFcompare a c = Some Lt.
Proof.
  destruct a as [sa | sa | | sa ma ea], b as [sb | sb | | sb mb eb],
    c as [sc | sc | | sc mc ec];
    try destruct sa; try destruct sb; try destruct sc;
    cbn [SFcompare]; rewrite ?compare_cont_spec; intros H1 H2;
    try discriminate H1; try discriminate H2; try reflexivity;
    rewrite ?compare_cont_spec in *;
    order_cases; simpl in *; try reflexivity; try discriminate; try lia.
Qed.

Lemma SFcompare_Gt_trans (a b c : float) :
  SFcompare a b = Some Gt -> SFcompare b c = Some Gt -> SFcompare a c = Some Gt.
Proof.
  destruct a as [sa | sa | | sa ma ea], b as [sb | sb | | sb mb eb],
    c as [sc | sc | | sc mc ec];
    try destruct sa; try destruct sb; try destruct sc;
    cbn [SFcompare]; rewrite ?compare_cont_spec; intros H1 H2;
    try discriminate H1; try discriminate H2; try reflexivity;
    rewrite ?compare_cont_spec in *;
    order_cases; simpl in *; try reflexivity; try discriminate; try lia.
Qed.

Lemma lt_trans (a b c : float) : lt a b = true -> lt b c = true -> lt a c = true.
Proof.
  unfold lt. intros H1 H2.
  destruct (SFcompare a b) as [[ | | ] | ] eqn:E1; try discriminate H1.
  destruct (SFcompare b c) as [[ | | ] | ] eqn:E2; try discriminate H2.
  now rewrite (SFcompare_Lt_trans a b c E1 E2).
Qed.

Lemma gt_trans (a b c : float) : gt a b = true -> gt b c = true -> gt a c = true.
Proof.
  unfold gt. intros H1 H2.
  destruct (SFcompare a b) as [[ | | ] | ] eqn:E1; try discriminate H1.
  destruct (SFcompare b c) as [[ | | ] | ] eqn:E2; try discriminate H2.
  now rewrite (SFcompare_Gt_trans a b c E1 E2).
Qed.

Lemma gt_irrefl (a : float) : gt a a = false.
Proof.
  unfold gt. destruct a as [[ | ] | [ | ] | | [ | ] m e]; cbn [SFcompare];
    try reflexivity; rewrite Z.compare_refl, compare_cont_spec, Pos.compare_refl;
    reflexivity.
Qed.

Lemma lt_irrefl (a : float) : lt a a = false.
Proof.
  unfold lt. destruct a as [[ | ] | [ | ] | | [ | ] m e]; cbn [SFcompare];
    try reflexivity; rewrite Z.compare_refl, compare_cont_spec, Pos.compare_refl;
    reflexivity.
Qed.

(** ** The extremes of a sweep *)

Lemma extremes_step (a : acc) (l : list float) (x : float) :
  valid x = true ->
  extremes_bound a l -> extremes_bound (accumulate a x) (l ++ [x]).
Proof.
  intros Hx Hb d Hd. unfold accumulate. fold (valid x). rewrite Hx.
  cbn [maxDist minDist].
  apply in_app_or in Hd. destruct Hd as [Hd | [<- | []]].
  - destruct (Hb d Hd) as [Hmax Hmin]. split.
    + destruct (gt x (maxDist a)) eqn:Hg; [ | assumption ].
      destruct (gt d x) eqn:Hdx; [ | reflexivity ].
      now rewrite (gt_trans d x (maxDist a) Hdx Hg) in Hmax.
    + destruct (lt x (minDist a)) eqn:Hl; [ | assumption ].
      destruct (lt d x) eqn:Hdx; [ | reflexivity ].
      now rewrite (lt_trans d x (minDist a) Hdx Hl) in Hmin.
  - split.
    + destruct (gt x (maxDist a)) eqn:Hg; [ apply gt_irrefl | assumption ].
    + destruct (lt x (minDist a)) eqn:Hl; [ apply lt_irrefl | assumption ].
Qed.

Lemma extremes_member_step (a : acc) (l : list float) (x : float) :
  valid x = true ->
  extremes_member a l -> extremes_member (accumulate a x) (l ++ [x]).
Proof.
  intros Hx [Hmax Hmin]. unfold accumulate. fold (valid x). rewrite Hx.
  unfold extremes_member. cbn [maxDist minDist]. split.
  - assert (Hin : In (if gt x (maxDist a) then x else maxDist a) (l ++ [x])).
    { destruct (gt x (maxDist a)) eqn:Hg.
      - apply in_or_app. right. now left.
      - destruct l as [ | y l].
        + rewrite Hmax in Hg. unfold valid in Hx. congruence.
        + apply in_or_app. now left. }
    now destruct l.
  - destruct (lt x (minDist a)) eqn:Hl.
    + left. apply in_or_app. right. now left.
    + destruct Hmin as [Hin | Hcap]; [ left; apply in_or_app; now left | now right ].
Qed.

Lemma fold_extremes (l : list float) :
  Forall (fun d => valid d = true) l ->
  extremes_bound (fold_left accumulate l acc0) l
  /\ extremes_member (fold_left accumulate l acc0) l.
Proof.
  induction l as [ | x l IH] using rev_ind; intros Hv.
  - split; [ intros d [] | split; [ reflexivity | now right ] ].
  - apply Forall_app in Hv. destruct Hv as [Hl Hx].
    apply Forall_inv in Hx. destruct (IH Hl) as [Hb Hm].
    rewrite fold_left_app. cbn [fold_left]. split.
    + now apply extremes_step.
    + now apply extremes_member_step.
Qed.

Lemma valid_samples_valid (s : list float) :
  Forall (fun d => valid d = true) (valid_samples s).
Proof.
  apply Forall_forall. intros d Hd. unfold valid_samples in Hd.
  now apply filter_In in Hd.
Qed.

(** X1.  When a sweep has a valid sample, the maximum either sketch
    reports is one of the valid samples and none of them is greater; no
    valid sample is below the reported minimum, which is one of the valid
    samples or, when they all are 9999 cm or more, the initial 9999. *)
Theorem reported_extremes (s : list float) (H : 0 < count_valid s) :
  let v := valid_samples s in
  (forall g,
      let g' := Scanner.readTerrainArray_on s g in
      In (Scanner.terrainMax g') v
      /\ (forall d, In d v -> gt d (Scanner.terrainMax g') = false)
      /\ (forall d, In d v -> lt d (Scanner.terrainMin g') = false)
      /\ (In (Scanner.terrainMin g') v \/ Scanner.terrainMin g' = of_int 9999)
      /\ ((exists d, In d v /\ lt d (of_int 9999) = true) ->
          In (Scanner.terrainMin g') v))
  /\ (forall t,
         let t' := Mega.readTerrainArray_on s t in
         In (Mega.terrainMax t') v
         /\ (forall d, In d v -> gt d (Mega.terrainMax t') = false)
         /\ (forall d, In d v -> lt d (Mega.terrainMin t') = false)
         /\ (In (Mega.terrainMin t') v \/ Mega.terrainMin t' = of_int 9999)
         /\ ((exists d, In d v /\ lt d (of_int 9999) = true) ->
             In (Mega.terrainMin t') v)).
Proof.
  intros v.
  set (a := fold_left accumulate s acc0).
  assert (Ha : a = fold_left accumulate v acc0) by apply fold_accumulate_valid.
  destruct (fold_extremes v (valid_samples_valid s)) as [Hb [Hmax Hmin]].
  rewrite <- Ha in Hb, Hmax, Hmin.
  assert (Hne : In (maxDist a) v).
  { destruct v as [ | y v'] eqn:Hv; [ | exact Hmax ].
    unfold count_valid in H. fold v in H. rewrite Hv in H. simpl in H. lia. }
  assert (Hcap : (exists d, In d v /\ lt d (of_int 9999) = true) ->
                 In (minDist a) v).
  { intros (d & Hd & Hlt). destruct Hmin as [Hin | Hc]; [ assumption | ].
    destruct (Hb d Hd) as [_ Hlo]. rewrite Hc in Hlo. congruence. }
  assert (Hvc : (0 <? validCount a) = true).
  { apply Z.ltb_lt. unfold a. rewrite fold_validCount. simpl validCount. lia. }
  split.
  - intros g g'. subst g'.
    destruct (Scanner_stats_of s g) as (Emin & Emax & _). fold a in Emin, Emax.
    rewrite Hvc in Emin, Emax. rewrite Emin, Emax.
    repeat match goal with |- _ /\ _ => split end; try assumption.
    + intros d Hd. now apply Hb.
    + intros d Hd. now apply Hb.
  - intros t t'. subst t'.
    destruct (Mega_stats_of s t) as (Emin & Emax & _). fold a in Emin, Emax.
    rewrite Emin, Emax.
    repeat match goal with |- _ /\ _ => split end; try assumption.
    + intros d Hd. now apply Hb.
    + intros d Hd. now apply Hb.
Qed.

Lemma reported_extremes_witness :
  let g' := Scanner.readTerrainArray_on flat5 Scanner.initial in
  In (Scanner.terrainMax g') (valid_samples flat5)
  /\ gt (cm 101) (Scanner.terrainMax g') = false
  /\ In (Scanner.terrainMin g') (valid_samples flat5).
Proof.
  assert (H : 0 < count_valid flat5) by reflexivity.
  destruct (reported_extremes flat5 H) as [Hs _].
  destruct (Hs Scanner.initial) as (Hmax & Hup & _ & _ & Hmin).
  split; [ exact Hmax | split ].
  - apply Hup. simpl. auto.
  - apply Hmin. exists (cm 100). split; [ simpl; auto | reflexivity ].
Defined.

(** ** What a sweep leaves in [terrain] *)

Lemma Scanner_sweep_on_below (s : list float) (i : nat) (a : acc)
      (g : Scanner.globals) (j : nat) :
  (j < i)%nat ->
  Scanner.terrain (snd (sweep_on Scanner.set_terrain s i a g)) j
  = Scanner.terrain g j.
Proof.
  revert i a g. induction s as [ | d s IH]; intros i a g Hj; simpl.
  - reflexivity.
  - rewrite IH by lia. simpl. unfold store.
    destruct (Nat.eqb_spec j i); [ lia | reflexivity ].
Qed.

Lemma Scanner_sweep_on_terrain (s : list float) (i : nat) (a : acc)
      (g : Scanner.globals) :
  map (Scanner.terrain (snd (sweep_on Scanner.set_terrain s i a g)))
      (seq i (List.length s)) = s.
Proof.
  revert i a g. induction s as [ | d s IH]; intros i a g; simpl.
  - reflexivity.
  - f_equal.
    + rewrite Scanner_sweep_on_below by lia. simpl. unfold store.
      now rewrite Nat.eqb_refl.
    + apply IH.
Qed.

Lemma Scanner_sweep_on_above (s : list float) (i : nat) (a : acc)
      (g : Scanner.globals) (j : nat) :
  (i + List.length s <= j)%nat ->
  Scanner.terrain (snd (sweep_on Scanner.set_terrain s i a g)) j
  = Scanner.terrain g j.
Proof.
  revert i a g. induction s as [ | d s IH]; intros i a g Hj; simpl in *.
  - reflexivity.
  - rewrite IH by lia. simpl. unfold store.
    destruct (Nat.eqb_spec j i); [ lia | reflexivity ].
Qed.

Lemma Mega_sweep_on_above (s : list float) (i : nat) (a : acc)
      (t : Mega.SensorData) (j : nat) :
  (i + List.length s <= j)%nat ->
  Mega.terrain (snd (sweep_on Mega.set_terrain s i a t)) j = Mega.terrain t j.
Proof.
  revert i a t. induction s as [ | d s IH]; intros i a t Hj; simpl in *.
  - reflexivity.
  - rewrite IH by lia. simpl. unfold store.
    destruct (Nat.eqb_spec j i); [ lia | reflexivity ].
Qed.

Lemma Scanner_analyze_terrain (vc : Z) (g : Scanner.globals) :
  Scanner.terrain (Scanner.analyzeTerrain vc g) = Scanner.terrain g
  /\ Scanner.scanCount (Scanner.analyzeTerrain vc g) = Scanner.scanCount g.
Proof.
  unfold Scanner.analyzeTerrain.
  destruct (3 <=? _); [ now split | ].
  destruct (gt _ (of_int 50)); [ now split | ].
  destruct (gt _ (of_int 20)); [ now split | ].
  destruct (0 <? vc); now split.
Qed.

(** X2.  After a sweep, [terrain[0..N-1]] of either sketch holds the
    readings of the channels in the order of [echoPins]; the entries from
    index N on are untouched. *)
Theorem terrain_holds_readings
        (ms : machine Scanner.globals) (mm : machine Mega.SensorData) :
  let g' := mem (exec Scanner.readTerrainArray ms) in
  let t' := mem (exec Mega.readTerrainArray mm) in
  map (Scanner.terrain g') (seq 0 5)
  = readings Scanner.TRIG_PIN Scanner.echoPins 5 0 (hw ms)
  /\ (forall j, (5 <= j)%nat -> Scanner.terrain g' j = Scanner.terrain (mem ms) j)
  /\ map (Mega.terrain t') (seq 0 6)
     = readings Mega.TRIG_PIN Mega.echoPins 6 0 (hw mm)
  /\ (forall j, (6 <= j)%nat -> Mega.terrain t' j = Mega.terrain (mem mm) j).
Proof.
  intros g' t'. subst g' t'. rewrite Scanner_run, Mega_run.
  rewrite Scanner_on_eq, Mega_on_eq. unfold Scanner.finish, Mega.finish.
  set (s5 := readings Scanner.TRIG_PIN Scanner.echoPins 5 0 (hw ms)).
  set (s6 := readings Mega.TRIG_PIN Mega.echoPins 6 0 (hw mm)).
  assert (L5 : List.length s5 = 5%nat) by apply readings_length.
  assert (L6 : List.length s6 = 6%nat) by apply readings_length.
  match goal with
  | |- context [Scanner.analyzeTerrain ?vc ?g] =>
      destruct (Scanner_analyze_terrain vc g) as [-> _]
  end.
  match goal with
  | |- context [Mega.analyzeTerrain ?t] =>
      destruct (Mega_analyze_stats t) as (_ & _ & _ & ->)
  end.
  cbn [Scanner.set_stats Scanner.terrain Mega.set_stats Mega.terrain].
  repeat match goal with |- _ /\ _ => split end.
  - rewrite <- L5 at 1. apply Scanner_sweep_on_terrain.
  - intros j Hj. apply Scanner_sweep_on_above. lia.
  - rewrite <- L6 at 1. apply Mega_sweep_on_terrain.
  - intros j Hj. apply Mega_sweep_on_above. lia.
Qed.

(** ** How long a sweep blocks *)

Lemma sweep_hw_echo (trig : Z) (pins : list Z) (n i : nat) (w : hardware) :
  echo (sweep_hw trig pins n i w) = echo w.
Proof.
  revert i w. induction n as [ | n IH]; intros i w; [ reflexivity | ].
  cbn [sweep_hw].
  pose proof (readSingle_echo trig (nth i pins 0) w) as He.
  destruct (readSingleUltrasonic trig (nth i pins 0) w) as [dist w1].
  cbn [snd] in He. rewrite IH. unfold exec, delay, modify. cbn [snd emit echo].
  exact He.
Qed.

Lemma channel_duration (trig pin : Z) (w : hardware) :
  now (exec (delay SETTLE_MS) (snd (readSingleUltrasonic trig pin w)))
  = now w + 12 + pulse_elapsed (echo w pin (now w + 12)) + 30000.
Proof.
  unfold readSingleUltrasonic, bind, digitalWrite, delayMicroseconds, pulseIn,
    exec, delay, modify.
  cbv beta iota zeta.
  destruct (to_long _ =? 0); cbn [snd ret emit now echo]; unfold SETTLE_MS;
    replace (now w + 0 + 2 + 0 + 10 + 0) with (now w + 12) by lia; lia.
Qed.

Lemma sweep_hw_duration (trig : Z) (pins : list Z) (n : nat) :
  forall (i : nat) (w : hardware),
    echo_forward w ->
    now w + Z.of_nat n * 30012 <= now (sweep_hw trig pins n i w).
Proof.
  induction n as [ | n IH]; intros i w Hw.
  - cbn [sweep_hw]. lia.
  - cbn [sweep_hw].
    pose proof (channel_duration trig (nth i pins 0) w) as Hd.
    pose proof (readSingle_echo trig (nth i pins 0) w) as He.
    destruct (readSingleUltrasonic trig (nth i pins 0) w) as [dist w1].
    cbn [snd] in Hd, He.
    assert (Hw' : echo_forward (exec (delay SETTLE_MS) w1)).
    { intros pin t. unfold exec, delay, modify. cbn [snd emit echo].
      rewrite He. apply Hw. }
    specialize (IH (S i) _ Hw'). rewrite Hd in IH.
    pose proof (Hw (nth i pins 0) (now w + 12)) as Hp.
    lia.
Qed.

(** X3.  A sweep blocks the sketch for at least N * 30.012 ms: the
    trigger pulses and the settling delays alone take that long, whatever
    the echoes do.  The echo function of the world is left as it was. *)
Theorem sweep_duration
        (ms : machine Scanner.globals) (mm : machine Mega.SensorData)
        (Hs : echo_forward (hw ms)) (Hm : echo_forward (hw mm)) :
  let ws := hw (exec Scanner.readTerrainArray ms) in
  let wm := hw (exec Mega.readTerrainArray mm) in
  now (hw ms) + 5 * 30012 <= now ws
  /\ now (hw mm) + 6 * 30012 <= now wm
  /\ echo ws = echo (hw ms) /\ echo wm = echo (hw mm).
Proof.
  intros ws wm. subst ws wm. rewrite Scanner_run_hw, Mega_run_hw.
  pose proof (sweep_hw_duration Scanner.TRIG_PIN Scanner.echoPins 5 0 _ Hs).
  pose proof (sweep_hw_duration Mega.TRIG_PIN Mega.echoPins 6 0 _ Hm).
  rewrite !sweep_hw_echo.
  repeat match goal with |- _ /\ _ => split end; try reflexivity; lia.
Qed.

Lemma sweep_duration_witness :
  5 * 30012
  <= now (hw (exec Scanner.readTerrainArray
                {| hw := steady 583 600; mem := Scanner.initial |}))
  /\ 6 * 30012
     <= now (hw (exec Mega.readTerrainArray
                   {| hw := steady 0 30000; mem := Mega.initial |})).
Proof.
  assert (B0 : echo_forward (steady 583 600)).
  { intros pin t. simpl. lia. }
  assert (B1 : echo_forward (steady 0 30000)).
  { intros pin t. simpl. lia. }
  destruct (sweep_duration
              {| hw := steady 583 600; mem := Scanner.initial |}
              {| hw := steady 0 30000; mem := Mega.initial |} B0 B1)
    as (H1 & H2 & _).
  split; [ exact H1 | exact H2 ].
Defined.

(* ------------------------------------------------------------------ *)
(** ** C1: the decision rule *)
(* ------------------------------------------------------------------ *)

Lemma fold_accumulate_extremes (v : list float) (a : acc) :
  Forall (fun d => valid d = true) v ->
  minDist (fold_left accumulate v a)
  = fold_left (fun lo d => if lt d lo then d else lo) v (minDist a)
  /\ maxDist (fold_left accumulate v a)
     = fold_left (fun hi d => if gt d hi then d else hi) v (maxDist a).
Proof.
  revert a. induction v as [ | d v IH]; intros a Hv; [ now split | ].
  apply Forall_cons_iff in Hv. destruct Hv as [Hd Hv].
  cbn [fold_left]. destruct (IH (accumulate a d) Hv) as [-> ->].
  unfold accumulate. fold (valid d). rewrite Hd. cbn [minDist maxDist].
  now split.
Qed.

(** The extremes the loop accumulates are those of the valid samples. *)
Lemma sweep_extremes (s : list float) :
  let a := fold_left accumulate s acc0 in
  minDist a = lowest (valid_samples s)
  /\ maxDist a = highest (valid_samples s)
  /\ validCount a = count_valid s.
Proof.
  intros a. subst a. rewrite fold_validCount.
  rewrite (fold_accumulate_valid s acc0).
  destruct (fold_accumulate_extremes (valid_samples s) acc0
              (valid_samples_valid s)) as [-> ->].
  repeat split.
Qed.

Lemma extremes_enclose (s : list float) (d : float) :
  In d (valid_samples s) ->
  gt d (highest (valid_samples s)) = false
  /\ lt d (lowest (valid_samples s)) = false.
Proof.
  intros Hd.
  destruct (fold_extremes (valid_samples s) (valid_samples_valid s)) as [Hb _].
  destruct (fold_accumulate_extremes (valid_samples s) acc0
              (valid_samples_valid s)) as [Hlo Hhi].
  unfold lowest, highest. cbn [minDist maxDist acc0] in Hlo, Hhi.
  rewrite <- Hlo, <- Hhi. now apply Hb.
Qed.

(** The status of the 5-sensor sketch, from the samples of the sweep. *)
Lemma Scanner_chain_of_samples (s : list float) (g : Scanner.globals) :
  List.length s = 5%nat ->
  let g' := Scanner.readTerrainArray_on s g in
  let v := valid_samples s in
  classification_of (Scanner.terrainStatus g')
  = Some (rule_chain (count_invalid s) (count_valid s) (lowest v) (highest v))
  /\ Scanner.terrainMin g'
     = (if 0 <? count_valid s then lowest v else of_int 0)
  /\ Scanner.terrainMax g'
     = (if 0 <? count_valid s then highest v else of_int 0).
Proof.
  intros H5 g' v. subst g' v.
  pose proof (Scanner_rule_chain s g H5) as Hchain. cbv zeta in Hchain.
  destruct (Scanner_stats_of s g) as (Emin & Emax & _).
  destruct (sweep_extremes s) as (Hlo & Hhi & Hvc).
  cbv zeta in Emin, Emax, Hlo, Hhi, Hvc.
  rewrite Hlo, Hvc in Emin. rewrite Hhi, Hvc in Emax.
  repeat match goal with |- _ /\ _ => split end; try assumption.
  rewrite Hchain, Emin, Emax.
  destruct (Z.ltb_spec 0 (count_valid s)) as [Hv | Hv]; [ reflexivity | ].
  pose proof (count_split s) as Hc. rewrite H5 in Hc.
  unfold rule_chain.
  destruct (Z.leb_spec 3 (count_invalid s)); [ reflexivity | lia ].
Qed.

(** The status of the 6-sensor sketch, from the samples of the sweep. *)
Lemma Mega_chain_of_samples (s : list float) (t : Mega.SensorData) :
  List.length s = 6%nat -> forallb producible s = true ->
  let t' := Mega.readTerrainArray_on s t in
  let v := valid_samples s in
  classification_of (Mega.terrainStatus t')
  = Some (rule_chain (count_invalid s) (count_valid s) (lowest v) (highest v))
  /\ Mega.terrainMin t' = lowest v
  /\ Mega.terrainMax t' = highest v.
Proof.
  intros H6 Hp t' v. subst t' v.
  pose proof (Mega_rule_chain s t H6 Hp) as Hchain. cbv zeta in Hchain.
  destruct (Mega_stats_of s t) as (Emin & Emax & _).
  destruct (sweep_extremes s) as (Hlo & Hhi & _).
  cbv zeta in Emin, Emax, Hlo, Hhi.
  rewrite Hlo in Emin. rewrite Hhi in Emax.
  repeat match goal with |- _ /\ _ => split end; try assumption.
  now rewrite Hchain, Emin, Emax.
Qed.

(** C1.  For a completed sweep of N samples the status either sketch
    assigns is the outcome of the rule chain of the specification, taken
    in its order, on the sweep's counts of invalid and valid samples and
    on the smallest and the largest of its valid samples, [lowest] and
    [highest], which no valid sample lies outside of.  These are also the
    minimum and maximum the sketch reports: always on the Mega, and on
    the Uno whenever there is a valid sample (it reports 0 and 0
    otherwise), so the chain gives the same on the reported values.
    [s5] is any sweep of the 5-sensor sketch; [s6] is a sweep of the
    6-sensor sketch whose samples are the sentinel or positive, as the
    driver returns them. *)
Theorem terrain_rule_chain (s5 s6 : list float)
        (H5 : List.length s5 = 5%nat)
        (H6 : List.length s6 = 6%nat)
        (Hp : forallb producible s6 = true) :
  (forall g,
      let g' := Scanner.readTerrainArray_on s5 g in
      let v := valid_samples s5 in
      classification_of (Scanner.terrainStatus g')
      = Some (rule_chain (count_invalid s5) (count_valid s5)
                         (lowest v) (highest v))
      /\ classification_of (Scanner.terrainStatus g')
         = Some (rule_chain (count_invalid s5) (count_valid s5)
                            (Scanner.terrainMin g') (Scanner.terrainMax g'))
      /\ Scanner.terrainMin g'
         = (if 0 <? count_valid s5 then lowest v else of_int 0)
      /\ Scanner.terrainMax g'
         = (if 0 <? count_valid s5 then highest v else of_int 0)
      /\ (forall d, In d v ->
                    gt d (highest v) = false /\ lt d (lowest v) = false))
  /\ (forall t,
         let t' := Mega.readTerrainArray_on s6 t in
         let v := valid_samples s6 in
         classification_of (Mega.terrainStatus t')
         = Some (rule_chain (count_invalid s6) (count_valid s6)
                            (lowest v) (highest v))
         /\ classification_of (Mega.terrainStatus t')
            = Some (rule_chain (count_invalid s6) (count_valid s6)
                               (Mega.terrainMin t') (Mega.terrainMax t'))
         /\ Mega.terrainMin t' = lowest v
         /\ Mega.terrainMax t' = highest v
         /\ (forall d, In d v ->
                       gt d (highest v) = false /\ lt d (lowest v) = false)).
Proof.
  split.
  - intros g g' v. subst g' v.
    destruct (Scanner_chain_of_samples s5 g H5) as (Hc & Emin & Emax).
    cbv zeta in Hc, Emin, Emax.
    repeat match goal with |- _ /\ _ => split end;
      try assumption; try (intros d Hd; now apply extremes_enclose).
    rewrite (Scanner_rule_chain s5 g H5). reflexivity.
  - intros t t' v. subst t' v.
    destruct (Mega_chain_of_samples s6 t H6 Hp) as (Hc & Emin & Emax).
    cbv zeta in Hc, Emin, Emax.
    repeat match goal with |- _ /\ _ => split end;
      try assumption; try (intros d Hd; now apply extremes_enclose).
    rewrite (Mega_rule_chain s6 t H6 Hp). reflexivity.
Qed.

Lemma terrain_rule_chain_witness :
  classification_of
    (Scanner.terrainStatus (Scanner.readTerrainArray_on flat5 Scanner.initial))
  = Some FLAT_SAFE
  /\ Scanner.terrainMax (Scanner.readTerrainArray_on flat5 Scanner.initial)
     = cm 102
  /\ classification_of
       (Mega.terrainStatus (Mega.readTerrainArray_on cliff6 Mega.initial))
     = Some HAZARD
  /\ Mega.terrainMin (Mega.readTerrainArray_on cliff6 Mega.initial) = cm 10.
Proof.
  destruct (terrain_rule_chain flat5 cliff6 eq_refl eq_refl eq_refl) as [Hs Hm].
  destruct (Hs Scanner.initial) as (Hc5 & _ & _ & Hmax & _).
  destruct (Hm Mega.initial) as (Hc6 & _ & Hmin & _).
  cbv zeta in *.
  repeat match goal with |- _ /\ _ => split end.
  - rewrite Hc5. reflexivity.
  - rewrite Hmax. reflexivity.
  - rewrite Hc6. reflexivity.
  - rewrite Hmin. reflexivity.
Defined.

(** The sweeps the sketches run on the hardware follow the rule chain on
    the readings of their channels. *)
Corollary run_rule_chain
          (ms : machine Scanner.globals) (mm : machine Mega.SensorData) :
  echo_bounded (hw mm) ->
  let s5 := readings Scanner.TRIG_PIN Scanner.echoPins 5 0 (hw ms) in
  let s6 := readings Mega.TRIG_PIN Mega.echoPins 6 0 (hw mm) in
  let g' := mem (exec Scanner.readTerrainArray ms) in
  let t' := mem (exec Mega.readTerrainArray mm) in
  classification_of (Scanner.terrainStatus g')
  = Some (rule_chain (count_invalid s5) (count_valid s5)
                     (lowest (valid_samples s5)) (highest (valid_samples s5)))
  /\ classification_of (Mega.terrainStatus t')
     = Some (rule_chain (count_invalid s6) (count_valid s6)
                        (lowest (valid_samples s6)) (highest (valid_samples s6))).
Proof.
  intros Hb s5 s6 g' t'. subst g' t'. rewrite Scanner_run, Mega_run. split.
  - apply Scanner_chain_of_samples, readings_length.
  - apply Mega_chain_of_samples; [ apply readings_length | ].
    now apply readings_producible.
Qed.

(** ** Tokens of a sentence *)

Lemma cut_token_length (s : cstring) :
  (List.length (snd (cut_token s)) <= List.length s)%nat.
Proof.
  induction s as [ | c s IH]; simpl; [ lia | ].
  destruct (Ascii.eqb c COMMA); simpl; [ lia | ].
  destruct (cut_token s) as [tok rest]. simpl in *. lia.
Qed.

Lemma skip_commas_length (s : cstring) :
  (List.length (skip_commas s) <= List.length s)%nat.
Proof.
  induction s as [ | c s IH]; simpl; [ lia | ].
  destruct (Ascii.eqb c COMMA); simpl; lia.
Qed.

Lemma strtok_shrinks (s tok rest : cstring) :
  strtok s = (Some tok, rest) -> (List.length rest < List.length s)%nat.
Proof.
  unfold strtok. pose proof (skip_commas_length s) as Hs.
  destruct (skip_commas s) as [ | c s'] eqn:E; [ discriminate | ].
  pose proof (cut_token_length (c :: s')) as Hc.
  cbn [cut_token] in *.
  destruct (Ascii.eqb c COMMA) eqn:Ec.
  - intros [= <- <-]. simpl in *. lia.
  - destruct (cut_token s') as [tok' rest'] eqn:Ecut. intros [= <- <-].
    pose proof (cut_token_length s') as Hc'. rewrite Ecut in Hc'.
    simpl in *. lia.
Qed.

(** More fuel than characters changes nothing. *)
Lemma strtok_all_fuel (fuel1 fuel2 : nat) (s : cstring) :
  (List.length s < fuel1)%nat -> (List.length s < fuel2)%nat ->
  strtok_all fuel1 s = strtok_all fuel2 s.
Proof.
  revert fuel2 s. induction fuel1 as [ | f1 IH]; intros fuel2 s H1 H2; [ lia | ].
  destruct fuel2 as [ | f2]; [ lia | ].
  cbn [strtok_all]. destruct (strtok s) as [[tok | ] rest] eqn:E; [ | reflexivity ].
  pose proof (strtok_shrinks s tok rest E). f_equal. apply IH; lia.
Qed.

Lemma fields_cut (cur s : cstring) :
  filter nonempty (fields_from cur s)
  = filter nonempty [rev cur ++ fst (cut_token s)]
    ++ filter nonempty (fields_from [] (snd (cut_token s))).
Proof.
  revert cur. induction s as [ | c s IH]; intros cur.
  - cbn [cut_token fields_from fst snd]. rewrite !app_nil_r. reflexivity.
  - cbn [cut_token fields_from]. destruct (Ascii.eqb c COMMA).
    + cbn [fst snd filter]. rewrite app_nil_r.
      destruct (nonempty (rev cur)); reflexivity.
    + rewrite IH. destruct (cut_token s) as [tok rest]. cbn [fst snd rev].
      now rewrite <- app_assoc.
Qed.

Lemma fields_skip (s : cstring) :
  filter nonempty (fields s) = filter nonempty (fields (skip_commas s)).
Proof.
  unfold fields. induction s as [ | c s IH]; [ reflexivity | ].
  cbn [skip_commas fields_from]. destruct (Ascii.eqb c COMMA) eqn:E.
  - cbn [rev filter nonempty]. exact IH.
  - cbn [fields_from]. now rewrite E.
Qed.

Lemma strtok_all_fields (fuel : nat) (s : cstring) :
  (List.length s < fuel)%nat ->
  strtok_all fuel s = filter nonempty (fields s).
Proof.
  revert s. induction fuel as [ | fuel IH]; intros s Hlen; [ lia | ].
  cbn [strtok_all]. rewrite fields_skip.
  destruct (strtok s) as [[tok | ] rest] eqn:E.
  - pose proof (strtok_shrinks s tok rest E) as Hr.
    unfold strtok in E. destruct (skip_commas s) as [ | c s'] eqn:Es;
      [ discriminate | ].
    unfold fields. rewrite fields_cut.
    destruct (cut_token (c :: s')) as [tok' rest'] eqn:Ec.
    injection E as <- <-. cbn [fst snd rev app].
    assert (Hne : nonempty tok' = true).
    { cbn [cut_token] in Ec. destruct (Ascii.eqb c COMMA) eqn:Ecomma.
      - exfalso. clear - Es Ecomma.
        induction s as [ | d s IH]; [ discriminate | ].
        cbn [skip_commas] in Es. destruct (Ascii.eqb d COMMA) eqn:Ed.
        + now apply IH.
        + injection Es as -> ->. congruence.
      - destruct (cut_token s') as [u v]. now injection Ec as <- <-. }
    cbn [filter]. rewrite Hne. cbn [app]. f_equal. apply IH. lia.
  - unfold strtok in E. destruct (skip_commas s) as [ | c s'] eqn:Es.
    + reflexivity.
    + destruct (cut_token (c :: s')). discriminate.
Qed.

Lemma fields_join (fs : list cstring) :
  fs <> [] -> forallb comma_free fs = true -> fields (join fs) = fs.
Proof.
  assert (Hone : forall f cur, comma_free f = true ->
            forall s, fields_from cur (f ++ s) = fields_from (rev f ++ cur) s).
  { induction f as [ | c f IH]; intros cur Hf s; [ reflexivity | ].
    cbn [comma_free forallb] in Hf. apply andb_prop in Hf. destruct Hf as [Hc Hf].
    cbn [app fields_from]. apply negb_true_iff in Hc. rewrite Hc.
    rewrite (IH (c :: cur) Hf). cbn [rev]. now rewrite <- app_assoc. }
  induction fs as [ | f fs IH]; intros Hne Hall; [ now elim Hne | ].
  cbn [forallb] in Hall. apply andb_prop in Hall. destruct Hall as [Hf Hfs].
  destruct fs as [ | g fs].
  - cbn [join]. unfold fields. rewrite <- (app_nil_r f), Hone by assumption.
    cbn [fields_from]. now rewrite !app_nil_r, rev_involutive.
  - change (join (f :: g :: fs)) with (f ++ COMMA :: join (g :: fs)).
    unfold fields. rewrite Hone by assumption. cbn [fields_from].
    change (Ascii.eqb COMMA COMMA) with true. cbv iota.
    rewrite app_nil_r, rev_involutive. apply (f_equal (cons f)).
    apply IH; [ discriminate | assumption ].
Qed.

(** ** Machine integers of the NMEA conversion *)

Lemma wrap_fits (w n : Z) :
  0 < w -> - 2 ^ (w - 1) <= n < 2 ^ (w - 1) -> wrap w n = n.
Proof.
  intros Hw Hn. unfold wrap.
  assert (Hp : 2 ^ w = 2 * 2 ^ (w - 1)).
  { replace w with (Z.succ (w - 1)) at 1 by lia. apply Z.pow_succ_r. lia. }
  assert (Hpos : 0 < 2 ^ (w - 1)) by (apply Z.pow_pos_nonneg; lia).
  destruct (Z.le_gt_cases 0 n) as [H0 | H0].
  - rewrite Z.mod_small by lia.
    destruct (Z.ltb_spec n (2 ^ (w - 1))); lia.
  - replace (n mod 2 ^ w) with (n + 2 ^ w).
    + destruct (Z.ltb_spec (n + 2 ^ w) (2 ^ (w - 1))); lia.
    + symmetry. rewrite <- (Z.mod_add n 1 (2 ^ w)) by lia.
      rewrite Z.mul_1_l. apply Z.mod_small. lia.
Qed.

(** In range, the machine integers of the conversion are the
    mathematical ones. *)
Lemma nmea_ints_in_range (w : Z) (raw : float) :
  0 < w -> nmea_in_range w raw = true ->
  let deg := to_int (div raw (of_int 100)) in
  cast_int w (div raw (of_int 100)) = deg /\ mul_int w deg 100 = deg * 100.
Proof.
  intros Hw H deg. unfold nmea_in_range in H. fold deg in H.
  assert (Hr : - 2 ^ (w - 1) <= deg * 100 < 2 ^ (w - 1)).
  { destruct (div raw (of_int 100)); try discriminate H;
      apply andb_prop in H; destruct H as [H1 H2];
      apply Z.leb_le in H1; apply Z.ltb_lt in H2; lia. }
  assert (Hpos : 0 < 2 ^ (w - 1)) by (apply Z.pow_pos_nonneg; lia).
  unfold cast_int, mul_int. fold deg.
  split; apply wrap_fits; lia.
Qed.

Lemma nmea_degrees_in_range (raw : float) :
  nmea_in_range 16 raw = true -> nmea_degrees raw = decimal_degrees raw.
Proof.
  intros H. destruct (nmea_ints_in_range 16 raw eq_refl H) as [Hc Hm].
  unfold nmea_degrees, decimal_degrees. cbv zeta in Hc, Hm.
  now rewrite Hc, Hm.
Qed.

(** ** [parseGPGGA] of cansat_mega.ino *)

Section MegaGpsFacts.

Variable atof : cstring -> float.
Variable atoi : cstring -> Z.

Lemma gga_loop_fold (fuel : nat) :
  forall (s : cstring) (field : Z) (t : GpsData),
    (List.length s < fuel)%nat ->
    (let (token, rest) := strtok s in gga_loop atof atoi fuel token rest field t)
    = gga_fold atof atoi (strtok_all fuel s) field t.
Proof.
  induction fuel as [ | fuel IH]; intros s field t Hlen; [ lia | ].
  cbn [strtok_all]. destruct (strtok s) as [[tok | ] rest] eqn:E.
  - pose proof (strtok_shrinks s tok rest E) as Hr.
    cbn [gga_loop gga_fold]. apply IH. lia.
  - reflexivity.
Qed.

(** [parseGPGGA] applies its [switch] to the non-empty fields of the
    sentence, numbered from 1 in the order they come. *)
Lemma parseGPGGA_tokens (s : cstring) (t : GpsData) :
  parseGPGGA atof atoi s t = gga_fold atof atoi (tokens s) 0 t.
Proof.
  unfold parseGPGGA, tokens.
  rewrite <- (strtok_all_fields (S (List.length s)) s) by lia.
  apply gga_loop_fold. lia.
Qed.

Lemma gga_fold_late (toks : list cstring) (field : Z) (t : GpsData) :
  10 <= field -> gga_fold atof atoi toks field t = t.
Proof.
  revert field t. induction toks as [ | tok toks IH]; intros field t Hf;
    [ reflexivity | ].
  cbn [gga_fold]. rewrite IH by lia. unfold gga_field.
  repeat match goal with
    | |- context [?a =? ?b] => destruct (Z.eqb_spec a b); try lia
    end.
  reflexivity.
Qed.

(** What field number [k] can still change once [field] tokens are gone. *)
Lemma gga_fold_untouched (toks : list cstring) (field : Z) (t : GpsData) :
  let t' := gga_fold atof atoi toks field t in
  let n := field + Z.of_nat (List.length toks) in
  0 <= field ->
  gpsSpeed t' = gpsSpeed t
  /\ (n < 3 -> latitude t' = latitude t)
  /\ (n < 5 -> longitude t' = longitude t)
  /\ (n < 7 -> gpsValid t' = gpsValid t)
  /\ (n < 8 -> gpsSatellites t' = gpsSatellites t)
  /\ (n < 10 -> gpsAltitude t' = gpsAltitude t).
Proof.
  revert field t. induction toks as [ | tok toks IH]; intros field t t' n Hf.
  - subst t'. cbn [gga_fold]. repeat split; reflexivity.
  - subst t' n. cbn [gga_fold List.length].
    specialize (IH (field + 1) (gga_field atof atoi (field + 1) tok t)).
    cbv zeta in IH. destruct IH as (Hs & Hlat & Hlon & Hv & Hn & Ha); [ lia | ].
    rewrite Nat2Z.inj_succ.
    assert (Hstep : gpsSpeed (gga_field atof atoi (field + 1) tok t) = gpsSpeed t
              /\ (field + 1 < 3 -> latitude (gga_field atof atoi (field + 1) tok t)
                                   = latitude t)
              /\ (field + 1 < 5 -> longitude (gga_field atof atoi (field + 1) tok t)
                                   = longitude t)
              /\ (field + 1 < 7 -> gpsValid (gga_field atof atoi (field + 1) tok t)
                                   = gpsValid t)
              /\ (field + 1 < 8 -> gpsSatellites (gga_field atof atoi (field + 1) tok t)
                                   = gpsSatellites t)
              /\ (field + 1 < 10 -> gpsAltitude (gga_field atof atoi (field + 1) tok t)
                                    = gpsAltitude t)).
    { unfold gga_field.
      repeat match goal with
        | |- context [?a =? ?b] => destruct (Z.eqb_spec a b)
        end;
        repeat match goal with
          | |- context [if ?c then _ else _] => destruct c
          end;
        repeat split; intros; try reflexivity; lia. }
    destruct Hstep as (Ss & Slat & Slon & Sv & Sn & Sa).
    repeat split; intros.
    + now rewrite Hs.
    + rewrite Hlat, Slat by lia. reflexivity.
    + rewrite Hlon, Slon by lia. reflexivity.
    + rewrite Hv, Sv by lia. reflexivity.
    + rewrite Hn, Sn by lia. reflexivity.
    + rewrite Ha, Sa by lia. reflexivity.
Qed.

End MegaGpsFacts.

Section MegaGpsClaims.

Variable atof : cstring -> float.
Variable atoi : cstring -> Z.

(** X4.  [parseGPGGA] numbers the fields of a sentence as [strtok]
    returns them, so it numbers the non-empty fields only: its result is
    the field switch applied to the non-empty comma-separated fields,
    counted from 1, and every empty field moves the fields behind it one
    number down. *)
Theorem parseGPGGA_nonempty_fields (sentence : cstring) (t : GpsData) :
  parseGPGGA atof atoi sentence t
  = gga_fold atof atoi (filter nonempty (fields sentence)) 0 t
  /\ strtok_all (S (List.length sentence)) sentence
     = filter nonempty (fields sentence).
Proof.
  split.
  - apply parseGPGGA_tokens.
  - apply strtok_all_fields. lia.
Qed.

(** X5.  On a sentence whose first ten fields are all non-empty, and
    whose latitude and longitude are angles in range for the 16-bit
    [int], [parseGPGGA] reads latitude and hemisphere from fields 3 and
    4, longitude and hemisphere from fields 5 and 6, the fix flag from
    field 7, the satellite count from field 8 and the altitude from field
    10; the speed is not touched.  The angles stored are those of
    [nmea_degrees], which in range is the conversion on mathematical
    integers. *)
Theorem parseGPGGA_full_sentence
        (f1 f2 f3 f4 f5 f6 f7 f8 f9 f10 : cstring) (more : list cstring)
        (t : GpsData)
        (Hc : forallb comma_free
                (f1 :: f2 :: f3 :: f4 :: f5 :: f6 :: f7 :: f8 :: f9 :: f10 :: more)
              = true)
        (Hn : forallb nonempty [f1; f2; f3; f4; f5; f6; f7; f8; f9; f10] = true)
        (Hlat : nmea_in_range 16 (atof f3) = true)
        (Hlon : nmea_in_range 16 (atof f5) = true) :
  let t' := parseGPGGA atof atoi
              (join (f1 :: f2 :: f3 :: f4 :: f5 :: f6 :: f7 :: f8 :: f9 :: f10 :: more))
              t in
  latitude t'
  = (if Ascii.eqb (first_char f4) "S"%char
     then neg (nmea_degrees (atof f3)) else nmea_degrees (atof f3))
  /\ longitude t'
     = (if Ascii.eqb (first_char f6) "W"%char
        then neg (nmea_degrees (atof f5)) else nmea_degrees (atof f5))
  /\ nmea_degrees (atof f3) = decimal_degrees (atof f3)
  /\ nmea_degrees (atof f5) = decimal_degrees (atof f5)
  /\ gpsValid t' = (0 <? atoi f7)
  /\ gpsSatellites t' = atoi f8
  /\ gpsAltitude t' = atof f10
  /\ gpsSpeed t' = gpsSpeed t.
Proof.
  intros t'. subst t'. rewrite parseGPGGA_tokens. unfold tokens.
  rewrite fields_join by (assumption || discriminate).
  cbn [forallb] in Hn.
  repeat match type of Hn with
    | (_ && _)%bool = true => apply andb_prop in Hn; destruct Hn as [? Hn]
    end.
  cbn [filter].
  repeat match goal with H : nonempty _ = true |- _ => rewrite H; clear H end.
  cbn [gga_fold]. rewrite gga_fold_late by lia.
  cbn [Z.add Pos.add Pos.succ].
  change (gga_field atof atoi 1 f1 t) with t.
  change (gga_field atof atoi 2 f2 t) with t.
  set (t3 := gga_field atof atoi 3 f3 t).
  set (t4 := gga_field atof atoi 4 f4 t3).
  set (t5 := gga_field atof atoi 5 f5 t4).
  set (t6 := gga_field atof atoi 6 f6 t5).
  set (t7 := gga_field atof atoi 7 f7 t6).
  set (t8 := gga_field atof atoi 8 f8 t7).
  change (gga_field atof atoi 9 f9 t8) with t8.
  set (t10 := gga_field atof atoi 10 f10 t8).
  assert (H3 : t3 = set_latitude (nmea_degrees (atof f3)) t) by reflexivity.
  assert (H4 : t4 = if Ascii.eqb (first_char f4) "S"%char
                    then set_latitude (neg (latitude t3)) t3 else t3)
    by reflexivity.
  assert (H5 : t5 = set_longitude (nmea_degrees (atof f5)) t4) by reflexivity.
  assert (H6 : t6 = if Ascii.eqb (first_char f6) "W"%char
                    then set_longitude (neg (longitude t5)) t5 else t5)
    by reflexivity.
  assert (H7 : t7 = set_gpsValid (0 <? atoi f7) t6) by reflexivity.
  assert (H8 : t8 = set_gpsSatellites (atoi f8) t7) by reflexivity.
  assert (H10 : t10 = set_gpsAltitude (atof f10) t8) by reflexivity.
  clearbody t3 t4 t5 t6 t7 t8 t10.
  subst t10 t8 t7 t6 t5.
  pose proof (nmea_degrees_in_range _ Hlat) as Dlat.
  pose proof (nmea_degrees_in_range _ Hlon) as Dlon.
  destruct (Ascii.eqb (first_char f4) "S"%char),
    (Ascii.eqb (first_char f6) "W"%char); subst t4 t3;
    repeat match goal with |- _ /\ _ => split end;
    try reflexivity; assumption.
Qed.

(** X6.  A sentence with fewer than seven non-empty fields, such as the
    ones a receiver sends while it has no fix, leaves [gpsValid],
    [gpsSatellites] and [gpsAltitude] as they were: the fix flag of an
    earlier sentence stays. *)
Theorem parseGPGGA_short_sentence (sentence : cstring) (t : GpsData)
        (H : (List.length (filter nonempty (fields sentence)) < 7)%nat) :
  let t' := parseGPGGA atof atoi sentence t in
  gpsValid t' = gpsValid t
  /\ gpsSatellites t' = gpsSatellites t
  /\ gpsAltitude t' = gpsAltitude t
  /\ gpsSpeed t' = gpsSpeed t.
Proof.
  intros t'. subst t'. rewrite parseGPGGA_tokens. unfold tokens.
  destruct (gga_fold_untouched atof atoi (filter nonempty (fields sentence)) 0 t)
    as (Hs & _ & _ & Hv & Hn & Ha); [ lia | ].
  repeat split; [ apply Hv | apply Hn | apply Ha | apply Hs ]; lia.
Qed.

End MegaGpsClaims.

Lemma parseGPGGA_full_sentence_witness :
  let t' := parseGPGGA atof32 sample_atoi gga_fix no_fix in
  gpsValid t' = true /\ gpsSatellites t' = 8
  /\ gpsAltitude t' = atof32 (chars "545.4")
  /\ latitude t' = decimal_degrees (atof32 (chars "4807.038")).
Proof.
  unfold gga_fix.
  assert (Hlat : nmea_in_range 16 (atof32 (chars "4807.038")) = true)
    by (vm_compute; reflexivity).
  assert (Hlon : nmea_in_range 16 (atof32 (chars "01131.000")) = true)
    by (vm_compute; reflexivity).
  destruct (parseGPGGA_full_sentence atof32 sample_atoi
              (chars "$GPGGA") (chars "123519") (chars "4807.038") (chars "N")
              (chars "01131.000") (chars "E") (chars "1") (chars "08")
              (chars "0.9") (chars "545.4")
              [chars "M"; chars "46.9"; chars "M"; []; chars "*47"]
              no_fix eq_refl eq_refl Hlat Hlon)
    as (Hla & _ & Hd & _ & Hv & Hs & Ha & _).
  cbv zeta. rewrite Hv, Hs, Ha, Hla, <- Hd. repeat split.
Defined.

Lemma parseGPGGA_short_sentence_witness :
  let fixed := parseGPGGA atof32 sample_atoi gga_fix no_fix in
  gpsValid (parseGPGGA atof32 sample_atoi gga_searching fixed) = gpsValid fixed
  /\ gpsSatellites (parseGPGGA atof32 sample_atoi gga_searching fixed)
     = gpsSatellites fixed.
Proof.
  assert (H : (List.length (filter nonempty (fields gga_searching)) < 7)%nat)
    by (vm_compute; lia).
  destruct (parseGPGGA_short_sentence atof32 sample_atoi gga_searching
              (parseGPGGA atof32 sample_atoi gga_fix no_fix) H)
    as (Hv & Hs & _).
  split; [ exact Hv | exact Hs ].
Defined.

(* ------------------------------------------------------------------ *)
(** *** cansat_mega.ino: [readGPS] *)
(* ------------------------------------------------------------------ *)

Section MegaReadGps.

Variable atof : cstring -> float.
Variable atoi : cstring -> Z.

Lemma idx_app (l : rx_line) (c : ascii) : idx (l ++ [c]) = idx l + 1.
Proof. unfold idx. rewrite length_app. cbn [List.length]. lia. Qed.

Lemma gps_char_bound (st : rx_line * GpsData) (c : ascii) :
  idx (fst st) <= 127 -> idx (fst (gps_char atof atoi st c)) <= 127.
Proof.
  destruct st as [line t]. unfold gps_char. cbn [fst].
  destruct (Ascii.eqb c LF || Ascii.eqb c CR); [ cbn; lia | ].
  destruct (idx line <? 127) eqn:E; cbn [fst]; intros H.
  - apply Z.ltb_lt in E. rewrite idx_app. lia.
  - exact H.
Qed.

Lemma readGPS_bound (available : list ascii) (st : rx_line * GpsData) :
  idx (fst st) <= 127 -> idx (fst (readGPS atof atoi available st)) <= 127.
Proof.
  unfold readGPS. revert st.
  induction available as [|c l IH]; intros st H; cbn [fold_left].
  - exact H.
  - apply IH, gps_char_bound, H.
Qed.

Lemma readGPS_app (a b : list ascii) (st : rx_line * GpsData) :
  readGPS atof atoi (a ++ b) st = readGPS atof atoi b (readGPS atof atoi a st).
Proof. unfold readGPS. apply fold_left_app. Qed.

(** Characters that do not end the line are stored while there is room
    for them and the final ['\0']. *)
Lemma readGPS_store (l : list ascii) (line : rx_line) (t : GpsData) :
  one_line l = true -> idx line <= 127 ->
  readGPS atof atoi l (line, t) = (firstn 127 (line ++ l), t).
Proof.
  unfold readGPS. revert line.
  induction l as [|c l IH]; intros line Hl Hi; cbn [fold_left].
  - rewrite app_nil_r, firstn_all2; [ reflexivity | unfold idx in Hi; lia ].
  - cbn [one_line forallb] in Hl. apply andb_prop in Hl. destruct Hl as [Hc Hl].
    unfold gps_char at 2. unfold line_end in Hc.
    destruct (Ascii.eqb c LF || Ascii.eqb c CR); [ discriminate | ].
    destruct (idx line <? 127) eqn:E.
    + apply Z.ltb_lt in E. rewrite IH; [ | exact Hl | rewrite idx_app; lia ].
      rewrite <- app_assoc. reflexivity.
    + apply Z.ltb_ge in E.
      assert (Hlen : List.length line = 127%nat) by (unfold idx in *; lia).
      rewrite IH by assumption.
      rewrite !firstn_app, Hlen, Nat.sub_diag. cbn [firstn]. reflexivity.
Qed.

End MegaReadGps.

Section MegaReadGpsClaims.

Variable atof : cstring -> float.
Variable atoi : cstring -> Z.

(** X7.  Whatever characters arrive, and in however many calls of
    [readGPS] they are read, the buffer index stays between 0 and 127:
    the stores [buffer[idx++] = c] and [buffer[idx] = 0] stay inside the
    128 bytes of the buffer, and a line longer than 127 characters is cut,
    not written past the end. *)
Theorem readGPS_index_in_buffer (received : list ascii) (t : GpsData) :
  let line := fst (readGPS atof atoi received ([], t)) in
  0 <= idx line < BUFFER_SIZE
  /\ forall more : list ascii,
       0 <= idx (fst (readGPS atof atoi more
                        (readGPS atof atoi received ([], t)))) < BUFFER_SIZE.
Proof.
  assert (H : forall l, 0 <= idx (fst (readGPS atof atoi l ([], t))) < BUFFER_SIZE).
  { intros l. split; [ unfold idx; lia | ].
    assert (idx (fst (readGPS atof atoi l ([], t))) <= 127)
      by (apply readGPS_bound; cbn; lia).
    unfold BUFFER_SIZE. lia. }
  split; [ apply H | ]. intros more. rewrite <- readGPS_app. apply H.
Qed.

(** X8.  A line that arrives in two pieces, read by two calls of
    [readGPS], is dealt with when its end-of-line character is read, as
    one line: its first 127 characters as a C string go to [parseGPGGA]
    exactly when there are more than six of them and they start with
    [$GPGGA], and any other line leaves the telemetry alone.  The buffer
    is empty afterwards, so the line feed of a CR LF pair does nothing. *)
Theorem readGPS_line (a b : list ascii) (nl : ascii) (t : GpsData)
        (Hline : one_line (a ++ b) = true)
        (Hnl : line_end nl = true) :
  let line := firstn 127 (a ++ b) in
  let t' := if (6 <? idx line) && starts_with (chars "$GPGGA") (c_str line)
            then parseGPGGA atof atoi (c_str line) t else t in
  readGPS atof atoi (b ++ [nl]) (readGPS atof atoi a ([], t)) = ([], t')
  /\ readGPS atof atoi (b ++ [CR; LF]) (readGPS atof atoi a ([], t)) = ([], t').
Proof.
  intros line t'.
  assert (Hstore : readGPS atof atoi b (readGPS atof atoi a ([], t)) = (line, t)).
  { rewrite <- readGPS_app. apply readGPS_store; [ exact Hline | cbn; lia ]. }
  assert (Hend : forall c, line_end c = true ->
                 gps_char atof atoi (line, t) c = ([], t')).
  { intros c Hc. unfold gps_char. unfold line_end in Hc. rewrite Hc. reflexivity. }
  split.
  - rewrite readGPS_app, Hstore. unfold readGPS. cbn [fold_left].
    apply Hend, Hnl.
  - rewrite readGPS_app, Hstore. unfold readGPS. cbn [fold_left].
    rewrite (Hend CR) by reflexivity. reflexivity.
Qed.

End MegaReadGpsClaims.

Lemma readGPS_line_witness :
  readGPS atof32 sample_atoi (skipn 20 gga_fix ++ [LF])
    (readGPS atof32 sample_atoi (firstn 20 gga_fix) ([], no_fix))
  = ([], parseGPGGA atof32 sample_atoi gga_fix no_fix).
Proof.
  assert (Hline : one_line (firstn 20 gga_fix ++ skipn 20 gga_fix) = true)
    by (vm_compute; reflexivity).
  destruct (readGPS_line atof32 sample_atoi (firstn 20 gga_fix) (skipn 20 gga_fix)
              LF no_fix Hline eq_refl) as [H _].
  rewrite H. rewrite firstn_skipn.
  replace (firstn 127 gga_fix) with gga_fix by (vm_compute; reflexivity).
  replace (c_str gga_fix) with gga_fix by (vm_compute; reflexivity).
  replace ((6 <? idx gga_fix) && starts_with (chars "$GPGGA") gga_fix)
    with true by (vm_compute; reflexivity).
  reflexivity.
Defined.

(* ------------------------------------------------------------------ *)
(** *** The ESP8266 sketch: [parseGPS] *)
(* ------------------------------------------------------------------ *)

Lemma pick_nil (i k : Z) : pick [] i k = None.
Proof. unfold pick. destruct (k <? i); [ | destruct (Z.to_nat (k - i)) ]; reflexivity. Qed.

Lemma pick_cons (tok : cstring) (toks : list cstring) (i k : Z) :
  pick (tok :: toks) i k
  = if k <? i then None else if i =? k then Some tok else pick toks (i + 1) k.
Proof.
  unfold pick. destruct (Z.ltb_spec k i); [ reflexivity | ].
  destruct (Z.eqb_spec i k) as [-> | Hne].
  - now rewrite Z.sub_diag.
  - destruct (Z.ltb_spec k (i + 1)); [ lia | ].
    replace (Z.to_nat (k - i)) with (S (Z.to_nat (k - (i + 1)))) by lia.
    reflexivity.
Qed.

Lemma pick_0 (toks : list cstring) (k : nat) :
  pick toks 0 (Z.of_nat k) = nth_error toks k.
Proof.
  unfold pick. destruct (Z.ltb_spec (Z.of_nat k) 0); [ lia | ].
  now rewrite Z.sub_0_r, Nat2Z.id.
Qed.

Section EspGpsFacts.

Variable atof : cstring -> float.
Variable atoi : cstring -> Z.

Lemma esp_gga_while_fold (fuel : nat) :
  forall (s : cstring) (i : Z) (st : Esp.gga_locals * GpsData),
    (List.length s < fuel)%nat ->
    (let (token, rest) := strtok s in Esp.gga_while atof atoi fuel token rest i st)
    = Esp.gga_fold atof atoi (strtok_all fuel s) i st.
Proof.
  induction fuel as [ | fuel IH]; intros s i st Hlen; [ lia | ].
  cbn [strtok_all]. destruct (strtok s) as [[tok | ] rest] eqn:E.
  - pose proof (strtok_shrinks s tok rest E) as Hr.
    cbn [Esp.gga_while Esp.gga_fold]. apply IH. lia.
  - reflexivity.
Qed.

(** A variable that only field number [k] assigns holds what the [k]-th
    token says, or what it held when there is no such token. *)
Lemma esp_gga_fold_pick {A : Type} (p : Esp.gga_locals * GpsData -> A)
      (f : cstring -> A) (k : Z) :
  (forall i tok st, p (Esp.gga_case atof atoi i tok st)
                    = if i =? k then f tok else p st) ->
  forall toks i st,
    p (Esp.gga_fold atof atoi toks i st)
    = match pick toks i k with Some tok => f tok | None => p st end.
Proof.
  intros Hp. induction toks as [ | tok toks IH]; intros i st.
  - now rewrite pick_nil.
  - cbn [Esp.gga_fold]. rewrite IH, pick_cons, Hp.
    destruct (Z.ltb_spec k i) as [Hlt | Hge].
    + unfold pick. destruct (Z.ltb_spec k (i + 1)); [ | lia ].
      destruct (Z.eqb_spec i k); [ lia | reflexivity ].
    + destruct (Z.eqb_spec i k) as [-> | Hne].
      * unfold pick. destruct (Z.ltb_spec k (k + 1)); [ reflexivity | lia ].
      * reflexivity.
Qed.

Lemma esp_gga_fold_keeps {A : Type} (p : Esp.gga_locals * GpsData -> A) :
  (forall i tok st, p (Esp.gga_case atof atoi i tok st) = p st) ->
  forall toks i st, p (Esp.gga_fold atof atoi toks i st) = p st.
Proof.
  intros Hp. induction toks as [ | tok toks IH]; intros i st; [ reflexivity | ].
  cbn [Esp.gga_fold]. now rewrite IH, Hp.
Qed.

Lemma esp_gga_position_keeps (v : Esp.gga_locals) (t : GpsData) :
  let t' := Esp.gga_position v t in
  gpsValid t' = gpsValid t /\ gpsSatellites t' = gpsSatellites t
  /\ gpsAltitude t' = gpsAltitude t /\ gpsSpeed t' = gpsSpeed t.
Proof.
  unfold Esp.gga_position.
  destruct (gpsValid t && nonzero (Esp.lat v)); [ | now repeat split ].
  destruct (Ascii.eqb (Esp.latDir v) "S"%char),
    (Ascii.eqb (Esp.lonDir v) "W"%char); now repeat split.
Qed.

Lemma esp_rmc_while_pick (fuel : nat) :
  forall (s : cstring) (i : Z) (t : GpsData),
    (List.length s < fuel)%nat -> i <= 7 ->
    (let (token, rest) := strtok s in Esp.rmc_while atof fuel token rest i t)
    = match pick (strtok_all fuel s) i 7 with
      | Some tok => set_gpsSpeed (to_float (F64.mul (atof tok) F64.lit_1_852)) t
      | None => t
      end.
Proof.
  induction fuel as [ | fuel IH]; intros s i t Hlen Hi; [ lia | ].
  cbn [strtok_all]. destruct (strtok s) as [[tok | ] rest] eqn:E.
  - pose proof (strtok_shrinks s tok rest E) as Hr.
    cbn [Esp.rmc_while]. rewrite pick_cons.
    destruct (Z.ltb_spec 7 i); [ lia | ].
    destruct (Z.eqb_spec i 7); [ reflexivity | ].
    apply IH; lia.
  - now rewrite pick_nil.
Qed.

(** The GGA branch as a fold over the tokens of the sentence. *)
Lemma esp_parseGPS_gga_fold (sentence : cstring) (t : GpsData) :
  Esp.is_gga sentence = true ->
  Esp.parseGPS atof atoi sentence t
  = (let (v, t') := Esp.gga_fold atof atoi (tokens sentence) 0 (Esp.gga_locals0, t)
     in Esp.gga_position v t').
Proof.
  intros Hg. unfold Esp.parseGPS. rewrite Hg.
  pose proof (esp_gga_while_fold (S (List.length sentence)) sentence 0
                (Esp.gga_locals0, t)) as H.
  destruct (strtok sentence) as [token rest].
  rewrite H by lia. rewrite strtok_all_fields by lia. reflexivity.
Qed.

Lemma esp_parseGPS_no_fix_fold (v : Esp.gga_locals) (t t' : GpsData) :
  gpsValid (Esp.gga_position v t') = false ->
  latitude t' = latitude t -> longitude t' = longitude t ->
  latitude (Esp.gga_position v t') = latitude t
  /\ longitude (Esp.gga_position v t') = longitude t.
Proof.
  intros Hv Hlat Hlon.
  destruct (esp_gga_position_keeps v t') as (Hk & _). rewrite Hk in Hv.
  unfold Esp.gga_position. rewrite Hv. cbn [andb]. now split.
Qed.

Lemma esp_rmc_tokens (sentence : cstring) (t : GpsData) :
  Esp.is_gga sentence = false -> Esp.is_rmc sentence = true ->
  Esp.parseGPS atof atoi sentence t
  = match nth_error (tokens sentence) 7 with
    | Some tok => set_gpsSpeed (to_float (F64.mul (atof tok) F64.lit_1_852)) t
    | None => t
    end.
Proof.
  intros Hg Hr. unfold Esp.parseGPS. rewrite Hg, Hr.
  pose proof (esp_rmc_while_pick (S (List.length sentence)) sentence 0 t) as H.
  destruct (strtok sentence) as [token rest].
  rewrite H by lia. rewrite strtok_all_fields by lia.
  rewrite (pick_0 _ 7). reflexivity.
Qed.

End EspGpsFacts.

Lemma starts_with_firstn (lit : list ascii) (s : cstring) :
  starts_with lit s = true -> firstn (List.length lit) s = lit.
Proof.
  revert s. induction lit as [ | a lit IH]; intros s H; [ reflexivity | ].
  destruct s as [ | b s]; [ discriminate | ].
  cbn [starts_with] in H. apply andb_prop in H. destruct H as [Hab Hs].
  apply Ascii.eqb_eq in Hab. subst b. cbn [List.length firstn].
  now rewrite IH.
Qed.

Lemma gga_not_rmc (sentence : cstring) :
  Esp.is_rmc sentence = true -> Esp.is_gga sentence = false.
Proof.
  unfold Esp.is_rmc, Esp.is_gga. intros Hr.
  apply orb_true_iff in Hr. apply orb_false_iff.
  split.
  - destruct (starts_with (chars "$GPGGA") sentence) eqn:Eg; [ | reflexivity ].
    apply starts_with_firstn in Eg.
    destruct Hr as [Hr | Hr]; apply starts_with_firstn in Hr;
      cbn [chars list_ascii_of_string List.length] in *; congruence.
  - destruct (starts_with (chars "$GNGGA") sentence) eqn:Eg; [ | reflexivity ].
    apply starts_with_firstn in Eg.
    destruct Hr as [Hr | Hr]; apply starts_with_firstn in Hr;
      cbn [chars list_ascii_of_string List.length] in *; congruence.
Qed.

Lemma esp_nmea_degrees_in_range (raw : float) :
  nmea_in_range 32 raw = true -> Esp.nmea_degrees raw = Esp.decimal_degrees raw.
Proof.
  intros H. destruct (nmea_ints_in_range 32 raw eq_refl H) as [Hc Hm].
  unfold Esp.nmea_degrees, Esp.decimal_degrees. cbv zeta in Hc, Hm.
  now rewrite Hc, Hm.
Qed.

Section EspGpsClaims.

Variable atof : cstring -> float.
Variable atoi : cstring -> Z.

(** What the GGA loop leaves in its local variables and in the
    telemetry, token by token. *)
Lemma esp_gga_fold_fields (toks : list cstring) (t : GpsData) :
  let st := Esp.gga_fold atof atoi toks 0 (Esp.gga_locals0, t) in
  let field := nth_error toks in
  Esp.lat (fst st)
  = match field 2%nat with Some tok => to_float (atof tok) | None => of_int 0 end
  /\ Esp.latDir (fst st)
     = match field 3%nat with Some tok => first_char tok | None => "N"%char end
  /\ Esp.lon (fst st)
     = match field 4%nat with Some tok => to_float (atof tok) | None => of_int 0 end
  /\ Esp.lonDir (fst st)
     = match field 5%nat with Some tok => first_char tok | None => "E"%char end
  /\ gpsValid (snd st)
     = match field 6%nat with Some tok => 0 <? atoi tok | None => gpsValid t end
  /\ gpsSatellites (snd st)
     = match field 7%nat with Some tok => atoi tok | None => gpsSatellites t end
  /\ gpsAltitude (snd st)
     = match field 9%nat with
       | Some tok => to_float (atof tok) | None => gpsAltitude t end
  /\ gpsSpeed (snd st) = gpsSpeed t
  /\ latitude (snd st) = latitude t
  /\ longitude (snd st) = longitude t.
Proof.
  intros st field. subst st field.
  repeat match goal with |- _ /\ _ => split end.
  - rewrite (esp_gga_fold_pick atof atoi (fun st => Esp.lat (fst st))
               (fun tok => to_float (atof tok)) 2) by gga_case_field.
    now rewrite (pick_0 _ 2).
  - rewrite (esp_gga_fold_pick atof atoi (fun st => Esp.latDir (fst st))
               first_char 3) by gga_case_field.
    now rewrite (pick_0 _ 3).
  - rewrite (esp_gga_fold_pick atof atoi (fun st => Esp.lon (fst st))
               (fun tok => to_float (atof tok)) 4) by gga_case_field.
    now rewrite (pick_0 _ 4).
  - rewrite (esp_gga_fold_pick atof atoi (fun st => Esp.lonDir (fst st))
               first_char 5) by gga_case_field.
    now rewrite (pick_0 _ 5).
  - rewrite (esp_gga_fold_pick atof atoi (fun st => gpsValid (snd st))
               (fun tok => 0 <? atoi tok) 6) by gga_case_field.
    now rewrite (pick_0 _ 6).
  - rewrite (esp_gga_fold_pick atof atoi (fun st => gpsSatellites (snd st))
               atoi 7) by gga_case_field.
    now rewrite (pick_0 _ 7).
  - rewrite (esp_gga_fold_pick atof atoi (fun st => gpsAltitude (snd st))
               (fun tok => to_float (atof tok)) 9) by gga_case_field.
    now rewrite (pick_0 _ 9).
  - now rewrite (esp_gga_fold_keeps atof atoi (fun st => gpsSpeed (snd st)))
      by gga_case_field.
  - now rewrite (esp_gga_fold_keeps atof atoi (fun st => latitude (snd st)))
      by gga_case_field.
  - now rewrite (esp_gga_fold_keeps atof atoi (fun st => longitude (snd st)))
      by gga_case_field.
Qed.

(** X9.  [parseGPS] on a GGA sentence ([$GPGGA] or [$GNGGA]), in terms
    of the tokens [strtok] finds, counted from 0: fix flag, satellite
    count and altitude are those of tokens 6, 7 and 9, each kept as it
    was when the sentence has no such token; the speed is kept; and the
    position is rewritten, from tokens 2 to 5, exactly when the fix flag
    now stored is set and the latitude read is not zero.  The angles read
    are taken in range for the 32-bit [int]; the angles stored are those
    of [nmea_degrees], which in range is the conversion on mathematical
    integers. *)
Theorem esp_parseGPS_gga (sentence : cstring) (t : GpsData)
        (Hgga : Esp.is_gga sentence = true)
        (Hlat : nmea_in_range 32
                  match token_at sentence 2 with
                  | Some tok => to_float (atof tok) | None => of_int 0 end
                = true)
        (Hlon : nmea_in_range 32
                  match token_at sentence 4 with
                  | Some tok => to_float (atof tok) | None => of_int 0 end
                = true) :
  let field := token_at sentence in
  let t' := Esp.parseGPS atof atoi sentence t in
  let lat := match field 2%nat with
             | Some tok => to_float (atof tok) | None => of_int 0 end in
  let lon := match field 4%nat with
             | Some tok => to_float (atof tok) | None => of_int 0 end in
  let south := match field 3%nat with
               | Some tok => Ascii.eqb (first_char tok) "S"%char
               | None => false end in
  let west := match field 5%nat with
              | Some tok => Ascii.eqb (first_char tok) "W"%char
              | None => false end in
  gpsValid t'
  = match field 6%nat with Some tok => 0 <? atoi tok | None => gpsValid t end
  /\ gpsSatellites t'
     = match field 7%nat with Some tok => atoi tok | None => gpsSatellites t end
  /\ gpsAltitude t'
     = match field 9%nat with
       | Some tok => to_float (atof tok) | None => gpsAltitude t end
  /\ gpsSpeed t' = gpsSpeed t
  /\ latitude t'
     = (if gpsValid t' && nonzero lat
        then (if south then neg (Esp.nmea_degrees lat) else Esp.nmea_degrees lat)
        else latitude t)
  /\ longitude t'
     = (if gpsValid t' && nonzero lat
        then (if west then neg (Esp.nmea_degrees lon) else Esp.nmea_degrees lon)
        else longitude t)
  /\ Esp.nmea_degrees lat = Esp.decimal_degrees lat
  /\ Esp.nmea_degrees lon = Esp.decimal_degrees lon.
Proof.
  cbv zeta. unfold token_at in *.
  rewrite esp_parseGPS_gga_fold by exact Hgga.
  destruct (esp_gga_fold_fields (tokens sentence) t)
    as (Hla0 & Hlatd & Hlo0 & Hlond & Hv & Hn & Ha & Hs & Hla & Hlo).
  destruct (Esp.gga_fold atof atoi (tokens sentence) 0 (Esp.gga_locals0, t))
    as [v t1].
  cbn [fst snd] in *.
  destruct (esp_gga_position_keeps v t1) as (Kv & Kn & Ka & Ks).
  rewrite Kv, Kn, Ka, Ks.
  repeat match goal with |- _ /\ _ => split end; try assumption.
  - unfold Esp.gga_position. rewrite Hla0, Hlatd.
    destruct (gpsValid t1 && nonzero _); [ | exact Hla ].
    destruct (nth_error (tokens sentence) 3) as [tok | ];
      [ destruct (Ascii.eqb (first_char tok) "S"%char) | cbn [Ascii.eqb] ];
      destruct (Ascii.eqb (Esp.lonDir v) "W"%char); reflexivity.
  - unfold Esp.gga_position. rewrite Hla0, Hlo0, Hlond.
    destruct (gpsValid t1 && nonzero _); [ | exact Hlo ].
    destruct (nth_error (tokens sentence) 5) as [tok | ];
      [ destruct (Ascii.eqb (first_char tok) "W"%char) | cbn [Ascii.eqb] ];
      destruct (Ascii.eqb (Esp.latDir v) "S"%char); reflexivity.
  - now apply esp_nmea_degrees_in_range.
  - now apply esp_nmea_degrees_in_range.
Qed.

(** X10.  [parseGPS] on an RMC sentence ([$GPRMC] or [$GNRMC]) stores
    the speed only: token 7, counted from 0, times 1.852 as a binary64
    product rounded to binary32; without such a token nothing changes.
    Every other part of the GPS data is kept. *)
Theorem esp_parseGPS_rmc (sentence : cstring) (t : GpsData)
        (Hrmc : Esp.is_rmc sentence = true) :
  let t' := Esp.parseGPS atof atoi sentence t in
  gpsSpeed t'
  = match token_at sentence 7 with
    | Some tok => to_float (F64.mul (atof tok) F64.lit_1_852)
    | None => gpsSpeed t
    end
  /\ latitude t' = latitude t /\ longitude t' = longitude t
  /\ gpsAltitude t' = gpsAltitude t /\ gpsSatellites t' = gpsSatellites t
  /\ gpsValid t' = gpsValid t.
Proof.
  intros t'. subst t'.
  rewrite esp_rmc_tokens by (try apply gga_not_rmc; exact Hrmc).
  unfold token_at. destruct (nth_error (tokens sentence) 7); now repeat split.
Qed.

(** X11.  Whatever the sentence, [parseGPS] keeps the position when it
    leaves the fix flag unset: a position is only ever stored together
    with a fix. *)
Theorem esp_position_needs_fix (sentence : cstring) (t : GpsData)
        (Hnofix : gpsValid (Esp.parseGPS atof atoi sentence t) = false) :
  latitude (Esp.parseGPS atof atoi sentence t) = latitude t
  /\ longitude (Esp.parseGPS atof atoi sentence t) = longitude t.
Proof.
  destruct (Esp.is_gga sentence) eqn:Eg.
  - rewrite esp_parseGPS_gga_fold in * by exact Eg.
    destruct (esp_gga_fold_fields (tokens sentence) t)
      as (_ & _ & _ & _ & _ & _ & _ & _ & Hla & Hlo).
    destruct (Esp.gga_fold atof atoi (tokens sentence) 0 (Esp.gga_locals0, t))
      as [v t1].
    cbn [snd] in *. now apply esp_parseGPS_no_fix_fold.
  - destruct (Esp.is_rmc sentence) eqn:Er.
    + rewrite esp_rmc_tokens by assumption.
      destruct (nth_error (tokens sentence) 7); now split.
    + unfold Esp.parseGPS. rewrite Eg, Er. now split.
Qed.

End EspGpsClaims.

Lemma esp_parseGPS_gga_witness :
  let t' := Esp.parseGPS atof64 sample_atoi gga_fix no_fix in
  gpsValid t' = true /\ gpsSatellites t' = 8
  /\ latitude t' = Esp.decimal_degrees (to_float (atof64 (chars "4807.038"))).
Proof.
  assert (Hgga : Esp.is_gga gga_fix = true) by (vm_compute; reflexivity).
  assert (Hlat : nmea_in_range 32
                   match token_at gga_fix 2 with
                   | Some tok => to_float (atof64 tok) | None => of_int 0 end
                 = true) by (vm_compute; reflexivity).
  assert (Hlon : nmea_in_range 32
                   match token_at gga_fix 4 with
                   | Some tok => to_float (atof64 tok) | None => of_int 0 end
                 = true) by (vm_compute; reflexivity).
  destruct (esp_parseGPS_gga atof64 sample_atoi gga_fix no_fix Hgga Hlat Hlon)
    as (Hv & Hn & _ & _ & Hla & _ & Hd & _).
  cbv zeta. rewrite Hla, Hn, Hv. vm_compute. repeat split.
Defined.

Lemma esp_parseGPS_rmc_witness :
  gpsSpeed (Esp.parseGPS atof64 sample_atoi rmc_moving no_fix)
  = to_float (F64.mul (atof64 (chars "022.4")) F64.lit_1_852).
Proof.
  assert (Hrmc : Esp.is_rmc rmc_moving = true) by (vm_compute; reflexivity).
  destruct (esp_parseGPS_rmc atof64 sample_atoi rmc_moving no_fix Hrmc)
    as (Hs & _).
  rewrite Hs. vm_compute. reflexivity.
Defined.

Lemma esp_position_needs_fix_witness :
  let fixed := Esp.parseGPS atof64 sample_atoi gga_fix no_fix in
  gpsValid fixed = true
  /\ latitude (Esp.parseGPS atof64 sample_atoi gga_lost fixed) = latitude fixed
  /\ longitude (Esp.parseGPS atof64 sample_atoi gga_lost fixed) = longitude fixed.
Proof.
  assert (Hnofix : gpsValid (Esp.parseGPS atof64 sample_atoi gga_lost
                               (Esp.parseGPS atof64 sample_atoi gga_fix no_fix))
                   = false) by (vm_compute; reflexivity).
  split; [ vm_compute; reflexivity | ].
  exact (esp_position_needs_fix atof64 sample_atoi gga_lost
           (Esp.parseGPS atof64 sample_atoi gga_fix no_fix) Hnofix).
Defined.

(* ------------------------------------------------------------------ *)
(** *** The ESP8266 sketch: [readGPS] *)
(* ------------------------------------------------------------------ *)

Section EspReadGps.

Variable atof : cstring -> float.
Variable atoi : cstring -> Z.

Lemma esp_gps_char_bound (st : rx_line * GpsData) (c : ascii) :
  idx (fst st) <= 127 -> idx (fst (Esp.gps_char atof atoi st c)) <= 127.
Proof.
  destruct st as [line t]. unfold Esp.gps_char. cbn [fst].
  destruct (Ascii.eqb c LF || Ascii.eqb c CR).
  - destruct (0 <? idx line); cbn [fst]; [ cbn; lia | trivial ].
  - destruct (Z.ltb_spec (idx line) (128 - 1)) as [E | E]; cbn [fst]; intros H.
    + rewrite idx_app. lia.
    + exact H.
Qed.

Lemma esp_readGPS_bound (available : list ascii) (st : rx_line * GpsData) :
  idx (fst st) <= 127 -> idx (fst (Esp.readGPS atof atoi available st)) <= 127.
Proof.
  unfold Esp.readGPS. revert st.
  induction available as [|c l IH]; intros st H; cbn [fold_left].
  - exact H.
  - apply IH, esp_gps_char_bound, H.
Qed.

Lemma esp_readGPS_app (a b : list ascii) (st : rx_line * GpsData) :
  Esp.readGPS atof atoi (a ++ b) st
  = Esp.readGPS atof atoi b (Esp.readGPS atof atoi a st).
Proof. unfold Esp.readGPS. apply fold_left_app. Qed.

Lemma esp_readGPS_store (l : list ascii) (line : rx_line) (t : GpsData) :
  one_line l = true -> idx line <= 127 ->
  Esp.readGPS atof atoi l (line, t) = (firstn 127 (line ++ l), t).
Proof.
  unfold Esp.readGPS. revert line.
  induction l as [|c l IH]; intros line Hl Hi; cbn [fold_left].
  - rewrite app_nil_r, firstn_all2; [ reflexivity | unfold idx in Hi; lia ].
  - cbn [one_line forallb] in Hl. apply andb_prop in Hl. destruct Hl as [Hc Hl].
    unfold Esp.gps_char at 2. unfold line_end in Hc.
    destruct (Ascii.eqb c LF || Ascii.eqb c CR); [ discriminate | ].
    destruct (Z.ltb_spec (idx line) (128 - 1)) as [E | E].
    + rewrite IH; [ | exact Hl | rewrite idx_app; lia ].
      rewrite <- app_assoc. reflexivity.
    + assert (Hlen : List.length line = 127%nat) by (unfold idx in *; lia).
      rewrite IH by assumption.
      rewrite !firstn_app, Hlen, Nat.sub_diag. cbn [firstn]. reflexivity.
Qed.

(** X12.  The same for the other sketch: whatever arrives, in however
    many calls, [gpsBufferIndex] stays between 0 and 127, inside
    [gpsBuffer], the terminating zero included. *)
Theorem esp_readGPS_index_in_buffer (received : list ascii) (t : GpsData) :
  let line := fst (Esp.readGPS atof atoi received ([], t)) in
  0 <= idx line < BUFFER_SIZE
  /\ forall more : list ascii,
       0 <= idx (fst (Esp.readGPS atof atoi more
                        (Esp.readGPS atof atoi received ([], t)))) < BUFFER_SIZE.
Proof.
  assert (H : forall l,
             0 <= idx (fst (Esp.readGPS atof atoi l ([], t))) < BUFFER_SIZE).
  { intros l. split; [ unfold idx; lia | ].
    assert (idx (fst (Esp.readGPS atof atoi l ([], t))) <= 127)
      by (apply esp_readGPS_bound; cbn; lia).
    unfold BUFFER_SIZE. lia. }
  split; [ apply H | ]. intros more. rewrite <- esp_readGPS_app. apply H.
Qed.

(** X13.  Every line that is not empty goes to [parseGPS], cut to 127
    characters, when its end-of-line character is read, also when it
    arrived in two pieces; an empty line does nothing, so the line feed
    of a CR LF pair does not parse the line again. *)
Theorem esp_readGPS_line (a b : list ascii) (nl : ascii) (t : GpsData)
        (Hline : one_line (a ++ b) = true)
        (Hnl : line_end nl = true) :
  let line := firstn 127 (a ++ b) in
  let t' := if 0 <? idx line then Esp.parseGPS atof atoi (c_str line) t else t in
  Esp.readGPS atof atoi (b ++ [nl]) (Esp.readGPS atof atoi a ([], t)) = ([], t')
  /\ Esp.readGPS atof atoi (b ++ [CR; LF]) (Esp.readGPS atof atoi a ([], t))
     = ([], t').
Proof.
  intros line t'.
  assert (Hstore : Esp.readGPS atof atoi b (Esp.readGPS atof atoi a ([], t))
                   = (line, t)).
  { rewrite <- esp_readGPS_app. apply esp_readGPS_store; [ exact Hline | cbn; lia ]. }
  assert (Hend : forall c, line_end c = true ->
                 Esp.gps_char atof atoi (line, t) c = ([], t')).
  { intros c Hc. unfold Esp.gps_char. unfold line_end in Hc. rewrite Hc.
    subst t'. destruct (Z.ltb_spec 0 (idx line)) as [Hpos | Hzero];
      [ reflexivity | ].
    destruct line; [ reflexivity | unfold idx in Hzero; cbn in Hzero; lia ]. }
  split.
  - rewrite esp_readGPS_app, Hstore. unfold Esp.readGPS. cbn [fold_left].
    apply Hend, Hnl.
  - rewrite esp_readGPS_app, Hstore. unfold Esp.readGPS. cbn [fold_left].
    rewrite (Hend CR) by reflexivity. reflexivity.
Qed.

End EspReadGps.

Lemma esp_readGPS_line_witness :
  Esp.readGPS atof64 sample_atoi (skipn 20 rmc_moving ++ [CR; LF])
    (Esp.readGPS atof64 sample_atoi (firstn 20 rmc_moving) ([], no_fix))
  = ([], Esp.parseGPS atof64 sample_atoi rmc_moving no_fix).
Proof.
  assert (Hline : one_line (firstn 20 rmc_moving ++ skipn 20 rmc_moving) = true)
    by (vm_compute; reflexivity).
  destruct (esp_readGPS_line atof64 sample_atoi (firstn 20 rmc_moving)
              (skipn 20 rmc_moving) LF no_fix Hline eq_refl) as [_ H].
  rewrite H. rewrite firstn_skipn.
  replace (firstn 127 rmc_moving) with rmc_moving by (vm_compute; reflexivity).
  replace (c_str rmc_moving) with rmc_moving by (vm_compute; reflexivity).
  replace (0 <? idx rmc_moving) with true by (vm_compute; reflexivity).
  reflexivity.
Defined.

(* ------------------------------------------------------------------ *)
(** *** The ESP8266 sketch: parachute *)
(* ------------------------------------------------------------------ *)

Lemma pin_level_app (pin : Z) (l : list stamped) (e : stamped) :
  pin_level pin (l ++ [e])
  = match what e with
    | DigitalWrite p v => if p =? pin then v else pin_level pin l
    | _ => pin_level pin l
    end.
Proof. unfold pin_level. rewrite fold_left_app. reflexivity. Qed.

(** [n] rounds of the flashing loop take [n] times 100 ms and invert
    the LED [n] times. *)
Lemma flash_spec (n : nat) (w : hardware) :
  let w' := exec (Esp.flash n) w in
  now w' = now w + 100000 * Z.of_nat n
  /\ pin_level Esp.LED_PIN (log w')
     = (if Nat.even n then pin_level Esp.LED_PIN (log w)
        else negb (pin_level Esp.LED_PIN (log w)))
  /\ List.length (log w') = (List.length (log w) + 2 * n)%nat
  /\ echo w' = echo w.
Proof.
  revert w. induction n as [ | n IH]; intros w.
  - cbn. repeat split; lia.
  - set (w1 := emit (1000 * 100) (Delay 100)
                 (emit 0 (DigitalWrite Esp.LED_PIN
                            (negb (pin_level Esp.LED_PIN (log w)))) w)).
    change (exec (Esp.flash (S n)) w) with (exec (Esp.flash n) w1).
    destruct (IH w1) as (Hnow & Hled & Hlen & Hecho). cbv zeta.
    rewrite Hnow, Hled, Hlen, Hecho.
    assert (L1 : pin_level Esp.LED_PIN (log w1)
                 = negb (pin_level Esp.LED_PIN (log w))).
    { unfold w1. cbn [emit log what]. rewrite !pin_level_app. cbn [what].
      now rewrite Z.eqb_refl. }
    rewrite L1. unfold w1. cbn [emit now log echo]. rewrite !length_app.
    cbn [List.length]. rewrite Nat.even_succ, <- Nat.negb_even.
    repeat split; try lia.
    destruct (Nat.even n); cbn [negb]; [ reflexivity | apply negb_involutive ].
Qed.

Lemma deployParachute_armed (m : machine Esp.SensorData) :
  Esp.parachuteDeployed (mem m) = false ->
  exec Esp.deployParachute m
  = {| hw := exec (Esp.flash 10) (hw m);
       mem := Esp.set_parachute true "PARACHUTE DEPLOYED" (mem m) |}.
Proof.
  intros H. unfold Esp.deployParachute, exec. rewrite H. cbn [negb].
  unfold bind, on_mem, on_hw, modify. cbn [hw mem snd].
  destruct (Esp.flash 10 (hw m)) as [u w]. reflexivity.
Qed.

Lemma deployParachute_latched (m : machine Esp.SensorData) :
  Esp.parachuteDeployed (mem m) = true -> exec Esp.deployParachute m = m.
Proof. intros H. unfold Esp.deployParachute, exec. now rewrite H. Qed.

Lemma checkAutoDeployment_latched (m : machine Esp.SensorData) :
  Esp.parachuteDeployed (mem m) = true -> exec Esp.checkAutoDeployment m = m.
Proof.
  intros H. unfold Esp.checkAutoDeployment, exec. rewrite H.
  cbn [negb]. now rewrite andb_false_r.
Qed.

(** X14.  Deploying a parachute that is not yet deployed sets the flag
    and the status, leaves the GPS data alone, holds the program for one
    second, and after its ten inversions the LED is at the level it had
    before. *)
Theorem esp_deployParachute_effect (m : machine Esp.SensorData)
        (Harmed : Esp.parachuteDeployed (mem m) = false) :
  let m' := exec Esp.deployParachute m in
  Esp.parachuteDeployed (mem m') = true
  /\ Esp.status (mem m') = "PARACHUTE DEPLOYED"%string
  /\ Esp.gps (mem m') = Esp.gps (mem m)
  /\ now (hw m') = now (hw m) + 1000 * 1000
  /\ pin_level Esp.LED_PIN (log (hw m')) = pin_level Esp.LED_PIN (log (hw m))
  /\ List.length (log (hw m')) = (List.length (log (hw m)) + 20)%nat.
Proof.
  cbv zeta. rewrite deployParachute_armed by exact Harmed. cbn [hw mem].
  destruct (flash_spec 10 (hw m)) as (Hnow & Hled & Hlen & _).
  cbv zeta in Hnow, Hled, Hlen. rewrite Hnow, Hled, Hlen.
  repeat match goal with |- _ /\ _ => split end; try reflexivity; lia.
Qed.

(** X15.  Once the parachute is deployed, nothing but a request for
    [/reset] changes that: automatic checks, requests for [/deploy] and
    GPS sentences, in any number and order, leave the flag and the status
    as they are, flash nothing and take no time. *)
Theorem esp_parachute_latch (l : list Esp.action) (m : machine Esp.SensorData)
        (Hdeployed : Esp.parachuteDeployed (mem m) = true)
        (Hnoreset : forallb (fun a => negb (Esp.is_reset a)) l = true) :
  hw (Esp.run l m) = hw m
  /\ Esp.parachuteDeployed (mem (Esp.run l m)) = true
  /\ Esp.status (mem (Esp.run l m)) = Esp.status (mem m).
Proof.
  revert m Hdeployed. induction l as [ | a l IH]; intros m Hd.
  - now repeat split.
  - cbn [forallb] in Hnoreset. apply andb_prop in Hnoreset.
    destruct Hnoreset as [Ha Hl]. unfold Esp.run. cbn [fold_left].
    fold (Esp.run l (exec (Esp.act a) m)).
    assert (Hstep : hw (exec (Esp.act a) m) = hw m
                    /\ Esp.parachuteDeployed (mem (exec (Esp.act a) m)) = true
                    /\ Esp.status (mem (exec (Esp.act a) m)) = Esp.status (mem m)).
    { destruct a as [ | | | g]; cbn [Esp.act Esp.is_reset negb] in *.
      - rewrite checkAutoDeployment_latched by exact Hd. now repeat split.
      - unfold Esp.handleDeploy.
        rewrite deployParachute_latched by exact Hd. now repeat split.
      - discriminate.
      - cbn. now repeat split. }
    destruct Hstep as (S1 & S2 & S3).
    destruct (IH Hl _ S2) as (I1 & I2 & I3).
    rewrite I1, I2, I3. now repeat split.
Qed.


Lemma esp_deployParachute_effect_witness :
  let m' := exec Esp.deployParachute esp_ready in
  Esp.parachuteDeployed (mem m') = true /\ now (hw m') = 1000000
  /\ pin_level Esp.LED_PIN (log (hw m')) = LOW.
Proof.
  destruct (esp_deployParachute_effect esp_ready eq_refl)
    as (Hd & _ & _ & Hnow & Hled & _).
  cbv zeta. rewrite Hd, Hnow, Hled. repeat split.
Defined.

Lemma esp_parachute_latch_witness :
  let deployed := exec Esp.deployParachute esp_ready in
  hw (Esp.run [Esp.AutoCheck; Esp.WebDeploy;
               Esp.Sentence (Esp.parseGPS atof64 sample_atoi gga_low)] deployed)
  = hw deployed.
Proof.
  assert (Hd : Esp.parachuteDeployed (mem (exec Esp.deployParachute esp_ready))
               = true) by (vm_compute; reflexivity).
  exact (proj1 (esp_parachute_latch
                  [Esp.AutoCheck; Esp.WebDeploy;
                   Esp.Sentence (Esp.parseGPS atof64 sample_atoi gga_low)]
                  (exec Esp.deployParachute esp_ready) Hd eq_refl)).
Defined.

Lemma checkAutoDeployment_armed (m : machine Esp.SensorData) :
  Esp.parachuteDeployed (mem m) = false ->
  exec Esp.checkAutoDeployment m
  = if gpsValid (Esp.gps (mem m))
       && gt (gpsAltitude (Esp.gps (mem m))) (of_int 0)
       && lt (gpsAltitude (Esp.gps (mem m))) (of_int 50)
    then exec Esp.deployParachute m else m.
Proof.
  intros H. unfold Esp.checkAutoDeployment, exec. rewrite H. cbn [negb].
  rewrite andb_true_r.
  now destruct (gpsValid (Esp.gps (mem m))
                && gt (gpsAltitude (Esp.gps (mem m))) (of_int 0)
                && lt (gpsAltitude (Esp.gps (mem m))) (of_int 50)).
Qed.

Section EspDescent.

Variable atof : cstring -> float.
Variable atoi : cstring -> Z.

(** X16.  From a GGA sentence to the parachute: with the parachute not
    yet deployed, a GGA sentence followed by the automatic check deploys
    exactly when the fix flag (token 6, or the flag held before when the
    sentence has none) is set and the altitude (token 9 as a binary32
    number, or the altitude held before) is above 0 and below 50; the
    check then takes one second, and no time otherwise. *)
Theorem esp_sentence_to_parachute (sentence : cstring)
        (m : machine Esp.SensorData)
        (Hgga : Esp.is_gga sentence = true)
        (Harmed : Esp.parachuteDeployed (mem m) = false) :
  let m' := Esp.run [Esp.Sentence (Esp.parseGPS atof atoi sentence);
                     Esp.AutoCheck] m in
  let has_fix := match token_at sentence 6 with
             | Some tok => 0 <? atoi tok
             | None => gpsValid (Esp.gps (mem m)) end in
  let alt := match token_at sentence 9 with
             | Some tok => to_float (atof tok)
             | None => gpsAltitude (Esp.gps (mem m)) end in
  Esp.parachuteDeployed (mem m')
  = has_fix && gt alt (of_int 0) && lt alt (of_int 50)
  /\ now (hw m')
     = now (hw m) + (if Esp.parachuteDeployed (mem m') then 1000 * 1000 else 0).
Proof.
  cbv zeta. unfold token_at, Esp.run. cbn [fold_left Esp.act].
  set (m1 := exec (on_mem _) m).
  assert (Hm1 : m1 = {| hw := hw m;
                        mem := Esp.set_gps (Esp.parseGPS atof atoi sentence
                                              (Esp.gps (mem m))) (mem m) |})
    by reflexivity.
  clearbody m1. subst m1.
  set (g := Esp.parseGPS atof atoi sentence (Esp.gps (mem m))).
  assert (Hflags : gpsValid g
                   = match nth_error (tokens sentence) 6 with
                     | Some tok => 0 <? atoi tok
                     | None => gpsValid (Esp.gps (mem m)) end
                   /\ gpsAltitude g
                      = match nth_error (tokens sentence) 9 with
                        | Some tok => to_float (atof tok)
                        | None => gpsAltitude (Esp.gps (mem m)) end).
  { subst g. rewrite esp_parseGPS_gga_fold by exact Hgga.
    destruct (esp_gga_fold_fields atof atoi (tokens sentence) (Esp.gps (mem m)))
      as (_ & _ & _ & _ & Hv & _ & Ha & _).
    destruct (Esp.gga_fold atof atoi (tokens sentence) 0
                (Esp.gga_locals0, Esp.gps (mem m))) as [v t1].
    cbn [snd] in *.
    destruct (esp_gga_position_keeps v t1) as (Kv & _ & Ka & _).
    now rewrite Kv, Ka. }
  destruct Hflags as [Hv Ha]. rewrite <- Hv, <- Ha. clearbody g.
  set (m1 := {| hw := hw m; mem := Esp.set_gps g (mem m) |}).
  assert (Harmed1 : Esp.parachuteDeployed (mem m1) = false) by exact Harmed.
  rewrite (checkAutoDeployment_armed m1 Harmed1).
  change (Esp.gps (mem m1)) with g.
  destruct (gpsValid g && gt (gpsAltitude g) (of_int 0)
            && lt (gpsAltitude g) (of_int 50)).
  - rewrite deployParachute_armed by exact Harmed1. cbn [hw mem].
    destruct (flash_spec 10 (hw m)) as (Hnow & _).
    cbv zeta in Hnow. cbn [Esp.set_parachute Esp.parachuteDeployed].
    split; [ reflexivity | ]. change (hw m1) with (hw m). rewrite Hnow. lia.
  - rewrite Harmed1. split; [ reflexivity | ]. change (hw m1) with (hw m). lia.
Qed.

End EspDescent.

Lemma esp_sentence_to_parachute_witness :
  let m' := Esp.run [Esp.Sentence (Esp.parseGPS atof64 sample_atoi gga_low);
                     Esp.AutoCheck] esp_ready in
  Esp.parachuteDeployed (mem m') = true.
Proof.
  assert (Hgga : Esp.is_gga gga_low = true) by (vm_compute; reflexivity).
  destruct (esp_sentence_to_parachute atof64 sample_atoi gga_low esp_ready
              Hgga eq_refl) as [H _].
  cbv zeta. rewrite H. vm_compute. reflexivity.
Defined.

(* ------------------------------------------------------------------ *)
(** *** Temperature and humidity *)
(* ------------------------------------------------------------------ *)

Lemma last_cons {A : Type} (a d : A) (l : list A) : last (a :: l) d = last l a.
Proof.
  revert a d. induction l as [ | b l IH]; intros a d; [ reflexivity | ].
  change (last (a :: b :: l) d) with (last (b :: l) d).
  now rewrite (IH b d), (IH b a).
Qed.

Lemma last_number_cons (x s : float) (samples : list float) :
  last_number x (s :: samples)
  = last_number (if is_nan s then x else s) samples.
Proof.
  unfold last_number. cbn [filter].
  destruct (is_nan s); cbn [negb]; [ reflexivity | apply last_cons ].
Qed.

Lemma last_number_is_number (x : float) (samples : list float) :
  is_nan x = false -> is_nan (last_number x samples) = false.
Proof.
  revert x. induction samples as [ | s samples IH]; intros x Hx; [ exact Hx | ].
  rewrite last_number_cons. apply IH. destruct (is_nan s) eqn:E; assumption.
Qed.

Lemma esp_read_dht_fold (samples : list (float * float)) (t : Esp.SensorData) :
  let t' := fold_left Esp.read_dht samples t in
  Esp.temperature t' = last_number (Esp.temperature t) (map fst samples)
  /\ Esp.humidity t' = last_number (Esp.humidity t) (map snd samples).
Proof.
  revert t. induction samples as [ | [temp hum] samples IH]; intros t.
  - now split.
  - cbn [fold_left map fst snd]. rewrite !last_number_cons.
    destruct (IH (Esp.read_dht t (temp, hum))) as [Ht Hh].
    cbv zeta in *. rewrite Ht, Hh. unfold Esp.read_dht.
    cbn [fst snd Esp.set_humidity Esp.set_temperature Esp.temperature
         Esp.humidity Esp.readTemperature Esp.readHumidity].
    unfold Esp.readTemperature, Esp.readHumidity.
    cbn [Esp.set_temperature Esp.humidity Esp.temperature]. now split.
Qed.

Lemma mega_readDHT_fold (samples : list (float * float)) (t h : float) :
  fold_left (fun held sample => readDHT sample held) samples (t, h)
  = (last_number t (map fst samples), last_number h (map snd samples)).
Proof.
  revert t h. induction samples as [ | [temp hum] samples IH]; intros t h.
  - reflexivity.
  - cbn [fold_left map fst snd]. rewrite !last_number_cons.
    unfold readDHT at 2. rewrite IH.
    destruct (is_nan temp), (is_nan hum); reflexivity.
Qed.

(** X17.  In both sketches the temperature and the humidity shown are
    those of the last reading of the sensor that was a number, each on
    its own, and the values held before when there was none; so a value
    that is a number is never replaced by a NaN. *)
Theorem dht_holds_last_number (samples : list (float * float)) :
  (forall t : Esp.SensorData,
     let t' := fold_left Esp.read_dht samples t in
     Esp.temperature t' = last_number (Esp.temperature t) (map fst samples)
     /\ Esp.humidity t' = last_number (Esp.humidity t) (map snd samples)
     /\ (is_nan (Esp.temperature t) = false -> is_nan (Esp.temperature t') = false)
     /\ (is_nan (Esp.humidity t) = false -> is_nan (Esp.humidity t') = false))
  /\ (forall t h : float,
        let held := fold_left (fun held sample => readDHT sample held)
                      samples (t, h) in
        held = (last_number t (map fst samples), last_number h (map snd samples))
        /\ (is_nan t = false -> is_nan (fst held) = false)
        /\ (is_nan h = false -> is_nan (snd held) = false)).
Proof.
  split.
  - intros t. destruct (esp_read_dht_fold samples t) as [Ht Hh]. cbv zeta in *.
    rewrite Ht, Hh.
    repeat match goal with |- _ /\ _ => split end; try reflexivity;
      apply last_number_is_number.
  - intros t h. cbv zeta. rewrite mega_readDHT_fold. cbn [fst snd].
    repeat match goal with |- _ /\ _ => split end; try reflexivity;
      apply last_number_is_number.
Qed.

(* ------------------------------------------------------------------ *)
(** *** Battery voltage *)
(* ------------------------------------------------------------------ *)

Lemma battery_steps :
  forallb (fun raw => lt (Esp.readBatteryVoltage raw)
                         (Esp.readBatteryVoltage (raw + 1))) (counts 1024)
  = true.
Proof. vm_compute. reflexivity. Qed.

Lemma battery_step (raw : Z) :
  0 <= raw < 1024 ->
  lt (Esp.readBatteryVoltage raw) (Esp.readBatteryVoltage (raw + 1)) = true.
Proof.
  intros H. pose proof battery_steps as Hall.
  rewrite forallb_forall in Hall. apply Hall. unfold counts.
  apply in_map_iff. exists (Z.to_nat raw). split; [ lia | ].
  apply in_seq. lia.
Qed.

Lemma battery_increasing (n : nat) (raw : Z) :
  0 <= raw -> raw + Z.of_nat (S n) <= 1024 ->
  lt (Esp.readBatteryVoltage raw)
     (Esp.readBatteryVoltage (raw + Z.of_nat (S n))) = true.
Proof.
  induction n as [ | n IH]; intros H0 H1.
  - apply battery_step. lia.
  - apply (lt_trans _ (Esp.readBatteryVoltage (raw + Z.of_nat (S n)))).
    + apply IH; lia.
    + replace (raw + Z.of_nat (S (S n))) with (raw + Z.of_nat (S n) + 1) by lia.
      apply battery_step. lia.
Qed.

(** X18.  Over the counts 0 to 1024 that [analogRead] can give,
    [readBatteryVoltage] is strictly increasing: it is 0 at count 0,
    the binary32 value of 4.2 at count 1024, and a larger count always
    gives a larger voltage, the rounding to binary32 notwithstanding. *)
Theorem esp_battery_increasing (raw1 raw2 : Z)
        (Hrange : 0 <= raw1 < raw2 /\ raw2 <= 1024) :
  lt (Esp.readBatteryVoltage raw1) (Esp.readBatteryVoltage raw2) = true
  /\ Esp.readBatteryVoltage 0 = of_int 0
  /\ Esp.readBatteryVoltage 1024 = to_float Esp.lit_4_2.
Proof.
  split; [ | split; vm_compute; reflexivity ].
  replace raw2 with (raw1 + Z.of_nat (S (Z.to_nat (raw2 - raw1 - 1)))) by lia.
  apply battery_increasing; lia.
Qed.

Lemma esp_battery_increasing_witness :
  lt (Esp.readBatteryVoltage 511) (Esp.readBatteryVoltage 512) = true.
Proof.
  apply (esp_battery_increasing 511 512). lia.
Defined.

(* ------------------------------------------------------------------ *)
(** *** Level ground *)
(* ------------------------------------------------------------------ *)

Lemma sub_self (d : float) :
  sub d d = S754_nan \/ exists s, sub d d = S754_zero s.
Proof.
  destruct d as [s | s | | s m e].
  - right. exists false. destruct s; reflexivity.
  - left. destruct s; reflexivity.
  - left. reflexivity.
  - right. exists false. unfold sub, SFsub.
    set (x := cond_Zopp s _).
    replace (x - x) with 0 by (change IntDef.Z.sub with Z.sub; lia).
    reflexivity.
Qed.

Lemma sub_self_small (d : float) :
  gt (sub d d) (of_int 50) = false /\ gt (sub d d) (of_int 20) = false.
Proof. destruct (sub_self d) as [-> | [s ->]]; split; reflexivity. Qed.

Lemma level_extremes (s : list float) (d : float) :
  lt d (of_int 9999) = true ->
  (forall x, In x (valid_samples s) -> x = d) ->
  0 < count_valid s ->
  let a := fold_left accumulate s acc0 in
  minDist a = d /\ maxDist a = d /\ (0 <? validCount a) = true.
Proof.
  intros Hcap Hall Hsome a.
  assert (Ha : a = fold_left accumulate (valid_samples s) acc0)
    by apply fold_accumulate_valid.
  destruct (fold_extremes (valid_samples s) (valid_samples_valid s))
    as [Hb [Hmax Hmin]].
  rewrite <- Ha in Hb, Hmax, Hmin.
  assert (Hin : In d (valid_samples s)).
  { unfold count_valid in Hsome.
    destruct (valid_samples s) as [ | y v] eqn:Hv; [ simpl in Hsome; lia | ].
    rewrite (Hall y) at 1 by now left. now left. }
  repeat split.
  - destruct Hmin as [H | H]; [ now apply Hall | ].
    destruct (Hb d Hin) as [_ Hlo]. rewrite H in Hlo. congruence.
  - apply Hall. destruct (valid_samples s); [ destruct Hin | exact Hmax ].
  - apply Z.ltb_lt. unfold a. rewrite fold_validCount. simpl validCount. lia.
Qed.

(** X19.  Level ground is FLAT-SAFE: when the valid samples of a sweep
    all are the same distance, below 9999 cm, and fewer than three
    samples are invalid, either sketch reports that distance as minimum
    and as maximum and the status FLAT-SAFE. *)
Theorem level_ground_flat (s5 s6 : list float) (d : float)
        (H5 : List.length s5 = 5%nat) (H6 : List.length s6 = 6%nat)
        (Hp : forallb producible s6 = true)
        (Hcap : lt d (of_int 9999) = true)
        (Hl5 : forall x, In x (valid_samples s5) -> x = d)
        (Hl6 : forall x, In x (valid_samples s6) -> x = d)
        (Hi5 : count_invalid s5 < 3) (Hi6 : count_invalid s6 < 3) :
  (forall g,
      let g' := Scanner.readTerrainArray_on s5 g in
      classification_of (Scanner.terrainStatus g') = Some FLAT_SAFE
      /\ Scanner.terrainMin g' = d /\ Scanner.terrainMax g' = d)
  /\ (forall t,
         let t' := Mega.readTerrainArray_on s6 t in
         classification_of (Mega.terrainStatus t') = Some FLAT_SAFE
         /\ Mega.terrainMin t' = d /\ Mega.terrainMax t' = d).
Proof.
  pose proof (count_split s5) as C5. pose proof (count_split s6) as C6.
  rewrite H5 in C5. rewrite H6 in C6.
  assert (V5 : 0 < count_valid s5) by lia.
  assert (V6 : 0 < count_valid s6) by lia.
  destruct (level_extremes s5 d Hcap Hl5 V5) as (Emin5 & Emax5 & Ec5).
  destruct (level_extremes s6 d Hcap Hl6 V6) as (Emin6 & Emax6 & Ec6).
  destruct (sub_self_small d) as [G50 G20].
  split.
  - intros g g'. subst g'. rewrite (Scanner_rule_chain s5 g H5).
    destruct (Scanner_stats_of s5 g) as (-> & -> & _). cbv zeta.
    rewrite Ec5, Emin5, Emax5. unfold rule_chain. rewrite G50, G20.
    destruct (Z.leb_spec 3 (count_invalid s5)); [ lia | ].
    destruct (Z.ltb_spec 0 (count_valid s5)); [ now repeat split | lia ].
  - intros t t'. subst t'. rewrite (Mega_rule_chain s6 t H6 Hp).
    destruct (Mega_stats_of s6 t) as (-> & -> & _). cbv zeta.
    rewrite Emin6, Emax6. unfold rule_chain. rewrite G50, G20.
    destruct (Z.leb_spec 3 (count_invalid s6)); [ lia | ].
    destruct (Z.ltb_spec 0 (count_valid s6)); [ now repeat split | lia ].
Qed.

Lemma level_ground_flat_witness :
  classification_of
    (Scanner.terrainStatus (Scanner.readTerrainArray_on level5 Scanner.initial))
  = Some FLAT_SAFE
  /\ Mega.terrainMax (Mega.readTerrainArray_on level6 Mega.initial) = cm 100.
Proof.
  assert (Hl5 : forall x, In x (valid_samples level5) -> x = cm 100).
  { intros x Hx. vm_compute in Hx. vm_compute. intuition congruence. }
  assert (Hl6 : forall x, In x (valid_samples level6) -> x = cm 100).
  { intros x Hx. vm_compute in Hx. vm_compute. intuition congruence. }
  assert (Hi5 : count_invalid level5 < 3) by (vm_compute; reflexivity).
  assert (Hi6 : count_invalid level6 < 3) by (vm_compute; reflexivity).
  destruct (level_ground_flat level5 level6 (cm 100) eq_refl eq_refl eq_refl
              eq_refl Hl5 Hl6 Hi5 Hi6) as [Hs Hm].
  split; [ apply (Hs Scanner.initial) | apply (Hm Mega.initial) ].
Defined.

(* ------------------------------------------------------------------ *)
(** *** terrain_scanner.ino: [loop] *)
(* ------------------------------------------------------------------ *)

Lemma channel_pin_level (trig pin led : Z) (w : hardware) :
  led <> trig ->
  pin_level led (log (exec (delay SETTLE_MS) (snd (readSingleUltrasonic trig pin w))))
  = pin_level led (log w).
Proof.
  intros Hled.
  unfold readSingleUltrasonic, bind, digitalWrite, delayMicroseconds, pulseIn,
    exec, delay, modify.
  cbv beta iota zeta.
  destruct (to_long _ =? 0); cbn [snd ret emit log now echo];
    rewrite !pin_level_app; cbn [what];
    destruct (Z.eqb_spec trig led); congruence.
Qed.

Lemma sweep_hw_pin_level (trig : Z) (pins : list Z) (led : Z) (n : nat) :
  led <> trig ->
  forall (i : nat) (w : hardware),
    pin_level led (log (sweep_hw trig pins n i w)) = pin_level led (log w).
Proof.
  intros Hled. induction n as [ | n IH]; intros i w; [ reflexivity | ].
  cbn [sweep_hw].
  pose proof (channel_pin_level trig (nth i pins 0) led w Hled) as Hc.
  destruct (readSingleUltrasonic trig (nth i pins 0) w) as [dist w1].
  cbn [snd] in Hc. now rewrite IH.
Qed.

Lemma Scanner_sweep_on_scanCount (s : list float) (i : nat) (a : acc)
      (g : Scanner.globals) :
  Scanner.scanCount (snd (sweep_on Scanner.set_terrain s i a g))
  = Scanner.scanCount g.
Proof.
  revert i a g. induction s as [ | d s IH]; intros i a g; [ reflexivity | ].
  cbn [sweep_on]. now rewrite IH.
Qed.

Lemma Scanner_run_scanCount (m : machine Scanner.globals) :
  Scanner.scanCount (mem (exec Scanner.readTerrainArray m))
  = Scanner.scanCount (mem m).
Proof.
  rewrite Scanner_run, Scanner_on_eq. unfold Scanner.finish.
  match goal with
  | |- context [Scanner.analyzeTerrain ?vc ?g] =>
      destruct (Scanner_analyze_terrain vc g) as [_ ->]
  end.
  cbn [Scanner.set_stats Scanner.scanCount]. apply Scanner_sweep_on_scanCount.
Qed.

Lemma elapsed_on_32_bits (T T0 : Z) :
  0 <= T - T0 < 2 ^ 32 -> (T mod 2 ^ 32 - T0 mod 2 ^ 32) mod 2 ^ 32 = T - T0.
Proof.
  intros H. rewrite <- Zminus_mod. apply Z.mod_small. exact H.
Qed.

Lemma loop_idle (lastScan : Z) (m : machine Scanner.globals) :
  ((now (hw m) / 1000) mod 2 ^ 32 - lastScan) mod 2 ^ 32 < 500 ->
  ScannerMain.loop lastScan m = (lastScan, m).
Proof.
  intros H. unfold ScannerMain.loop, bind, on_hw, millis. cbn [hw mem].
  unfold ScannerMain.SCAN_INTERVAL.
  destruct (Z.leb_spec 500 (((now (hw m) / 1000) mod 2 ^ 32 - lastScan) mod 2 ^ 32));
    [ lia | ].
  unfold ret. now destruct m.
Qed.

Lemma loop_scan (lastScan : Z) (m : machine Scanner.globals) :
  500 <= ((now (hw m) / 1000) mod 2 ^ 32 - lastScan) mod 2 ^ 32 ->
  let m1 := exec Scanner.readTerrainArray
              {| hw := hw m; mem := ScannerMain.count_scan (mem m) |} in
  ScannerMain.loop lastScan m
  = ((now (hw m) / 1000) mod 2 ^ 32,
     {| hw := emit 0 (DigitalWrite ScannerMain.LED_PIN
                        (negb (pin_level ScannerMain.LED_PIN (log (hw m1)))))
                (hw m1);
        mem := mem m1 |}).
Proof.
  intros H m1. unfold ScannerMain.loop, bind at 1, on_hw at 1, millis at 1.
  cbn [hw mem]. unfold ScannerMain.SCAN_INTERVAL.
  destruct (Z.leb_spec 500 (((now (hw m) / 1000) mod 2 ^ 32 - lastScan) mod 2 ^ 32));
    [ | lia ].
  unfold bind at 1, on_hw at 1, millis. cbn [hw mem].
  unfold bind at 1, on_mem at 1, modify at 1. cbn [hw mem].
  unfold bind at 1. fold m1.
  change (Scanner.readTerrainArray
            {| hw := hw m; mem := ScannerMain.count_scan (mem m) |})
    with (Scanner.readTerrainArray
            {| hw := hw m; mem := ScannerMain.count_scan (mem m) |}).
  unfold m1, exec.
  destruct (Scanner.readTerrainArray
              {| hw := hw m; mem := ScannerMain.count_scan (mem m) |})
    as [u m2].
  cbn [snd]. unfold bind, on_hw, digitalRead, digitalWrite, modify, ret.
  cbn [hw mem]. reflexivity.
Qed.

(** X20.  One pass of [loop] of the scanner, [elapsed] milliseconds
    after the scan before it (fewer than 2^32, whatever [millis()] has
    wrapped around to in between): before 500 ms it does nothing at all;
    from 500 ms on it scans once, notes the time, counts the scan and
    inverts the LED, which the sweep itself never touches. *)
Theorem scanner_loop_interval (lastScan T0 : Z) (m : machine Scanner.globals)
        (Hlast : lastScan = T0 mod 2 ^ 32)
        (Hsince : 0 <= now (hw m) / 1000 - T0 < 2 ^ 32) :
  let elapsed := now (hw m) / 1000 - T0 in
  let lastScan' := fst (ScannerMain.loop lastScan m) in
  let m' := snd (ScannerMain.loop lastScan m) in
  (elapsed < 500 -> lastScan' = lastScan /\ m' = m)
  /\ (500 <= elapsed ->
      lastScan' = (now (hw m) / 1000) mod 2 ^ 32
      /\ mem m' = mem (exec Scanner.readTerrainArray
                         {| hw := hw m; mem := ScannerMain.count_scan (mem m) |})
      /\ Scanner.scanCount (mem m')
         = (Scanner.scanCount (mem m) + 1) mod 2 ^ 32
      /\ pin_level ScannerMain.LED_PIN (log (hw m'))
         = negb (pin_level ScannerMain.LED_PIN (log (hw m)))
      /\ now (hw m')
         = now (sweep_hw Scanner.TRIG_PIN Scanner.echoPins 5 0 (hw m))).
Proof.
  cbv zeta.
  pose proof (elapsed_on_32_bits (now (hw m) / 1000) T0 Hsince) as He.
  rewrite <- Hlast in He.
  split; intros Hel.
  - rewrite loop_idle by lia. now split.
  - rewrite loop_scan by lia. cbn [fst snd hw mem].
    repeat match goal with |- _ /\ _ => split end.
    + reflexivity.
    + reflexivity.
    + now rewrite Scanner_run_scanCount.
    + cbn [emit log]. rewrite pin_level_app. cbn [what].
      rewrite Z.eqb_refl. f_equal. rewrite Scanner_run_hw. cbn [hw].
      apply sweep_hw_pin_level. discriminate.
    + cbn [emit now]. rewrite Scanner_run_hw. cbn [hw]. lia.
Qed.

Lemma scanner_loop_interval_witness :
  fst (ScannerMain.loop 0 scanner_at_600ms) = 600
  /\ Scanner.scanCount (mem (snd (ScannerMain.loop 0 scanner_at_600ms))) = 1.
Proof.
  assert (Hsince : 0 <= now (hw scanner_at_600ms) / 1000 - 0 < 2 ^ 32)
    by (vm_compute; split; [ discriminate | reflexivity ]).
  destruct (scanner_loop_interval 0 0 scanner_at_600ms eq_refl Hsince)
    as [_ H].
  destruct H as (Hl & _ & Hc & _); [ vm_compute; discriminate | ].
  split; [ rewrite Hl | rewrite Hc ]; reflexivity.
Defined.

(* ================================================================== *)
(** ** Rounding to nearest: what [binary_round_aux] computes *)
(* ================================================================== *)

Lemma record_of_loc_m (m : Z) (l : location) :
  shr_m (shr_record_of_loc m l) = m.
Proof. destruct l as [ | [ | | ]]; reflexivity. Qed.

Lemma loc_of_record (m : Z) (l : location) :
  loc_of_shr_record (shr_record_of_loc m l) = l.
Proof. destruct l as [ | [ | | ]]; reflexivity. Qed.

(** One step of the shift halves the quotient [N / D] and keeps track of
    where it lies. *)
Lemma shr_1_loc (N D : Z) :
  0 <= N -> 0 < D ->
  shr_1 (shr_record_of_loc (N / D) (loc_of N D))
  = shr_record_of_loc (N / (D * 2)) (loc_of N (D * 2)).
Proof.
  intros HN HD.
  assert (Hq2 : N / (D * 2) = N / D / 2) by (rewrite Z.div_div; lia).
  assert (Hr2 : N mod (D * 2) = N mod D + D * ((N / D) mod 2))
    by (apply Z.rem_mul_r; lia).
  pose proof (Z.mod_pos_bound N D HD) as Hr.
  assert (Hq : 0 <= N / D) by (apply Z.div_pos; lia).
  unfold loc_of. rewrite Hq2, Hr2.
  generalize dependent (N mod D). generalize dependent (N / D).
  intros q _ Hq r _ Hr.
  destruct q as [ | [p | p | ] | p]; try lia.
  - (* q = 0 *)
    change (0 / 2) with 0. change (0 mod 2) with 0.
    replace (r + D * 0) with r by lia.
    destruct (Z.eqb_spec r 0) as [-> | Hr0]; [ reflexivity | ].
    replace (2 * r ?= D * 2) with Lt
      by (symmetry; apply Z.compare_lt_iff; lia).
    destruct (2 * r ?= D); reflexivity.
  - (* q = 2p + 1 *)
    replace (Z.pos p~1 / 2) with (Z.pos p)
      by (rewrite Pos2Z.inj_xI; apply Z.div_unique with 1; lia).
    replace (Z.pos p~1 mod 2) with 1
      by (rewrite Pos2Z.inj_xI; apply Z.mod_unique with (Z.pos p); lia).
    destruct (Z.eqb_spec (r + D * 1) 0); [ lia | ].
    destruct (Z.eqb_spec r 0) as [-> | Hr0].
    + replace (2 * (0 + D * 1) ?= D * 2) with Eq
        by (symmetry; apply Z.compare_eq_iff; lia).
      reflexivity.
    + replace (2 * (r + D * 1) ?= D * 2) with Gt
        by (symmetry; apply Z.compare_gt_iff; lia).
      destruct (2 * r ?= D); reflexivity.
  - (* q = 2p *)
    replace (Z.pos p~0 / 2) with (Z.pos p)
      by (rewrite Pos2Z.inj_xO; apply Z.div_unique with 0; lia).
    replace (Z.pos p~0 mod 2) with 0
      by (rewrite Pos2Z.inj_xO; apply Z.mod_unique with (Z.pos p); lia).
    replace (r + D * 0) with r by lia.
    destruct (Z.eqb_spec r 0) as [-> | Hr0]; [ reflexivity | ].
    replace (2 * r ?= D * 2) with Lt
      by (symmetry; apply Z.compare_lt_iff; lia).
    destruct (2 * r ?= D); reflexivity.
  - (* q = 1 *)
    change (1 / 2) with 0. change (1 mod 2) with 1.
    destruct (Z.eqb_spec (r + D * 1) 0); [ lia | ].
    destruct (Z.eqb_spec r 0) as [-> | Hr0].
    + replace (2 * (0 + D * 1) ?= D * 2) with Eq
        by (symmetry; apply Z.compare_eq_iff; lia).
      reflexivity.
    + replace (2 * (r + D * 1) ?= D * 2) with Gt
        by (symmetry; apply Z.compare_gt_iff; lia).
      destruct (2 * r ?= D); reflexivity.
Qed.

Lemma iter_pos_nat {A : Type} (f : A -> A) (p : positive) (x : A) :
  SpecFloat.iter_pos f p x = Nat.iter (Pos.to_nat p) f x.
Proof.
  assert (Hc : forall n y, Nat.iter n f (f y) = f (Nat.iter n f y)).
  { induction n as [ | n IHn]; intros y; [ reflexivity | ].
    simpl. now rewrite IHn. }
  revert x. induction p as [p IH | p IH | ]; intros x; cbn [SpecFloat.iter_pos].
  - rewrite !IH.
    replace (Pos.to_nat p~1) with (S (Pos.to_nat p + Pos.to_nat p)) by lia.
    change (Nat.iter (S (Pos.to_nat p + Pos.to_nat p)) f x)
      with (f (Nat.iter (Pos.to_nat p + Pos.to_nat p) f x)).
    now rewrite Nat.iter_add, !Hc.
  - rewrite !IH.
    replace (Pos.to_nat p~0) with (Pos.to_nat p + Pos.to_nat p)%nat by lia.
    now rewrite Nat.iter_add.
  - reflexivity.
Qed.

Lemma iter_shr_loc (n : nat) (N D : Z) :
  0 <= N -> 0 < D ->
  Nat.iter n shr_1 (shr_record_of_loc (N / D) (loc_of N D))
  = shr_record_of_loc (N / (D * 2 ^ Z.of_nat n)) (loc_of N (D * 2 ^ Z.of_nat n)).
Proof.
  intros HN HD. induction n as [ | n IH].
  - simpl Nat.iter. change (2 ^ Z.of_nat 0) with 1. now rewrite Z.mul_1_r.
  - change (Nat.iter (S n) shr_1 (shr_record_of_loc (N / D) (loc_of N D)))
      with (shr_1 (Nat.iter n shr_1 (shr_record_of_loc (N / D) (loc_of N D)))).
    rewrite IH.
    assert (Hp : 0 < 2 ^ Z.of_nat n) by (apply Z.pow_pos_nonneg; lia).
    rewrite shr_1_loc by nia.
    replace (D * 2 ^ Z.of_nat n * 2) with (D * 2 ^ Z.of_nat (S n)).
    + reflexivity.
    + rewrite Nat2Z.inj_succ, Z.pow_succ_r by lia. ring.
Qed.

(** The shift of [shr] by [p >= 0] places on the quotient [N / D]. *)
Lemma shr_loc (N D e p : Z) :
  0 <= N -> 0 < D -> 0 <= p ->
  shr (shr_record_of_loc (N / D) (loc_of N D)) e p
  = (shr_record_of_loc (N / (D * 2 ^ p)) (loc_of N (D * 2 ^ p)), e + p).
Proof.
  intros HN HD Hp. unfold shr. destruct p as [ | p | p]; try lia.
  - change (2 ^ 0) with 1. now rewrite Z.mul_1_r, Z.add_0_r.
  - rewrite iter_pos_nat, iter_shr_loc by assumption.
    now rewrite positive_nat_Z.
Qed.

Lemma zdigits_bounds (n : Z) :
  0 < n -> 2 ^ (Zdigits2 n - 1) <= n < 2 ^ Zdigits2 n.
Proof.
  intros Hn. destruct n as [ | p | p]; try lia.
  cbn [Zdigits2]. rewrite digits_log2.
  replace (Z.log2 (Z.pos p) + 1 - 1) with (Z.log2 (Z.pos p)) by lia.
  replace (Z.log2 (Z.pos p) + 1) with (Z.succ (Z.log2 (Z.pos p))) by lia.
  apply Z.log2_spec. lia.
Qed.

Lemma zdigits_nonneg (n : Z) : 0 <= Zdigits2 n.
Proof. destruct n; cbn [Zdigits2]; lia. Qed.

Lemma zdigits_upper (n : Z) : 0 <= n -> n < 2 ^ Zdigits2 n.
Proof.
  intros Hn. destruct (Z.eq_dec n 0) as [-> | Hn0]; [ reflexivity | ].
  apply zdigits_bounds. lia.
Qed.

Lemma zdigits_le (n k : Z) : 0 <= n -> 0 <= k -> n < 2 ^ k -> Zdigits2 n <= k.
Proof.
  intros Hn Hk Hlt. destruct (Z.eq_dec n 0) as [-> | Hn0]; [ exact Hk | ].
  destruct (zdigits_bounds n ltac:(lia)) as [Hlo _].
  destruct (Z.le_gt_cases (Zdigits2 n) k) as [H | H]; [ exact H | exfalso ].
  assert (2 ^ k <= 2 ^ (Zdigits2 n - 1)) by (apply Z.pow_le_mono_r; lia).
  lia.
Qed.

Lemma zdigits_ge (n k : Z) : 0 <= k -> 2 ^ k <= n -> k + 1 <= Zdigits2 n.
Proof.
  intros Hk Hle.
  assert (Hn : 0 < n) by (pose proof (Z.pow_pos_nonneg 2 k); lia).
  destruct (zdigits_bounds n Hn) as [_ Hhi].
  pose proof (zdigits_nonneg n).
  destruct (Z.le_gt_cases (k + 1) (Zdigits2 n)) as [H' | H']; [ exact H' | exfalso ].
  assert (2 ^ Zdigits2 n <= 2 ^ k) by (apply Z.pow_le_mono_r; lia).
  lia.
Qed.

Lemma rne_bounds (N D : Z) : N / D <= rne N D <= N / D + 1.
Proof.
  unfold rne, round_nearest_even.
  destruct (loc_of N D) as [ | [ | | ]]; try lia.
  destruct (Z.even (N / D)); lia.
Qed.

Section RoundingFacts.

Variables prec emax : Z.
Hypothesis Hprec : 1 < prec.

Lemma fexp_mono (x y : Z) : x <= y -> fexp prec emax x <= fexp prec emax y.
Proof. unfold fexp. lia. Qed.

(** What [binary_round_aux] computes for a quotient [N / D] scaled by
    [2 ^ e], when the exponent of the format at its magnitude is not
    below [e]. *)
Lemma round_aux_rounded (s : bool) (N D e : Z) :
  0 <= N -> 0 < D ->
  0 <= fexp prec emax (Zdigits2 (N / D) + e) - e ->
  let p := fexp prec emax (Zdigits2 (N / D) + e) - e in
  binary_round_aux prec emax s (N / D) e (loc_of N D)
  = rounded prec emax s N (D * 2 ^ p) (e + p)
  /\ framed prec emax N (D * 2 ^ p) (e + p).
Proof.
  intros HN HD Hp0 p.
  assert (Hq : 0 <= N / D) by (apply Z.div_pos; lia).
  pose proof (zdigits_upper (N / D) Hq) as Hdq.
  pose proof (zdigits_nonneg (N / D)) as Hdq0.
  set (dq := Zdigits2 (N / D)) in *.
  set (E := e + p).
  assert (HE : E = fexp prec emax (dq + e)) by (unfold E, p; lia).
  assert (H2p : 0 < 2 ^ p) by (apply Z.pow_pos_nonneg; lia).
  assert (H2prec : 0 < 2 ^ (prec - 1)) by (apply Z.pow_pos_nonneg; lia).
  assert (H2prec' : 2 ^ prec = 2 * 2 ^ (prec - 1)).
  { replace prec with (Z.succ (prec - 1)) at 1 by lia. apply Z.pow_succ_r. lia. }
  assert (HK : 0 < D * 2 ^ p) by nia.
  assert (Hmod : N = D * (N / D) + N mod D) by (apply Z.div_mod; lia).
  pose proof (Z.mod_pos_bound N D HD) as Hr.
  assert (Hfr : framed prec emax N (D * 2 ^ p) E).
  { unfold framed. repeat match goal with |- _ /\ _ => split end;
      try assumption.
    - assert (Hdp : dq <= p + prec) by (unfold fexp in HE; lia).
      assert (Hpow : 2 ^ dq <= 2 ^ (p + prec)) by (apply Z.pow_le_mono_r; lia).
      rewrite Z.pow_add_r in Hpow by lia. nia.
    - unfold fexp in HE. lia.
    - intros Hemin.
      assert (Hdp : dq = p + prec) by (unfold fexp in HE; lia).
      assert (Hqpos : 0 < N / D).
      { destruct (Z.eq_dec (N / D) 0) as [H0 | H0]; [ | lia ].
        unfold dq in Hdp. rewrite H0 in Hdp. cbn [Zdigits2] in Hdp. lia. }
      destruct (zdigits_bounds (N / D) Hqpos) as [Hlo _]. fold dq in Hlo.
      rewrite Hdp in Hlo.
      replace (p + prec - 1) with (p + (prec - 1)) in Hlo by lia.
      rewrite Z.pow_add_r in Hlo by lia. nia. }
  split; [ | exact Hfr ].
  destruct Hfr as (_ & _ & Hlt & Hemin & _).
  unfold binary_round_aux, shr_fexp. fold dq. fold p.
  rewrite shr_loc by assumption.
  rewrite record_of_loc_m, loc_of_record.
  fold (rne N (D * 2 ^ p)). fold E.
  pose proof (rne_bounds N (D * 2 ^ p)) as Hn.
  assert (Hfl : N / (D * 2 ^ p) < 2 ^ prec)
    by (apply Z.div_lt_upper_bound; lia).
  assert (Hfl0 : 0 <= N / (D * 2 ^ p)) by (apply Z.div_pos; lia).
  set (n := rne N (D * 2 ^ p)) in *.
  unfold rounded. fold n. unfold norm.
  destruct (Z.eqb_spec n (2 ^ prec)) as [Hov | Hov].
  - assert (Hd : Zdigits2 n = prec + 1).
    { apply Z.le_antisymm.
      - apply zdigits_le; try lia. rewrite Hov.
        apply Z.pow_lt_mono_r; lia.
      - apply zdigits_ge; lia. }
    rewrite Hd.
    replace (fexp prec emax (prec + 1 + E) - E) with 1 by (unfold fexp; lia).
    unfold shr. cbn [SpecFloat.iter_pos].
    rewrite shr_1_m by (cbn [shr_record_of_loc shr_m]; lia).
    cbn [shr_record_of_loc shr_m]. rewrite Hov, H2prec'.
    replace (2 * 2 ^ (prec - 1) / 2) with (2 ^ (prec - 1))
      by (apply Z.div_unique with 0; lia).
    unfold pack. cbn [fst snd]. reflexivity.
  - assert (Hd : Zdigits2 n <= prec) by (apply zdigits_le; lia).
    assert (Hsh : fexp prec emax (Zdigits2 n + E) - E <= 0)
      by (unfold fexp; lia).
    unfold shr.
    destruct (fexp prec emax (Zdigits2 n + E) - E) as [ | k | k]; try lia;
      cbn [shr_record_of_loc shr_m]; unfold pack; cbn [fst snd]; reflexivity.
Qed.

End RoundingFacts.

Lemma floor_mono (N1 K1 N2 K2 : Z) :
  0 < K1 -> 0 < K2 -> N1 * K2 <= N2 * K1 -> N1 / K1 <= N2 / K2.
Proof.
  intros H1 H2 Hle.
  pose proof (Z.div_mod N1 K1 ltac:(lia)) as E1.
  pose proof (Z.div_mod N2 K2 ltac:(lia)) as E2.
  pose proof (Z.mod_pos_bound N1 K1 H1) as R1.
  pose proof (Z.mod_pos_bound N2 K2 H2) as R2.
  destruct (Z.le_gt_cases (N1 / K1) (N2 / K2)) as [H | H]; [ exact H | exfalso ].
  assert (Hq : N2 / K2 + 1 <= N1 / K1) by lia.
  assert (Ha : (N2 / K2 + 1) * K1 * K2 <= N1 / K1 * K1 * K2) by nia.
  nia.
Qed.

(** Rounding to nearest is monotone. *)
Lemma rne_mono (N1 K1 N2 K2 : Z) :
  0 < K1 -> 0 < K2 -> N1 * K2 <= N2 * K1 -> rne N1 K1 <= rne N2 K2.
Proof.
  intros H1 H2 Hle.
  pose proof (floor_mono N1 K1 N2 K2 H1 H2 Hle) as Hq.
  pose proof (rne_bounds N1 K1) as B1. pose proof (rne_bounds N2 K2) as B2.
  destruct (Z.eq_dec (N1 / K1) (N2 / K2)) as [Heq | Hne]; [ | lia ].
  pose proof (Z.div_mod N1 K1 ltac:(lia)) as E1.
  pose proof (Z.div_mod N2 K2 ltac:(lia)) as E2.
  pose proof (Z.mod_pos_bound N1 K1 H1) as R1.
  pose proof (Z.mod_pos_bound N2 K2 H2) as R2.
  assert (Hr : N1 mod K1 * K2 <= N2 mod K2 * K1).
  { rewrite Heq in E1. nia. }
  clear B1 B2 E1 E2 Hq.
  unfold rne, round_nearest_even, loc_of. rewrite Heq.
  revert R1 R2 Hr. generalize (N1 mod K1) (N2 mod K2).
  intros r1 r2 R1 R2 Hr.
  destruct (Z.eqb_spec r1 0) as [Z1 | Z1]; destruct (Z.eqb_spec r2 0) as [Z2 | Z2];
    try destruct (Z.compare_spec (2 * r1) K1);
    try destruct (Z.compare_spec (2 * r2) K2);
    try destruct (Z.even (N2 / K2)); try lia; try nia.
Qed.

Lemma SFleb_refl (x : spec_float) : is_nan x = false -> SFleb x x = true.
Proof.
  unfold SFleb. destruct x as [s | s | | s m e]; try discriminate; intros _.
  - reflexivity.
  - destruct s; reflexivity.
  - cbn [SFcompare]. rewrite Z.compare_refl, compare_cont_spec, Pos.compare_refl.
    destruct s; reflexivity.
Qed.

Section RoundingOrder.

Variables prec emax : Z.
Hypothesis Hprec : 1 < prec.

Lemma pack_le (n1 E1 n2 E2 : Z) :
  0 <= n1 -> 0 <= n2 ->
  (E1 < E2 /\ 0 < n2) \/ (E1 = E2 /\ n1 <= n2) ->
  SFleb (pack prec emax false (n1, E1)) (pack prec emax false (n2, E2)) = true.
Proof.
  intros H1 H2 H. unfold pack, SFleb. cbn [fst snd].
  destruct n1 as [ | m1 | m1], n2 as [ | m2 | m2]; try lia.
  - reflexivity.
  - destruct (E2 <=? emax - prec); reflexivity.
  - destruct (Z.leb_spec E1 (emax - prec)), (Z.leb_spec E2 (emax - prec));
      cbn [SFcompare]; try reflexivity; try lia.
    destruct (Z.compare_spec E1 E2); try lia; try reflexivity.
    rewrite compare_cont_spec.
    destruct (Pos.compare_spec m1 m2); try reflexivity. lia.
Qed.

(** The float nearest to a number is not above the float nearest to a
    number that is not below it. *)
Lemma rounded_mono (N1 K1 E1 N2 K2 E2 : Z) :
  framed prec emax N1 K1 E1 -> framed prec emax N2 K2 E2 ->
  value_le N1 K1 E1 N2 K2 E2 ->
  SFleb (rounded prec emax false N1 K1 E1) (rounded prec emax false N2 K2 E2)
  = true.
Proof.
  intros (HN1 & HK1 & Hlt1 & Hmin1 & Hnorm1) (HN2 & HK2 & Hlt2 & Hmin2 & Hnorm2) Hle.
  assert (H2prec : 0 < 2 ^ (prec - 1)) by (apply Z.pow_pos_nonneg; lia).
  assert (H2prec' : 2 ^ prec = 2 * 2 ^ (prec - 1)).
  { replace prec with (Z.succ (prec - 1)) at 1 by lia. apply Z.pow_succ_r. lia. }
  unfold value_le in Hle.
  assert (HE : E1 <= E2).
  { destruct (Z.le_gt_cases E1 E2) as [H | H]; [ exact H | exfalso ].
    rewrite Z.min_r in Hle by lia. rewrite Z.sub_diag in Hle.
    change (2 ^ 0) with 1 in Hle.
    assert (Hp : 2 <= 2 ^ (E1 - E2)).
    { change 2 with (2 ^ 1) at 1. apply Z.pow_le_mono_r; lia. }
    specialize (Hnorm1 ltac:(lia)).
    rewrite H2prec' in Hlt2.
    revert Hp Hle Hnorm1 Hlt2 H2prec.
    generalize (2 ^ (E1 - E2)) (2 ^ (prec - 1)). intros P h Hp Hle Hnorm1 Hlt2 Hh.
    assert (S1 : K1 * h * K2 <= N1 * K2) by nia.
    assert (S2 : N1 * K2 * 2 <= N1 * K2 * P) by nia.
    assert (S3 : N2 * K1 < K2 * (2 * h) * K1) by nia.
    nia. }
  pose proof (rne_bounds N1 K1) as B1. pose proof (rne_bounds N2 K2) as B2.
  assert (F1 : 0 <= N1 / K1 < 2 ^ prec).
  { split; [ apply Z.div_pos; lia | apply Z.div_lt_upper_bound; lia ]. }
  assert (F2 : 0 <= N2 / K2 < 2 ^ prec).
  { split; [ apply Z.div_pos; lia | apply Z.div_lt_upper_bound; lia ]. }
  unfold rounded, norm.
  destruct (Z.eq_dec E1 E2) as [Heq | Hne].
  - subst E2. rewrite Z.min_id, Z.sub_diag in Hle. change (2 ^ 0) with 1 in Hle.
    assert (Hn : rne N1 K1 <= rne N2 K2) by (apply rne_mono; lia).
    destruct (Z.eqb_spec (rne N1 K1) (2 ^ prec)) as [O1 | O1];
      destruct (Z.eqb_spec (rne N2 K2) (2 ^ prec)) as [O2 | O2];
      apply pack_le; try lia.
  - assert (Hlo2 : 2 ^ (prec - 1) <= N2 / K2).
    { apply Z.div_le_lower_bound; [ lia | ].
      specialize (Hnorm2 ltac:(lia)). lia. }
    destruct (Z.eqb_spec (rne N1 K1) (2 ^ prec)) as [O1 | O1];
      destruct (Z.eqb_spec (rne N2 K2) (2 ^ prec)) as [O2 | O2];
      apply pack_le; try lia.
Qed.

(** The nearest float is a number of the format. *)
Lemma rounded_valid (s : bool) (N K E : Z) :
  framed prec emax N K E ->
  valid_binary prec emax (rounded prec emax s N K E) = true
  /\ is_nan (rounded prec emax s N K E) = false.
Proof.
  intros (HN & HK & Hlt & Hmin & Hnorm).
  assert (H2prec : 0 < 2 ^ (prec - 1)) by (apply Z.pow_pos_nonneg; lia).
  assert (H2prec' : 2 ^ prec = 2 * 2 ^ (prec - 1)).
  { replace prec with (Z.succ (prec - 1)) at 1 by lia. apply Z.pow_succ_r. lia. }
  pose proof (rne_bounds N K) as B.
  assert (F : 0 <= N / K < 2 ^ prec).
  { split; [ apply Z.div_pos; lia | apply Z.div_lt_upper_bound; lia ]. }
  unfold rounded, norm, pack.
  destruct (Z.eqb_spec (rne N K) (2 ^ prec)) as [O | O]; cbn [fst snd].
  - destruct (2 ^ (prec - 1)) as [ | m | m] eqn:Em; try lia.
    destruct (Z.leb_spec (E + 1) (emax - prec)) as [Hb | Hb]; [ | now split ].
    split; [ | reflexivity ].
    cbn [valid_binary]. unfold SpecFloat.bounded, canonical_mantissa.
    change (Z.pos (digits2_pos m)) with (Zdigits2 (Z.pos m)). rewrite <- Em.
    assert (Hd : Zdigits2 (2 ^ (prec - 1)) = prec).
    { apply Z.le_antisymm.
      - apply zdigits_le; try lia.
      - replace prec with (prec - 1 + 1) at 1 by lia. apply zdigits_ge; lia. }
    rewrite Hd. apply andb_true_intro. split.
    + apply Z.eqb_eq. unfold fexp. lia.
    + apply Z.leb_le. lia.
  - destruct (rne N K) as [ | m | m] eqn:Em; try lia; [ now split | ].
    destruct (Z.leb_spec E (emax - prec)) as [Hb | Hb]; [ | now split ].
    split; [ | reflexivity ].
    cbn [valid_binary]. unfold SpecFloat.bounded, canonical_mantissa.
    change (Z.pos (digits2_pos m)) with (Zdigits2 (Z.pos m)).
    assert (Hd : Zdigits2 (Z.pos m) <= prec) by (apply zdigits_le; lia).
    pose proof (zdigits_nonneg (Z.pos m)) as Hd0.
    apply andb_true_intro. split; [ | apply Z.leb_le; lia ].
    apply Z.eqb_eq. unfold fexp.
    destruct (Z.eq_dec E (emin prec emax)) as [He | He]; [ lia | ].
    assert (Hlo : 2 ^ (prec - 1) <= N / K).
    { apply Z.div_le_lower_bound; [ lia | ]. specialize (Hnorm ltac:(lia)). lia. }
    assert (Hd' : prec - 1 + 1 <= Zdigits2 (Z.pos m)) by (apply zdigits_ge; lia).
    lia.
Qed.

(** A number of the format is framed by its own exponent, and among
    such numbers the order of the floats is the order of the values. *)
Lemma bounded_framed (m : positive) (e : Z) :
  SpecFloat.bounded prec emax m e = true -> framed prec emax (Z.pos m) 1 e.
Proof.
  unfold SpecFloat.bounded, canonical_mantissa. intros H.
  apply andb_prop in H. destruct H as [Hc _]. apply Z.eqb_eq in Hc.
  change (Z.pos (digits2_pos m)) with (Zdigits2 (Z.pos m)) in Hc.
  destruct (zdigits_bounds (Z.pos m) eq_refl) as [Hlo Hhi].
  pose proof (zdigits_nonneg (Z.pos m)) as Hd0.
  unfold fexp in Hc.
  unfold framed. repeat match goal with |- _ /\ _ => split end; try lia.
  - rewrite Z.mul_1_l.
    assert (2 ^ Zdigits2 (Z.pos m) <= 2 ^ prec) by (apply Z.pow_le_mono_r; lia).
    lia.
  - intros He. rewrite Z.mul_1_l.
    assert (Hd : Zdigits2 (Z.pos m) = prec) by lia.
    rewrite Hd in Hlo. exact Hlo.
Qed.

Lemma bounded_value_le (m1 : positive) (e1 : Z) (m2 : positive) (e2 : Z) :
  SpecFloat.bounded prec emax m1 e1 = true ->
  SpecFloat.bounded prec emax m2 e2 = true ->
  SFleb (S754_finite false m1 e1) (S754_finite false m2 e2) = true ->
  value_le (Z.pos m1) 1 e1 (Z.pos m2) 1 e2.
Proof.
  intros B1 B2 Hle.
  destruct (bounded_framed m1 e1 B1) as (_ & _ & Hlt1 & Hmin1 & _).
  destruct (bounded_framed m2 e2 B2) as (_ & _ & _ & _ & Hnorm2).
  assert (H2prec : 0 < 2 ^ (prec - 1)) by (apply Z.pow_pos_nonneg; lia).
  assert (H2prec' : 2 ^ prec = 2 * 2 ^ (prec - 1)).
  { replace prec with (Z.succ (prec - 1)) at 1 by lia. apply Z.pow_succ_r. lia. }
  unfold SFleb in Hle. cbn [SFcompare] in Hle. unfold value_le.
  destruct (Z.compare_spec e1 e2) as [He | He | He]; try discriminate Hle.
  - subst e2. rewrite Z.min_id, Z.sub_diag. change (2 ^ 0) with 1.
    rewrite compare_cont_spec in Hle.
    destruct (Pos.compare_spec m1 m2); try discriminate Hle; lia.
  - rewrite Z.min_l by lia. rewrite Z.sub_diag. change (2 ^ 0) with 1.
    assert (Hp : 2 <= 2 ^ (e2 - e1)).
    { change 2 with (2 ^ 1) at 1. apply Z.pow_le_mono_r; lia. }
    specialize (Hnorm2 ltac:(lia)). nia.
Qed.

End RoundingOrder.

(** ** The order of scaled quotients *)

Lemma value_le_at (c N1 K1 E1 N2 K2 E2 : Z) :
  c <= E1 -> c <= E2 ->
  (value_le N1 K1 E1 N2 K2 E2
   <-> N1 * K2 * 2 ^ (E1 - c) <= N2 * K1 * 2 ^ (E2 - c)).
Proof.
  intros H1 H2. unfold value_le.
  set (m := Z.min E1 E2).
  assert (Hm : c <= m) by (unfold m; lia).
  assert (P1 : 2 ^ (E1 - c) = 2 ^ (E1 - m) * 2 ^ (m - c)).
  { rewrite <- Z.pow_add_r by (unfold m; lia). f_equal. lia. }
  assert (P2 : 2 ^ (E2 - c) = 2 ^ (E2 - m) * 2 ^ (m - c)).
  { rewrite <- Z.pow_add_r by (unfold m; lia). f_equal. lia. }
  assert (Hp : 0 < 2 ^ (m - c)) by (apply Z.pow_pos_nonneg; lia).
  rewrite P1, P2. rewrite !Z.mul_assoc.
  split; intros H.
  - apply Z.mul_le_mono_nonneg_r; lia.
  - apply Z.mul_le_mono_pos_r in H; lia.
Qed.

(** Scaling the denominator and the exponent together changes nothing. *)
Lemma value_le_shr (p1 p2 N1 K1 E1 N2 K2 E2 : Z) :
  0 <= p1 -> 0 <= p2 ->
  value_le N1 K1 E1 N2 K2 E2 ->
  value_le N1 (K1 * 2 ^ p1) (E1 + p1) N2 (K2 * 2 ^ p2) (E2 + p2).
Proof.
  intros H1 H2 H.
  destruct (value_le_at (Z.min E1 E2) N1 K1 E1 N2 K2 E2 ltac:(lia) ltac:(lia))
    as [A _]. apply A in H. clear A.
  destruct (value_le_at (Z.min E1 E2) N1 (K1 * 2 ^ p1) (E1 + p1)
              N2 (K2 * 2 ^ p2) (E2 + p2) ltac:(lia) ltac:(lia)) as [_ A].
  apply A. clear A.
  replace (E1 + p1 - Z.min E1 E2) with (E1 - Z.min E1 E2 + p1) by lia.
  replace (E2 + p2 - Z.min E1 E2) with (E2 - Z.min E1 E2 + p2) by lia.
  rewrite !Z.pow_add_r by lia.
  assert (Q1 : 0 < 2 ^ p1) by (apply Z.pow_pos_nonneg; lia).
  assert (Q2 : 0 < 2 ^ p2) by (apply Z.pow_pos_nonneg; lia).
  revert H Q1 Q2.
  generalize (2 ^ (E1 - Z.min E1 E2)) (2 ^ (E2 - Z.min E1 E2)) (2 ^ p1) (2 ^ p2).
  intros a b u v H Q1 Q2.
  replace (N1 * (K2 * v) * (a * u)) with (N1 * K2 * a * (u * v)) by ring.
  replace (N2 * (K1 * u) * (b * v)) with (N2 * K1 * b * (u * v)) by ring.
  apply Z.mul_le_mono_nonneg_r; [ apply Z.mul_nonneg_nonneg; lia | exact H ].
Qed.

(** Scaling the numerator up and the exponent down changes nothing. *)
Lemma value_le_shl (k1 k2 N1 K1 E1 N2 K2 E2 : Z) :
  0 <= k1 -> 0 <= k2 ->
  value_le N1 K1 E1 N2 K2 E2 ->
  value_le (N1 * 2 ^ k1) K1 (E1 - k1) (N2 * 2 ^ k2) K2 (E2 - k2).
Proof.
  intros H1 H2 H.
  destruct (value_le_at (Z.min E1 E2 - k1 - k2) N1 K1 E1 N2 K2 E2
              ltac:(lia) ltac:(lia)) as [A _]. apply A in H. clear A.
  destruct (value_le_at (Z.min E1 E2 - k1 - k2) (N1 * 2 ^ k1) K1 (E1 - k1)
              (N2 * 2 ^ k2) K2 (E2 - k2) ltac:(lia) ltac:(lia)) as [_ A].
  apply A. clear A.
  assert (P1 : 2 ^ (E1 - (Z.min E1 E2 - k1 - k2))
               = 2 ^ (E1 - k1 - (Z.min E1 E2 - k1 - k2)) * 2 ^ k1).
  { rewrite <- Z.pow_add_r by lia. f_equal. lia. }
  assert (P2 : 2 ^ (E2 - (Z.min E1 E2 - k1 - k2))
               = 2 ^ (E2 - k2 - (Z.min E1 E2 - k1 - k2)) * 2 ^ k2).
  { rewrite <- Z.pow_add_r by lia. f_equal. lia. }
  rewrite P1, P2 in H.
  revert H.
  generalize (2 ^ (E1 - k1 - (Z.min E1 E2 - k1 - k2)))
             (2 ^ (E2 - k2 - (Z.min E1 E2 - k1 - k2))) (2 ^ k1) (2 ^ k2).
  intros a b u v H.
  replace (N1 * u * K2 * a) with (N1 * K2 * (a * u)) by ring.
  replace (N2 * v * K1 * b) with (N2 * K1 * (b * v)) by ring.
  exact H.
Qed.

Section RoundingOps.

Variables prec emax : Z.
Hypothesis Hprec : 1 < prec.

Lemma rounded_nonneg (N K E : Z) :
  0 <= rne N K -> nonneg (rounded prec emax false N K E) = true.
Proof.
  intros H. unfold rounded, norm, pack.
  assert (H2prec : 0 < 2 ^ (prec - 1)) by (apply Z.pow_pos_nonneg; lia).
  destruct (rne N K =? 2 ^ prec); cbn [fst snd].
  - destruct (2 ^ (prec - 1)) as [ | m | m]; try lia.
    destruct (E + 1 <=? emax - prec); reflexivity.
  - destruct (rne N K) as [ | m | m]; try lia; [ reflexivity | ].
    destruct (E <=? emax - prec); reflexivity.
Qed.

(** [binary_round_aux] is monotone on the numbers it rounds. *)
Lemma round_aux_mono (N1 D1 e1 N2 D2 e2 : Z) :
  0 <= N1 -> 0 < D1 -> 0 <= N2 -> 0 < D2 ->
  0 <= fexp prec emax (Zdigits2 (N1 / D1) + e1) - e1 ->
  0 <= fexp prec emax (Zdigits2 (N2 / D2) + e2) - e2 ->
  value_le N1 D1 e1 N2 D2 e2 ->
  SFleb (binary_round_aux prec emax false (N1 / D1) e1 (loc_of N1 D1))
        (binary_round_aux prec emax false (N2 / D2) e2 (loc_of N2 D2)) = true.
Proof.
  intros HN1 HD1 HN2 HD2 Hp1 Hp2 Hle.
  destruct (round_aux_rounded prec emax Hprec false N1 D1 e1 HN1 HD1 Hp1)
    as [-> F1].
  destruct (round_aux_rounded prec emax Hprec false N2 D2 e2 HN2 HD2 Hp2)
    as [-> F2].
  apply (rounded_mono prec emax Hprec); try assumption.
  now apply value_le_shr.
Qed.

Lemma round_aux_valid (s : bool) (N D e : Z) :
  0 <= N -> 0 < D ->
  0 <= fexp prec emax (Zdigits2 (N / D) + e) - e ->
  let x := binary_round_aux prec emax s (N / D) e (loc_of N D) in
  valid_binary prec emax x = true /\ is_nan x = false
  /\ (s = false -> nonneg x = true).
Proof.
  intros HN HD Hp x. subst x.
  destruct (round_aux_rounded prec emax Hprec s N D e HN HD Hp) as [-> F].
  destruct (rounded_valid prec emax Hprec s _ _ _ F) as [Hv Hn].
  repeat split; try assumption.
  intros ->. apply rounded_nonneg.
  pose proof (rne_bounds N (D * 2 ^ (fexp prec emax (Zdigits2 (N / D) + e) - e))).
  assert (0 <= N / (D * 2 ^ (fexp prec emax (Zdigits2 (N / D) + e) - e))).
  { apply Z.div_pos; [ lia | ].
    assert (0 < 2 ^ (fexp prec emax (Zdigits2 (N / D) + e) - e))
      by (apply Z.pow_pos_nonneg; lia).
    nia. }
  lia.
Qed.

Lemma round_aux_opp (s : bool) (m e : Z) (l : location) :
  binary_round_aux prec emax (negb s) m e l
  = SFopp (binary_round_aux prec emax s m e l).
Proof.
  unfold binary_round_aux.
  destruct (shr_fexp prec emax m e l) as [r1 e1].
  destruct (shr_fexp prec emax _ e1 loc_Exact) as [r2 e2].
  destruct (shr_m r2); [ reflexivity | | reflexivity ].
  destruct (e2 <=? emax - prec); reflexivity.
Qed.

Lemma loc_of_1 (N : Z) : loc_of N 1 = loc_Exact.
Proof. unfold loc_of. now rewrite Z.mod_1_r. Qed.

Lemma round_aux_exact (s : bool) (N e : Z) :
  binary_round_aux prec emax s N e loc_Exact
  = binary_round_aux prec emax s (N / 1) e (loc_of N 1).
Proof. now rewrite Z.div_1_r, loc_of_1. Qed.

(** *** Multiplication by a positive normal number *)

Lemma mul_exponent (ma mc : positive) (ea ec : Z) :
  2 ^ (prec - 1) <= Z.pos mc ->
  0 <= fexp prec emax (Zdigits2 (Z.pos (ma * mc) / 1) + (ea + ec)) - (ea + ec).
Proof.
  intros Hc. rewrite Z.div_1_r.
  assert (Hm : 2 ^ (prec - 1) <= Z.pos (ma * mc)) by nia.
  assert (Hd : prec - 1 + 1 <= Zdigits2 (Z.pos (ma * mc)))
    by (apply zdigits_ge; lia).
  unfold fexp. lia.
Qed.

Lemma mul_mono (ma mA mc : positive) (ea eA ec : Z) :
  SpecFloat.bounded prec emax ma ea = true ->
  SpecFloat.bounded prec emax mA eA = true ->
  2 ^ (prec - 1) <= Z.pos mc ->
  SFleb (S754_finite false ma ea) (S754_finite false mA eA) = true ->
  SFleb (SFmul prec emax (S754_finite false ma ea) (S754_finite false mc ec))
        (SFmul prec emax (S754_finite false mA eA) (S754_finite false mc ec))
  = true.
Proof.
  intros Ba BA Hc Hle. cbn [SFmul xorb].
  pose proof (bounded_value_le prec emax Hprec ma ea mA eA Ba BA Hle) as Hv.
  rewrite !round_aux_exact.
  apply round_aux_mono; try lia; try (now apply mul_exponent).
  unfold value_le in *.
  replace (Z.min (ea + ec) (eA + ec)) with (Z.min ea eA + ec) by lia.
  replace (ea + ec - (Z.min ea eA + ec)) with (ea - Z.min ea eA) by lia.
  replace (eA + ec - (Z.min ea eA + ec)) with (eA - Z.min ea eA) by lia.
  rewrite !Pos2Z.inj_mul. revert Hv.
  generalize (2 ^ (ea - Z.min ea eA)) (2 ^ (eA - Z.min ea eA)).
  intros u v Hv. nia.
Qed.

Lemma mul_valid (s : bool) (ma mc : positive) (ea ec : Z) :
  2 ^ (prec - 1) <= Z.pos mc ->
  let x := SFmul prec emax (S754_finite s ma ea) (S754_finite false mc ec) in
  valid_binary prec emax x = true /\ is_nan x = false
  /\ (s = false -> nonneg x = true).
Proof.
  intros Hc. cbn [SFmul]. rewrite xorb_false_r.
  rewrite round_aux_exact.
  apply round_aux_valid; try lia. now apply mul_exponent.
Qed.

End RoundingOps.

Lemma new_location_loc (N D : Z) :
  0 < D -> new_location D (N mod D) = loc_of N D.
Proof.
  intros HD. unfold new_location, new_location_even, new_location_odd, loc_of.
  change IntDef.Z.mul with Z.mul. change IntDef.Z.add with Z.add.
  change IntDef.Z.compare with Z.compare. change IntDef.Z.eqb with Z.eqb.
  change IntDef.Z.even with Z.even.
  destruct (Z.even D) eqn:Ev; [ reflexivity | ].
  destruct (Z.eqb_spec (N mod D) 0); [ reflexivity | ].
  f_equal.
  destruct (Z.compare_spec (2 * (N mod D) + 1) D),
    (Z.compare_spec (2 * (N mod D)) D); try reflexivity; try lia.
  exfalso.
  assert (Z.even D = true) by (rewrite <- H0; rewrite Z.even_mul; reflexivity).
  congruence.
Qed.

Section RoundingDiv.

Variables prec emax : Z.
Hypothesis Hprec : 1 < prec.

(** What [SFdiv_core_binary] hands to [binary_round_aux]. *)
Lemma div_core_loc (ma mc : positive) (ea ec : Z) :
  let e' := Z.min (fexp prec emax (Zdigits2 (Z.pos ma) + ea
                                   - (Zdigits2 (Z.pos mc) + ec)))
                  (ea - ec) in
  let N := Z.pos ma * 2 ^ (ea - ec - e') in
  SFdiv_core_binary prec emax (Z.pos ma) ea (Z.pos mc) ec
  = (N / Z.pos mc, e', loc_of N (Z.pos mc))
  /\ 0 <= ea - ec - e'
  /\ 0 <= fexp prec emax (Zdigits2 (N / Z.pos mc) + e') - e'.
Proof.
  intros e' N.
  set (d1 := Zdigits2 (Z.pos ma)) in *. set (d2 := Zdigits2 (Z.pos mc)) in *.
  set (D0 := d1 + ea - (d2 + ec)) in *.
  assert (Hs : 0 <= ea - ec - e') by (unfold e'; lia).
  assert (He' : e' <= fexp prec emax D0) by (unfold e'; lia).
  assert (H2s : 0 < 2 ^ (ea - ec - e')) by (apply Z.pow_pos_nonneg; lia).
  assert (HN : 0 < N) by (unfold N; nia).
  repeat match goal with |- _ /\ _ => split end.
  - unfold SFdiv_core_binary.
    change IntDef.Z.min with Z.min. change IntDef.Z.sub with Z.sub.
    change IntDef.Z.add with Z.add. change IntDef.Z.shiftl with Z.shiftl.
    change IntDef.Z.div_eucl with Z.div_eucl.
    fold d1 d2 D0 e'.
    assert (Hm' : match ea - ec - e' with
                  | 0 => Z.pos ma
                  | Z.pos _ => Z.shiftl (Z.pos ma) (ea - ec - e')
                  | Z.neg _ => 0
                  end = N).
    { unfold N. destruct (ea - ec - e') as [ | k | k] eqn:Ek; try lia.
      rewrite Z.shiftl_mul_pow2 by lia. reflexivity. }
    rewrite Hm'.
    pose proof (new_location_loc N (Z.pos mc) eq_refl) as Hl.
    unfold Z.modulo in Hl. unfold Z.div.
    destruct (Z.div_eucl N (Z.pos mc)) as [q r]. now rewrite Hl.
  - exact Hs.
  - destruct (zdigits_bounds (Z.pos ma) eq_refl) as [Ha1 Ha2].
    destruct (zdigits_bounds (Z.pos mc) eq_refl) as [Hc1 Hc2].
    fold d1 in Ha1, Ha2. fold d2 in Hc1, Hc2.
    pose proof (zdigits_nonneg (Z.pos ma)) as Hd1. fold d1 in Hd1.
    pose proof (zdigits_nonneg (Z.pos mc)) as Hd2. fold d2 in Hd2.
    assert (Hd1' : 1 <= d1) by (unfold d1; cbn [Zdigits2]; lia).
    assert (Hd2' : 1 <= d2) by (unfold d2; cbn [Zdigits2]; lia).
    set (s := ea - ec - e') in *.
    (* N >= 2 ^ (d1 - 1 + s) *)
    assert (HNlo : 2 ^ (d1 - 1 + s) <= N).
    { unfold N. rewrite Z.pow_add_r by lia. nia. }
    destruct (Z.eq_dec (N / Z.pos mc) 0) as [Hq0 | Hq0].
    + rewrite Hq0. cbn [Zdigits2]. rewrite Z.add_0_l.
      assert (Hlt : N < Z.pos mc).
      { apply Z.div_small_iff in Hq0; lia. }
      assert (Hds : d1 - 1 + s < d2).
      { destruct (Z.lt_ge_cases (d1 - 1 + s) d2) as [H | H]; [ exact H | exfalso ].
        assert (2 ^ d2 <= 2 ^ (d1 - 1 + s)) by (apply Z.pow_le_mono_r; lia).
        lia. }
      unfold fexp in *. unfold s, D0 in *. lia.
    + assert (Hq : 1 <= N / Z.pos mc).
      { pose proof (Z.div_pos N (Z.pos mc)). lia. }
      assert (Hdig : D0 - e' <= Zdigits2 (N / Z.pos mc)).
      { destruct (Z.le_gt_cases (D0 - e') 1) as [H1 | H1].
        - assert (0 + 1 <= Zdigits2 (N / Z.pos mc)) by (apply zdigits_ge; lia).
          lia.
        - replace (D0 - e') with (D0 - e' - 1 + 1) by lia.
          apply zdigits_ge; [ lia | ].
          apply Z.div_le_lower_bound; [ lia | ].
          assert (Hpow : 2 ^ d2 * 2 ^ (D0 - e' - 1) = 2 ^ (d1 - 1 + s)).
          { rewrite <- Z.pow_add_r by lia. f_equal. unfold D0, s. lia. }
          assert (0 < 2 ^ (D0 - e' - 1)) by (apply Z.pow_pos_nonneg; lia).
          nia. }
      pose proof (fexp_mono prec emax D0 (Zdigits2 (N / Z.pos mc) + e')
                    ltac:(lia)).
      lia.
Qed.

Lemma div_mono (ma mA mc : positive) (ea eA ec : Z) :
  SpecFloat.bounded prec emax ma ea = true ->
  SpecFloat.bounded prec emax mA eA = true ->
  SFleb (S754_finite false ma ea) (S754_finite false mA eA) = true ->
  SFleb (SFdiv prec emax (S754_finite false ma ea) (S754_finite false mc ec))
        (SFdiv prec emax (S754_finite false mA eA) (S754_finite false mc ec))
  = true.
Proof.
  intros Ba BA Hle. cbn [SFdiv xorb].
  pose proof (bounded_value_le prec emax Hprec ma ea mA eA Ba BA Hle) as Hv.
  destruct (div_core_loc ma mc ea ec) as (-> & Hsa & Hpa).
  destruct (div_core_loc mA mc eA ec) as (-> & HsA & HpA).
  assert (Pa : 0 < 2 ^ (ea - ec - Z.min (fexp prec emax
             (Zdigits2 (Z.pos ma) + ea - (Zdigits2 (Z.pos mc) + ec))) (ea - ec)))
    by (apply Z.pow_pos_nonneg; lia).
  assert (PA : 0 < 2 ^ (eA - ec - Z.min (fexp prec emax
             (Zdigits2 (Z.pos mA) + eA - (Zdigits2 (Z.pos mc) + ec))) (eA - ec)))
    by (apply Z.pow_pos_nonneg; lia).
  apply round_aux_mono; try assumption; try nia; try lia.
  set (ka := ea - ec - Z.min _ (ea - ec)) in *.
  set (kA := eA - ec - Z.min _ (eA - ec)) in *.
  replace (Z.min _ (ea - ec)) with (ea - ec - ka) by (unfold ka; lia).
  replace (Z.min _ (eA - ec)) with (eA - ec - kA) by (unfold kA; lia).
  apply value_le_shl; try assumption.
  unfold value_le in *.
  replace (Z.min (ea - ec) (eA - ec)) with (Z.min ea eA - ec) by lia.
  replace (ea - ec - (Z.min ea eA - ec)) with (ea - Z.min ea eA) by lia.
  replace (eA - ec - (Z.min ea eA - ec)) with (eA - Z.min ea eA) by lia.
  revert Hv.
  generalize (2 ^ (ea - Z.min ea eA)) (2 ^ (eA - Z.min ea eA)).
  intros u v Hv. nia.
Qed.

Lemma div_valid (s : bool) (ma mc : positive) (ea ec : Z) :
  let x := SFdiv prec emax (S754_finite s ma ea) (S754_finite false mc ec) in
  valid_binary prec emax x = true /\ is_nan x = false
  /\ (s = false -> nonneg x = true).
Proof.
  cbn [SFdiv]. rewrite xorb_false_r.
  destruct (div_core_loc ma mc ea ec) as (-> & Hs & Hp).
  assert (P : 0 < 2 ^ (ea - ec - Z.min (fexp prec emax
             (Zdigits2 (Z.pos ma) + ea - (Zdigits2 (Z.pos mc) + ec))) (ea - ec)))
    by (apply Z.pow_pos_nonneg; lia).
  apply round_aux_valid; try assumption; try nia; lia.
Qed.

End RoundingDiv.

(** ** Sign, order and exact sums *)

Lemma shr_m_nonneg (r : shr_record) (e n : Z) :
  0 <= shr_m r -> 0 <= shr_m (fst (shr r e n)).
Proof.
  intros Hr. unfold shr. destruct n as [ | p | p]; cbn [fst]; try assumption.
  rewrite iter_shr_m by assumption. apply Z.div_pos; [ assumption | ].
  apply Z.pow_pos_nonneg; lia.
Qed.

Lemma round_nearest_even_nonneg (m : Z) (l : location) :
  0 <= m -> 0 <= round_nearest_even m l.
Proof.
  intros Hm. unfold round_nearest_even.
  destruct l as [ | [ | | ]]; try lia. destruct (Z.even m); lia.
Qed.

(** Rounding a mantissa that is not negative, with the sign [+], gives
    [+0], a positive number or [+infinity]. *)
Lemma round_aux_nonneg (prec emax m e : Z) (l : location) :
  0 <= m -> nonneg (binary_round_aux prec emax false m e l) = true.
Proof.
  intros Hm. unfold binary_round_aux, shr_fexp.
  pose proof (shr_m_nonneg (shr_record_of_loc m l) e
                (fexp prec emax (Zdigits2 m + e) - e)) as H1.
  rewrite record_of_loc_m in H1. specialize (H1 Hm).
  destruct (shr (shr_record_of_loc m l) e _) as [mrs' e'].
  cbn [fst] in H1.
  pose proof (round_nearest_even_nonneg (shr_m mrs') (loc_of_shr_record mrs') H1)
    as H2.
  set (n := round_nearest_even (shr_m mrs') (loc_of_shr_record mrs')) in *.
  pose proof (shr_m_nonneg (shr_record_of_loc n loc_Exact) e'
                (fexp prec emax (Zdigits2 n + e') - e')) as H3.
  rewrite record_of_loc_m in H3. specialize (H3 H2).
  destruct (shr (shr_record_of_loc n loc_Exact) e' _) as [mrs'' e''].
  cbn [fst] in H3.
  destruct (shr_m mrs'') as [ | k | k]; try lia; try reflexivity.
  destruct (e'' <=? emax - prec); reflexivity.
Qed.

Lemma zdigits_shift (m : positive) (k : Z) :
  0 <= k -> Zdigits2 (Z.pos m * 2 ^ k) = Zdigits2 (Z.pos m) + k.
Proof.
  intros Hk.
  destruct (zdigits_bounds (Z.pos m) eq_refl) as [Hlo Hhi].
  assert (Hd : 1 <= Zdigits2 (Z.pos m)) by (cbn [Zdigits2]; lia).
  assert (H2k : 0 < 2 ^ k) by (apply Z.pow_pos_nonneg; lia).
  apply Z.le_antisymm.
  - apply zdigits_le; try lia. rewrite Z.pow_add_r by lia. nia.
  - replace (Zdigits2 (Z.pos m) + k) with (Zdigits2 (Z.pos m) - 1 + k + 1) by lia.
    apply zdigits_ge; [ lia | ]. rewrite Z.pow_add_r by lia. nia.
Qed.

Lemma shl_align_value (m : positive) (e e' : Z) :
  exists m', shl_align m e e' = (m', e - Z.max 0 (e - e'))
             /\ Z.pos m' = Z.pos m * 2 ^ Z.max 0 (e - e').
Proof.
  unfold shl_align. destruct (e' - e) as [ | d | d] eqn:Hd.
  - exists m. rewrite Z.max_l by lia. change (2 ^ 0) with 1.
    split; [ f_equal; lia | lia ].
  - exists m. rewrite Z.max_l by lia. change (2 ^ 0) with 1.
    split; [ f_equal; lia | lia ].
  - exists (shift_pos d m). replace (Z.max 0 (e - e')) with (Z.pos d) by lia.
    split; [ unfold shift_pos; f_equal; lia | ].
    rewrite shift_pos_correct. change (Z.pow_pos 2 d) with (2 ^ Z.pos d). lia.
Qed.

Section RoundingSum.

Variables prec emax : Z.
Hypothesis Hprec : 1 < prec.

(** [binary_round] aligns the mantissa, then rounds it. *)
Lemma binary_round_aligned (s : bool) (m : positive) (e : Z) :
  exists k, 0 <= k
    /\ binary_round prec emax s m e
       = binary_round_aux prec emax s (Z.pos m * 2 ^ k / 1) (e - k)
                          (loc_of (Z.pos m * 2 ^ k) 1)
    /\ 0 <= fexp prec emax (Zdigits2 (Z.pos m * 2 ^ k / 1) + (e - k)) - (e - k).
Proof.
  unfold binary_round.
  change (Z.pos (digits2_pos m)) with (Zdigits2 (Z.pos m)).
  destruct (shl_align_value m e (fexp prec emax (Zdigits2 (Z.pos m) + e)))
    as (m' & -> & Hm').
  set (k := Z.max 0 (e - fexp prec emax (Zdigits2 (Z.pos m) + e))) in *.
  exists k. split; [ unfold k; lia | ].
  rewrite round_aux_exact, Hm'. split; [ reflexivity | ].
  rewrite Z.div_1_r, zdigits_shift by (unfold k; lia).
  replace (Zdigits2 (Z.pos m) + k + (e - k)) with (Zdigits2 (Z.pos m) + e) by lia.
  unfold k. lia.
Qed.

Lemma binary_round_mono (m1 m2 : positive) (e1 e2 : Z) :
  value_le (Z.pos m1) 1 e1 (Z.pos m2) 1 e2 ->
  SFleb (binary_round prec emax false m1 e1) (binary_round prec emax false m2 e2)
  = true.
Proof.
  intros Hv.
  destruct (binary_round_aligned false m1 e1) as (k1 & Hk1 & -> & Hp1).
  destruct (binary_round_aligned false m2 e2) as (k2 & Hk2 & -> & Hp2).
  assert (0 < 2 ^ k1) by (apply Z.pow_pos_nonneg; lia).
  assert (0 < 2 ^ k2) by (apply Z.pow_pos_nonneg; lia).
  apply round_aux_mono; try assumption; try lia; try nia.
  apply value_le_shl; assumption.
Qed.

Lemma binary_round_valid (s : bool) (m : positive) (e : Z) :
  let x := binary_round prec emax s m e in
  valid_binary prec emax x = true /\ is_nan x = false
  /\ (s = false -> nonneg x = true).
Proof.
  destruct (binary_round_aligned s m e) as (k & Hk & -> & Hp).
  assert (0 < 2 ^ k) by (apply Z.pow_pos_nonneg; lia).
  apply round_aux_valid; try assumption; try lia; nia.
Qed.

Lemma binary_round_opp (s : bool) (m : positive) (e : Z) :
  binary_round prec emax (negb s) m e = SFopp (binary_round prec emax s m e).
Proof.
  unfold binary_round. destruct (shl_align m e _) as [mz ez].
  apply round_aux_opp.
Qed.

(** Among the numbers of the format, the comparison of the floats is
    the comparison of their values. *)
Lemma bounded_compare (c : Z) (m1 m2 : positive) (e1 e2 : Z) :
  SpecFloat.bounded prec emax m1 e1 = true ->
  SpecFloat.bounded prec emax m2 e2 = true ->
  c <= e1 -> c <= e2 ->
  SFcompare (S754_finite false m1 e1) (S754_finite false m2 e2)
  = Some (Z.pos m1 * 2 ^ (e1 - c) ?= Z.pos m2 * 2 ^ (e2 - c)).
Proof.
  intros B1 B2 Hc1 Hc2.
  destruct (bounded_framed prec emax Hprec m1 e1 B1) as (_ & _ & Hlt1 & Hmin1 & Hn1).
  destruct (bounded_framed prec emax Hprec m2 e2 B2) as (_ & _ & Hlt2 & Hmin2 & Hn2).
  rewrite Z.mul_1_l in *.
  assert (H2prec : 0 < 2 ^ (prec - 1)) by (apply Z.pow_pos_nonneg; lia).
  assert (H2prec' : 2 ^ prec = 2 * 2 ^ (prec - 1)).
  { replace prec with (Z.succ (prec - 1)) at 1 by lia. apply Z.pow_succ_r. lia. }
  cbn [SFcompare]. f_equal.
  destruct (Z.compare_spec e1 e2) as [He | He | He].
  - subst e2. rewrite compare_cont_spec.
    assert (0 < 2 ^ (e1 - c)) by (apply Z.pow_pos_nonneg; lia).
    destruct (Pos.compare_spec m1 m2) as [Hm | Hm | Hm]; cbn [Pos.switch_Eq];
      symmetry;
      [ apply Z.compare_eq_iff; subst; reflexivity
      | apply Z.compare_lt_iff; nia
      | apply Z.compare_gt_iff; nia ].
  - symmetry. apply Z.compare_lt_iff.
    replace (e2 - c) with (e2 - e1 + (e1 - c)) by lia.
    rewrite Z.pow_add_r by lia.
    assert (Hp : 2 <= 2 ^ (e2 - e1)).
    { change 2 with (2 ^ 1) at 1. apply Z.pow_le_mono_r; lia. }
    assert (0 < 2 ^ (e1 - c)) by (apply Z.pow_pos_nonneg; lia).
    specialize (Hn2 ltac:(lia)).
    assert (Z.pos m1 < Z.pos m2 * 2 ^ (e2 - e1)) by nia.
    rewrite Z.mul_assoc. apply Z.mul_lt_mono_pos_r; assumption.
  - symmetry. apply Z.compare_gt_iff.
    replace (e1 - c) with (e1 - e2 + (e2 - c)) by lia.
    rewrite Z.pow_add_r by lia.
    assert (Hp : 2 <= 2 ^ (e1 - e2)).
    { change 2 with (2 ^ 1) at 1. apply Z.pow_le_mono_r; lia. }
    assert (0 < 2 ^ (e2 - c)) by (apply Z.pow_pos_nonneg; lia).
    specialize (Hn1 ltac:(lia)).
    assert (Z.pos m2 < Z.pos m1 * 2 ^ (e1 - e2)) by nia.
    rewrite Z.mul_assoc. apply Z.mul_lt_mono_pos_r; assumption.
Qed.

Lemma bounded_le_trans (m1 m2 m3 : positive) (e1 e2 e3 : Z) :
  SpecFloat.bounded prec emax m1 e1 = true ->
  SpecFloat.bounded prec emax m2 e2 = true ->
  SpecFloat.bounded prec emax m3 e3 = true ->
  SFleb (S754_finite false m1 e1) (S754_finite false m2 e2) = true ->
  SFleb (S754_finite false m2 e2) (S754_finite false m3 e3) = true ->
  SFleb (S754_finite false m1 e1) (S754_finite false m3 e3) = true.
Proof.
  intros B1 B2 B3. unfold SFleb.
  set (c := Z.min e1 (Z.min e2 e3)).
  rewrite (bounded_compare c m1 m2), (bounded_compare c m2 m3),
    (bounded_compare c m1 m3) by (assumption || (unfold c; lia)).
  destruct (Z.compare_spec (Z.pos m1 * 2 ^ (e1 - c)) (Z.pos m2 * 2 ^ (e2 - c)));
    destruct (Z.compare_spec (Z.pos m2 * 2 ^ (e2 - c)) (Z.pos m3 * 2 ^ (e3 - c)));
    destruct (Z.compare_spec (Z.pos m1 * 2 ^ (e1 - c)) (Z.pos m3 * 2 ^ (e3 - c)));
    try discriminate; try reflexivity; lia.
Qed.

Lemma bounded_le_lt_trans (m1 m2 m3 : positive) (e1 e2 e3 : Z) :
  SpecFloat.bounded prec emax m1 e1 = true ->
  SpecFloat.bounded prec emax m2 e2 = true ->
  SpecFloat.bounded prec emax m3 e3 = true ->
  SFleb (S754_finite false m1 e1) (S754_finite false m2 e2) = true ->
  SFltb (S754_finite false m2 e2) (S754_finite false m3 e3) = true ->
  SFltb (S754_finite false m1 e1) (S754_finite false m3 e3) = true.
Proof.
  intros B1 B2 B3. unfold SFleb, SFltb.
  set (c := Z.min e1 (Z.min e2 e3)).
  rewrite (bounded_compare c m1 m2), (bounded_compare c m2 m3),
    (bounded_compare c m1 m3) by (assumption || (unfold c; lia)).
  destruct (Z.compare_spec (Z.pos m1 * 2 ^ (e1 - c)) (Z.pos m2 * 2 ^ (e2 - c)));
    destruct (Z.compare_spec (Z.pos m2 * 2 ^ (e2 - c)) (Z.pos m3 * 2 ^ (e3 - c)));
    destruct (Z.compare_spec (Z.pos m1 * 2 ^ (e1 - c)) (Z.pos m3 * 2 ^ (e3 - c)));
    try discriminate; try reflexivity; lia.
Qed.

(** A float between two positive numbers is a positive number. *)
Lemma between_finite (x : spec_float) (m1 m2 : positive) (e1 e2 : Z) :
  valid_binary prec emax x = true ->
  SFleb (S754_finite false m1 e1) x = true ->
  SFleb x (S754_finite false m2 e2) = true ->
  exists m e, x = S754_finite false m e /\ SpecFloat.bounded prec emax m e = true.
Proof.
  intros Hv H1 H2.
  destruct x as [s | s | | s m e]; try discriminate H1.
  - destruct s; discriminate.
  - destruct s; [ discriminate H1 | ]. exists m, e. split; [ reflexivity | exact Hv ].
Qed.

(** [c - x] for positive numbers [x < c]: the exact difference, rounded. *)
Lemma sub_from_exact (mx mc : positive) (ex ec : Z) :
  SpecFloat.bounded prec emax mx ex = true ->
  SpecFloat.bounded prec emax mc ec = true ->
  SFltb (S754_finite false mx ex) (S754_finite false mc ec) = true ->
  exists p,
    Z.pos p = Z.pos mc * 2 ^ (ec - Z.min ex ec) - Z.pos mx * 2 ^ (ex - Z.min ex ec)
    /\ SFadd prec emax (S754_finite true mx ex) (S754_finite false mc ec)
       = binary_round prec emax false p (Z.min ex ec).
Proof.
  intros Bx Bc Hlt. unfold SFltb in Hlt.
  rewrite (bounded_compare (Z.min ex ec)) in Hlt by (assumption || lia).
  destruct (Z.compare_spec (Z.pos mx * 2 ^ (ex - Z.min ex ec))
                           (Z.pos mc * 2 ^ (ec - Z.min ex ec))) as [ | Hd | ];
    try discriminate Hlt.
  cbn [SFadd]. change IntDef.Z.min with Z.min.
  destruct (shl_align_value mx ex (Z.min ex ec)) as (mx' & -> & Hx).
  destruct (shl_align_value mc ec (Z.min ex ec)) as (mc' & -> & Hc).
  cbn [fst cond_Zopp]. change (IntDef.Z.opp (Z.pos mx')) with (- Z.pos mx').
  replace (Z.max 0 (ex - Z.min ex ec)) with (ex - Z.min ex ec) in Hx by lia.
  replace (Z.max 0 (ec - Z.min ex ec)) with (ec - Z.min ex ec) in Hc by lia.
  destruct (- Z.pos mx' + Z.pos mc') as [ | p | p] eqn:Hp; try lia.
  exists p. split; [ lia | reflexivity ].
Qed.

(** The further [x] is from 0, the nearer [c - x] is. *)
Lemma sub_from_mono (mx my mc : positive) (ex ey ec : Z) :
  SpecFloat.bounded prec emax mx ex = true ->
  SpecFloat.bounded prec emax my ey = true ->
  SpecFloat.bounded prec emax mc ec = true ->
  SFleb (S754_finite false mx ex) (S754_finite false my ey) = true ->
  SFltb (S754_finite false my ey) (S754_finite false mc ec) = true ->
  SFleb (SFadd prec emax (S754_finite true my ey) (S754_finite false mc ec))
        (SFadd prec emax (S754_finite true mx ex) (S754_finite false mc ec))
  = true.
Proof.
  intros Bx By Bc Hxy Hyc.
  pose proof (bounded_le_lt_trans mx my mc ex ey ec Bx By Bc Hxy Hyc) as Hxc.
  destruct (sub_from_exact my mc ey ec By Bc Hyc) as (py & Hpy & ->).
  destruct (sub_from_exact mx mc ex ec Bx Bc Hxc) as (px & Hpx & ->).
  apply binary_round_mono.
  set (c := Z.min ex (Z.min ey ec)).
  apply (value_le_at c); try (unfold c; lia).
  rewrite !Z.mul_1_r, Hpy, Hpx.
  unfold SFleb in Hxy.
  rewrite (bounded_compare c) in Hxy by (assumption || (unfold c; lia)).
  assert (Hxy' : Z.pos mx * 2 ^ (ex - c) <= Z.pos my * 2 ^ (ey - c)).
  { destruct (Z.compare_spec (Z.pos mx * 2 ^ (ex - c)) (Z.pos my * 2 ^ (ey - c)));
      try discriminate Hxy; lia. }
  rewrite !Z.mul_sub_distr_r, <- !Z.mul_assoc, <- !Z.pow_add_r by (unfold c; lia).
  replace (ec - Z.min ey ec + (Z.min ey ec - c)) with (ec - c) by lia.
  replace (ey - Z.min ey ec + (Z.min ey ec - c)) with (ey - c) by lia.
  replace (ec - Z.min ex ec + (Z.min ex ec - c)) with (ec - c) by lia.
  replace (ex - Z.min ex ec + (Z.min ex ec - c)) with (ex - c) by lia.
  lia.
Qed.

Lemma sub_from_valid (mx mc : positive) (ex ec : Z) :
  SpecFloat.bounded prec emax mx ex = true ->
  SpecFloat.bounded prec emax mc ec = true ->
  SFltb (S754_finite false mx ex) (S754_finite false mc ec) = true ->
  let r := SFadd prec emax (S754_finite true mx ex) (S754_finite false mc ec) in
  valid_binary prec emax r = true /\ is_nan r = false /\ nonneg r = true.
Proof.
  intros Bx Bc Hlt r. subst r.
  destruct (sub_from_exact mx mc ex ec Bx Bc Hlt) as (p & _ & ->).
  destruct (binary_round_valid false p (Z.min ex ec)) as (Hv & Hn & Hs).
  repeat split; auto.
Qed.

End RoundingSum.

(** ** Monotone operations on intervals of floats *)

Lemma magnitude_nonneg (x : spec_float) : nonneg x = true -> magnitude x = x.
Proof. destruct x as [[ | ] | [ | ] | | [ | ] m e]; try discriminate; reflexivity. Qed.

Lemma magnitude_opp (x : spec_float) : magnitude (SFopp x) = magnitude x.
Proof. destruct x; reflexivity. Qed.

Lemma valid_opp (prec emax : Z) (x : spec_float) :
  valid_binary prec emax (SFopp x) = valid_binary prec emax x.
Proof. destruct x; reflexivity. Qed.

Lemma zero_le_nonneg (x : spec_float) :
  nonneg x = true -> SFleb (S754_zero false) x = true.
Proof. destruct x as [[ | ] | [ | ] | | [ | ] m e]; try discriminate; reflexivity. Qed.

Lemma nonneg_not_lt_zero (x : spec_float) :
  nonneg x = true -> SFltb x (S754_zero false) = false.
Proof. destruct x as [[ | ] | [ | ] | | [ | ] m e]; try discriminate; reflexivity. Qed.

(** A float within two positive numbers is a number of the format. *)
Lemma within_finite (prec emax : Z) (lo hi x : spec_float) :
  finite_pos prec emax lo = true -> finite_pos prec emax hi = true ->
  within prec emax lo hi x = true ->
  exists s m e, x = S754_finite s m e
    /\ SpecFloat.bounded prec emax m e = true
    /\ SFleb lo (S754_finite false m e) = true
    /\ SFleb (S754_finite false m e) hi = true.
Proof.
  intros Hlo Hhi H. unfold within in H.
  apply andb_prop in H. destruct H as [H H3].
  apply andb_prop in H. destruct H as [H1 H2].
  destruct lo as [ | | | [ | ] ml el]; try discriminate Hlo.
  destruct hi as [ | | | [ | ] mh eh]; try discriminate Hhi.
  destruct x as [s | s | | s m e]; try discriminate H2; try discriminate H3.
  exists s, m, e. repeat split; assumption.
Qed.

Section Squeeze.

Variables prec1 emax1 prec2 emax2 : Z.
Variable f : spec_float -> spec_float.

Hypothesis f_mono : forall m e m' e',
  SpecFloat.bounded prec1 emax1 m e = true ->
  SpecFloat.bounded prec1 emax1 m' e' = true ->
  SFleb (S754_finite false m e) (S754_finite false m' e') = true ->
  SFleb (f (S754_finite false m e)) (f (S754_finite false m' e')) = true.
Hypothesis f_valid : forall m e,
  valid_binary prec2 emax2 (f (S754_finite false m e)) = true
  /\ nonneg (f (S754_finite false m e)) = true.
Hypothesis f_opp : forall m e,
  f (S754_finite true m e) = SFopp (f (S754_finite false m e)).
Hypothesis f_zero : forall s, f (S754_zero s) = S754_zero s.

Lemma squeeze_magnitude (s : bool) (m : positive) (e : Z) :
  magnitude (f (S754_finite s m e)) = f (S754_finite false m e)
  /\ valid_binary prec2 emax2 (f (S754_finite s m e)) = true.
Proof.
  destruct (f_valid m e) as [Hv Hn]. destruct s.
  - rewrite f_opp, magnitude_opp, valid_opp. split; [ | exact Hv ].
    now apply magnitude_nonneg.
  - split; [ | exact Hv ]. now apply magnitude_nonneg.
Qed.

(** [f] maps the floats within [lo] and [hi] to floats within [f lo] and
    [f hi]. *)
Lemma squeeze (lo hi x : spec_float) :
  finite_pos prec1 emax1 lo = true -> finite_pos prec1 emax1 hi = true ->
  within prec1 emax1 lo hi x = true ->
  within prec2 emax2 (f lo) (f hi) (f x) = true.
Proof.
  intros Hlo Hhi H.
  destruct (within_finite _ _ _ _ _ Hlo Hhi H) as (s & m & e & -> & B & H1 & H2).
  destruct lo as [ | | | [ | ] ml el]; try discriminate Hlo.
  destruct hi as [ | | | [ | ] mh eh]; try discriminate Hhi.
  cbn [finite_pos] in Hlo, Hhi.
  destruct (squeeze_magnitude s m e) as [Hm Hv].
  unfold within. rewrite Hm, Hv.
  rewrite (f_mono ml el m e), (f_mono m e mh eh) by assumption.
  reflexivity.
Qed.

(** The same from 0 on. *)
Lemma squeeze_zero (hi x : spec_float) :
  finite_pos prec1 emax1 hi = true ->
  within prec1 emax1 (S754_zero false) hi x = true ->
  within prec2 emax2 (S754_zero false) (f hi) (f x) = true.
Proof.
  intros Hhi H. unfold within in H.
  apply andb_prop in H. destruct H as [H H3].
  apply andb_prop in H. destruct H as [H1 H2].
  destruct hi as [ | | | [ | ] mh eh]; try discriminate Hhi.
  cbn [finite_pos] in Hhi.
  destruct (f_valid mh eh) as [Hvh Hnh].
  destruct x as [s | s | | s m e]; try discriminate H2; try discriminate H3.
  - rewrite f_zero. unfold within. cbn [valid_binary magnitude andb].
    rewrite (zero_le_nonneg _ Hnh). reflexivity.
  - destruct (squeeze_magnitude s m e) as [Hm Hv].
    destruct (f_valid m e) as [_ Hn].
    unfold within. rewrite Hm, Hv, (zero_le_nonneg _ Hn).
    rewrite (f_mono m e mh eh) by assumption. reflexivity.
Qed.

End Squeeze.

Section SqueezeOps.

Variables prec emax : Z.
Hypothesis Hprec : 1 < prec.

Variables (mc : positive) (ec : Z).
Hypothesis Hnormal : 2 ^ (prec - 1) <= Z.pos mc.

Lemma mul_within (lo hi x : spec_float) :
  finite_pos prec emax lo = true -> finite_pos prec emax hi = true ->
  within prec emax lo hi x = true ->
  within prec emax (SFmul prec emax lo (S754_finite false mc ec))
                   (SFmul prec emax hi (S754_finite false mc ec))
                   (SFmul prec emax x (S754_finite false mc ec)) = true.
Proof.
  apply (squeeze prec emax prec emax
           (fun x => SFmul prec emax x (S754_finite false mc ec))).
  - intros m e m' e' B B' H. now apply mul_mono.
  - intros m e.
    destruct (mul_valid prec emax Hprec false m mc e ec Hnormal) as (Hv & _ & Hn).
    split; [ exact Hv | now apply Hn ].
  - intros m e. cbn [SFmul xorb]. apply (round_aux_opp prec emax false).
Qed.

Lemma mul_within_zero (hi x : spec_float) :
  finite_pos prec emax hi = true ->
  within prec emax (S754_zero false) hi x = true ->
  within prec emax (S754_zero false)
                   (SFmul prec emax hi (S754_finite false mc ec))
                   (SFmul prec emax x (S754_finite false mc ec)) = true.
Proof.
  apply (squeeze_zero prec emax prec emax
           (fun x => SFmul prec emax x (S754_finite false mc ec))).
  - intros m e m' e' B B' H. now apply mul_mono.
  - intros m e.
    destruct (mul_valid prec emax Hprec false m mc e ec Hnormal) as (Hv & _ & Hn).
    split; [ exact Hv | now apply Hn ].
  - intros m e. cbn [SFmul xorb]. apply (round_aux_opp prec emax false).
  - intros [ | ]; reflexivity.
Qed.

Lemma div_within (lo hi x : spec_float) :
  finite_pos prec emax lo = true -> finite_pos prec emax hi = true ->
  within prec emax lo hi x = true ->
  within prec emax (SFdiv prec emax lo (S754_finite false mc ec))
                   (SFdiv prec emax hi (S754_finite false mc ec))
                   (SFdiv prec emax x (S754_finite false mc ec)) = true.
Proof.
  apply (squeeze prec emax prec emax
           (fun x => SFdiv prec emax x (S754_finite false mc ec))).
  - intros m e m' e' B B' H. now apply div_mono.
  - intros m e.
    destruct (div_valid prec emax Hprec false m mc e ec) as (Hv & _ & Hn).
    split; [ exact Hv | now apply Hn ].
  - intros m e. cbn [SFdiv xorb].
    destruct (SFdiv_core_binary prec emax (Z.pos m) e (Z.pos mc) ec) as [[q e'] l].
    apply (round_aux_opp prec emax false).
Qed.

Lemma div_within_zero (hi x : spec_float) :
  finite_pos prec emax hi = true ->
  within prec emax (S754_zero false) hi x = true ->
  within prec emax (S754_zero false)
                   (SFdiv prec emax hi (S754_finite false mc ec))
                   (SFdiv prec emax x (S754_finite false mc ec)) = true.
Proof.
  apply (squeeze_zero prec emax prec emax
           (fun x => SFdiv prec emax x (S754_finite false mc ec))).
  - intros m e m' e' B B' H. now apply div_mono.
  - intros m e.
    destruct (div_valid prec emax Hprec false m mc e ec) as (Hv & _ & Hn).
    split; [ exact Hv | now apply Hn ].
  - intros m e. cbn [SFdiv xorb].
    destruct (SFdiv_core_binary prec emax (Z.pos m) e (Z.pos mc) ec) as [[q e'] l].
    apply (round_aux_opp prec emax false).
  - intros [ | ]; reflexivity.
Qed.

End SqueezeOps.

Section SqueezeConvert.

Variables prec1 emax1 prec2 emax2 : Z.
Hypothesis Hprec1 : 1 < prec1.
Hypothesis Hprec2 : 1 < prec2.

Lemma convert_mono (m : positive) (e : Z) (m' : positive) (e' : Z) :
  SpecFloat.bounded prec1 emax1 m e = true ->
  SpecFloat.bounded prec1 emax1 m' e' = true ->
  SFleb (S754_finite false m e) (S754_finite false m' e') = true ->
  SFleb (convert prec2 emax2 (S754_finite false m e))
        (convert prec2 emax2 (S754_finite false m' e')) = true.
Proof.
  intros B B' H. cbn [convert binary_normalize].
  apply (binary_round_mono prec2 emax2 Hprec2).
  now apply (bounded_value_le prec1 emax1 Hprec1).
Qed.

Lemma convert_valid (m : positive) (e : Z) :
  valid_binary prec2 emax2 (convert prec2 emax2 (S754_finite false m e)) = true
  /\ nonneg (convert prec2 emax2 (S754_finite false m e)) = true.
Proof.
  cbn [convert binary_normalize].
  destruct (binary_round_valid prec2 emax2 Hprec2 false m e) as (Hv & _ & Hn).
  split; [ exact Hv | now apply Hn ].
Qed.

Lemma convert_within (lo hi x : spec_float) :
  finite_pos prec1 emax1 lo = true -> finite_pos prec1 emax1 hi = true ->
  within prec1 emax1 lo hi x = true ->
  within prec2 emax2 (convert prec2 emax2 lo) (convert prec2 emax2 hi)
         (convert prec2 emax2 x) = true.
Proof.
  apply (squeeze prec1 emax1 prec2 emax2 (convert prec2 emax2)).
  - apply convert_mono.
  - apply convert_valid.
  - intros m e. cbn [convert binary_normalize].
    apply (binary_round_opp prec2 emax2 false).
Qed.

Lemma convert_within_zero (hi x : spec_float) :
  finite_pos prec1 emax1 hi = true ->
  within prec1 emax1 (S754_zero false) hi x = true ->
  within prec2 emax2 (S754_zero false) (convert prec2 emax2 hi)
         (convert prec2 emax2 x) = true.
Proof.
  apply (squeeze_zero prec1 emax1 prec2 emax2 (convert prec2 emax2)).
  - apply convert_mono.
  - apply convert_valid.
  - intros m e. cbn [convert binary_normalize].
    apply (binary_round_opp prec2 emax2 false).
  - intros s. reflexivity.
Qed.

End SqueezeConvert.

(** ** The orientation estimator *)

(** The constants [PI_f] and [PI_d] are the floats nearest to the
    literal of Arduino.h: the distance is at most half a unit of the
    last place. *)
Example PI_nearest :
  Z.abs (31415926535897932384626433832795 * 2 ^ 22 - 13176795 * 10 ^ 31) * 2
  <= 10 ^ 31
  /\ Z.abs (31415926535897932384626433832795 * 2 ^ 51
            - 7074237752028440 * 10 ^ 31) * 2 <= 10 ^ 31
  /\ Orientation.PI_f = S754_finite false 13176795 (-22)
  /\ Orientation.PI_d = S754_finite false 7074237752028440 (-51)
  /\ valid_binary 24 128 Orientation.PI_f = true
  /\ valid_binary 53 1024 Orientation.PI_d = true.
Proof. repeat split; vm_compute; discriminate. Qed.

Lemma mul_self_nonneg (prec emax : Z) (x : spec_float) :
  is_nan x = false -> nonneg (SFmul prec emax x x) = true.
Proof.
  destruct x as [s | s | | s m e]; try discriminate; intros _.
  - destruct s; reflexivity.
  - destruct s; reflexivity.
  - cbn [SFmul]. replace (xorb s s) with false by (destruct s; reflexivity).
    now apply round_aux_nonneg.
Qed.

Lemma binary_round_nonneg (prec emax : Z) (m : positive) (e : Z) :
  nonneg (binary_round prec emax false m e) = true.
Proof.
  unfold binary_round. destruct (shl_align m e _) as [mz ez].
  now apply round_aux_nonneg.
Qed.

Lemma add_nonneg (prec emax : Z) (x y : spec_float) :
  nonneg x = true -> nonneg y = true -> nonneg (SFadd prec emax x y) = true.
Proof.
  destruct x as [[ | ] | [ | ] | | [ | ] mx ex]; try discriminate;
    destruct y as [[ | ] | [ | ] | | [ | ] my ey]; try discriminate;
    intros _ _; try reflexivity.
  cbn [SFadd cond_Zopp]. change IntDef.Z.min with Z.min.
  destruct (shl_align mx ex (Z.min ex ey)) as [mx' ex'].
  destruct (shl_align my ey (Z.min ex ey)) as [my' ey'].
  cbn [fst Z.add binary_normalize]. apply binary_round_nonneg.
Qed.

Lemma round_aux_not_nan (prec emax m e : Z) (l : location) (s : bool) :
  0 <= m -> is_nan (binary_round_aux prec emax s m e l) = false.
Proof.
  intros Hm. pose proof (round_aux_nonneg prec emax m e l Hm) as H.
  destruct s.
  - change true with (negb false). rewrite round_aux_opp.
    destruct (binary_round_aux prec emax false m e l); try discriminate; reflexivity.
  - destruct (binary_round_aux prec emax false m e l); try discriminate; reflexivity.
Qed.

Lemma binary_normalize_not_nan (prec emax n e : Z) (s : bool) :
  is_nan (binary_normalize prec emax n e s) = false.
Proof.
  destruct n as [ | p | p]; cbn [binary_normalize]; [ reflexivity | | ];
    unfold binary_round; destruct (shl_align p e _) as [mz ez];
    now apply round_aux_not_nan.
Qed.

Lemma div_not_nan (prec emax : Z) (x : spec_float) (mc : positive) (ec : Z) :
  is_nan x = false ->
  is_nan (SFdiv prec emax x (S754_finite false mc ec)) = false.
Proof.
  destruct x as [s | s | | s m e]; try discriminate; intros _; try reflexivity.
  cbn [SFdiv].
  unfold SFdiv_core_binary.
  set (e' := IntDef.Z.min _ _).
  set (m' := match (e - ec - e')%Z with 0 => _ | Z.pos _ => _ | Z.neg _ => _ end).
  assert (Hm' : 0 <= m').
  { unfold m'. destruct (e - ec - e')%Z; try lia.
    change IntDef.Z.shiftl with Z.shiftl. apply Z.shiftl_nonneg. lia. }
  change IntDef.Z.div_eucl with Z.div_eucl.
  pose proof (Z_div_mod m' (Z.pos mc) ltac:(lia)) as Hdm.
  destruct (Z.div_eucl m' (Z.pos mc)) as [q r].
  apply round_aux_not_nan. nia.
Qed.

Lemma convert_not_nan (prec emax : Z) (x : spec_float) :
  is_nan x = false -> is_nan (convert prec emax x) = false.
Proof.
  destruct x as [s | s | | s m e]; try discriminate; intros _; try reflexivity.
  cbn [convert]. apply binary_normalize_not_nan.
Qed.

Lemma convert_nonneg (prec emax : Z) (x : spec_float) :
  nonneg x = true -> nonneg (convert prec emax x) = true.
Proof.
  destruct x as [[ | ] | [ | ] | | [ | ] m e]; try discriminate; intros _;
    try reflexivity.
  cbn [convert binary_normalize]. apply binary_round_nonneg.
Qed.

Lemma opp_not_nan (x : spec_float) : is_nan x = false -> is_nan (SFopp x) = false.
Proof. destruct x; try discriminate; reflexivity. Qed.

(** What being within 0 and [c] says in terms of C's comparisons. *)
Lemma within_zero_bounds (prec emax : Z) (c p : spec_float) :
  finite_pos prec emax c = true ->
  within prec emax (S754_zero false) c p = true ->
  is_nan p = false /\ lt p (SFopp c) = false /\ gt p c = false.
Proof.
  intros Hc H. unfold within in H.
  apply andb_prop in H. destruct H as [H H3].
  apply andb_prop in H. destruct H as [H1 H2].
  destruct c as [ | | | [ | ] mc ec]; try discriminate Hc.
  destruct p as [s | s | | s m e]; try discriminate H2; try discriminate H3.
  - repeat split.
  - unfold lt, gt, SFleb in *. cbn [magnitude SFopp negb SFcompare] in *.
    destruct s.
    + repeat split.
      destruct (e ?= ec); try reflexivity; try discriminate H3.
      destruct (Pos.compare_cont Eq m mc); try reflexivity; discriminate H3.
    + repeat split.
      destruct (e ?= ec); try reflexivity; try discriminate H3.
      destruct (Pos.compare_cont Eq m mc); try reflexivity; discriminate H3.
Qed.

Lemma prec_f : 1 < 24.
Proof. reflexivity. Qed.

Lemma prec_d : 1 < 53.
Proof. reflexivity. Qed.



Lemma of_int_180 : of_int 180 = S754_finite false 11796480 (-16).
Proof. reflexivity. Qed.

(** [angle * 180.0 / PI] keeps an angle within [lo] and [hi] within
    their degrees. *)
Lemma degrees_within (lo hi a : float) :
  finite_pos 24 128 lo = true -> finite_pos 24 128 hi = true ->
  finite_pos 24 128 (mul lo (of_int 180)) = true ->
  finite_pos 24 128 (mul hi (of_int 180)) = true ->
  within 24 128 lo hi a = true ->
  within 24 128 (Orientation.degrees lo) (Orientation.degrees hi)
         (Orientation.degrees a) = true.
Proof.
  intros Hlo Hhi Hlo' Hhi' H. unfold Orientation.degrees, Orientation.PI_f.
  apply (div_within 24 128 prec_f); try assumption.
  rewrite of_int_180 in *.
  apply (mul_within 24 128 prec_f); try assumption.
  vm_compute. discriminate.
Qed.

Lemma degrees_within_zero (hi a : float) :
  finite_pos 24 128 hi = true ->
  finite_pos 24 128 (mul hi (of_int 180)) = true ->
  within 24 128 (S754_zero false) hi a = true ->
  within 24 128 (S754_zero false) (Orientation.degrees hi)
         (Orientation.degrees a) = true.
Proof.
  intros Hhi Hhi' H. unfold Orientation.degrees, Orientation.PI_f.
  apply (div_within_zero 24 128 prec_f); try assumption.
  rewrite of_int_180 in *.
  apply (mul_within_zero 24 128 prec_f); try assumption.
  vm_compute. discriminate.
Qed.

(** [if (heading < 0) heading += 360] brings an angle of magnitude
    between [dlo] and 180 into [0, 360), provided [360 - dlo] rounds
    below 360. *)
Lemma normalise_range (dlo h : float) :
  finite_pos 24 128 dlo = true ->
  lt (add (SFopp dlo) (of_int 360)) (of_int 360) = true ->
  within 24 128 dlo (of_int 180) h = true ->
  let heading := if lt h (of_int 0) then add h (of_int 360) else h in
  lt heading (of_int 0) = false /\ lt heading (of_int 360) = true.
Proof.
  intros Hdlo HK H.
  destruct (within_finite 24 128 dlo (of_int 180) h Hdlo eq_refl H)
    as (s & m & e & -> & B & H1 & H2).
  destruct dlo as [ | | | [ | ] md ed]; try discriminate Hdlo.
  cbn [finite_pos] in Hdlo. cbn [SFopp negb] in HK.
  change (of_int 180) with (S754_finite false 11796480 (-16)) in H2.
  change (of_int 360) with (S754_finite false 11796480 (-15)) in *.
  change (of_int 0) with (S754_zero false).
  assert (B360 : SpecFloat.bounded 24 128 11796480 (-15) = true) by reflexivity.
  assert (Hlt : SFltb (S754_finite false m e) (S754_finite false 11796480 (-15))
                = true).
  { apply (bounded_le_lt_trans 24 128 prec_f m 11796480 11796480 e (-16) (-15));
      try assumption; reflexivity. }
  destruct s; cbv zeta.
  - change (lt (S754_finite true m e) (S754_zero false)) with true. cbv iota.
    unfold add, lt, F32.prec, F32.emax in *.
    destruct (sub_from_valid 24 128 prec_f m 11796480 e (-15) B B360 Hlt)
      as (Hv & Hn & Hs).
    pose proof (sub_from_mono 24 128 prec_f md m 11796480 ed e (-15)
                  Hdlo B B360 H1 Hlt) as Hmono.
    assert (Hdlt : SFltb (S754_finite false md ed)
                         (S754_finite false 11796480 (-15)) = true).
    { apply (bounded_le_lt_trans 24 128 prec_f md m 11796480 ed e (-15));
        assumption. }
    destruct (sub_from_valid 24 128 prec_f md 11796480 ed (-15) Hdlo B360 Hdlt)
      as (HvK & HnK & HsK).
    set (r := SFadd 24 128 (S754_finite true m e) (S754_finite false 11796480 (-15)))
      in *.
    set (K := SFadd 24 128 (S754_finite true md ed)
                    (S754_finite false 11796480 (-15))) in *.
    fold (SFltb K (S754_finite false 11796480 (-15))) in HK.
    fold (SFltb r (S754_zero false)).
    fold (SFltb r (S754_finite false 11796480 (-15))).
    clearbody r K.
    split; [ now apply nonneg_not_lt_zero | ].
    destruct r as [[ | ] | [ | ] | | [ | ] mr er]; try discriminate Hs;
      try reflexivity.
    + destruct K as [[ | ] | [ | ] | | [ | ] mk ek];
        try discriminate Hmono; discriminate HK.
    + destruct K as [[ | ] | [ | ] | | [ | ] mk ek];
        try discriminate Hmono; try discriminate HsK; try discriminate HK.
      apply (bounded_le_lt_trans 24 128 prec_f mr mk 11796480 er ek (-15));
        assumption.
  - change (lt (S754_finite false m e) (S754_zero false)) with false. cbv iota.
    split; [ reflexivity | exact Hlt ].
Qed.





Lemma of_int_180_d : F64.of_int 180 = S754_finite false 6333186975989760 (-45).
Proof. reflexivity. Qed.

Lemma degrees_esp_within (lo hi a : float) :
  finite_pos 53 1024 lo = true -> finite_pos 53 1024 hi = true ->
  finite_pos 53 1024 (F64.mul lo (F64.of_int 180)) = true ->
  finite_pos 53 1024 (F64.mul hi (F64.of_int 180)) = true ->
  finite_pos 53 1024 (F64.div (F64.mul lo (F64.of_int 180)) Orientation.PI_d)
  = true ->
  finite_pos 53 1024 (F64.div (F64.mul hi (F64.of_int 180)) Orientation.PI_d)
  = true ->
  within 53 1024 lo hi a = true ->
  within 24 128 (Orientation.degrees_esp lo) (Orientation.degrees_esp hi)
         (Orientation.degrees_esp a) = true.
Proof.
  intros Hlo Hhi Hlo' Hhi' Hlo'' Hhi'' H.
  unfold Orientation.degrees_esp, to_float.
  apply (convert_within 53 1024 24 128 prec_d prec_f); try assumption.
  unfold Orientation.PI_d, F64.div.
  apply (div_within 53 1024 prec_d); try assumption.
  rewrite of_int_180_d in *. unfold F64.mul.
  apply (mul_within 53 1024 prec_d); try assumption.
  vm_compute. discriminate.
Qed.

Lemma degrees_esp_within_zero (hi a : float) :
  finite_pos 53 1024 hi = true ->
  finite_pos 53 1024 (F64.mul hi (F64.of_int 180)) = true ->
  finite_pos 53 1024 (F64.div (F64.mul hi (F64.of_int 180)) Orientation.PI_d)
  = true ->
  within 53 1024 (S754_zero false) hi a = true ->
  within 24 128 (S754_zero false) (Orientation.degrees_esp hi)
         (Orientation.degrees_esp a) = true.
Proof.
  intros Hhi Hhi' Hhi'' H.
  unfold Orientation.degrees_esp, to_float.
  apply (convert_within_zero 53 1024 24 128 prec_d prec_f); try assumption.
  unfold Orientation.PI_d, F64.div.
  apply (div_within_zero 53 1024 prec_d); try assumption.
  rewrite of_int_180_d in *. unfold F64.mul.
  apply (mul_within_zero 53 1024 prec_d); try assumption.
  vm_compute. discriminate.
Qed.



(** *** A library that conforms *)

Lemma SFsqrt_nonneg (prec emax : Z) (x : spec_float) :
  nonneg x = true -> nonneg (SFsqrt prec emax x) = true.
Proof.
  destruct x as [[ | ] | [ | ] | | [ | ] m e]; try discriminate; intros _;
    try reflexivity.
  cbn [SFsqrt]. unfold SFsqrt_core_binary.
  set (e' := IntDef.Z.min _ _).
  set (m' := match (e - 2 * e')%Z with 0 => _ | Z.pos _ => _ | Z.neg _ => _ end).
  assert (Hm' : 0 <= m').
  { unfold m'. destruct (e - 2 * e')%Z; try lia.
    change IntDef.Z.shiftl with Z.shiftl. apply Z.shiftl_nonneg. lia. }
  change IntDef.Z.sqrtrem with Z.sqrtrem.
  pose proof (Z.sqrtrem_spec m' Hm') as Hs.
  destruct (Z.sqrtrem m') as [q r].
  apply round_aux_nonneg. nia.
Qed.

Section Coarse.

Variables prec emax : Z.
Variables pi pio2 tiny : spec_float.

Hypothesis pio2_pos : SFleb (S754_zero false) pio2 = true.
Hypothesis pio2_quarter : within prec emax (S754_zero false) pio2 pio2 = true.
Hypothesis pio2_quarter' :
  within prec emax (S754_zero false) pio2 (SFopp pio2) = true.
Hypothesis pio2_half : within prec emax tiny pi pio2 = true.
Hypothesis pio2_half' : within prec emax tiny pi (SFopp pio2) = true.
Hypothesis pi_half : within prec emax tiny pi pi = true.
Hypothesis pi_half' : within prec emax tiny pi (SFopp pi) = true.
Hypothesis sqrt_one :
  SFsqrt prec emax (binary_normalize prec emax 1 0 false)
  = binary_normalize prec emax 1 0 false.

Lemma coarse_conforms :
  libm prec emax pi pio2 tiny (coarse_atan2 pi pio2) (SFsqrt prec emax).
Proof.
  constructor.
  - repeat split.
    + intros s x H. unfold coarse_atan2.
      destruct x as [[ | ] | [ | ] | | [ | ] m e]; try discriminate H; reflexivity.
    + intros s x H. unfold coarse_atan2.
      destruct x as [[ | ] | [ | ] | | [ | ] m e]; try discriminate H; reflexivity.
    + intros s y H. unfold coarse_atan2.
      destruct y as [[ | ] | [ | ] | | [ | ] m e]; try discriminate H; reflexivity.
    + intros s y H. unfold coarse_atan2.
      destruct y as [[ | ] | [ | ] | | [ | ] m e]; try discriminate H; reflexivity.
  - intros y x Hy Hx. unfold coarse_atan2.
    assert (Hxn : is_nan x = false) by (destruct x; try discriminate; reflexivity).
    rewrite Hy, Hxn, Hx. cbn [orb].
    destruct y as [s | [ | ] | | [ | ] m e]; try discriminate Hy;
      cbn [nonneg negb]; assumption.
  - intros y x _ _.
    set (fy := binary_normalize prec emax y 0 false).
    set (fx := binary_normalize prec emax x 0 false).
    assert (Hy : is_nan fy = false) by apply binary_normalize_not_nan.
    assert (Hx : is_nan fx = false) by apply binary_normalize_not_nan.
    cbv zeta. unfold coarse_atan2. rewrite Hy, Hx. cbn [orb].
    clearbody fy fx.
    destruct fy as [s | [ | ] | | [ | ] m e]; try discriminate Hy;
      cbn [nonneg negb]; try (rewrite ?pio2_half, ?pio2_half'; apply orb_true_r).
    destruct (nonneg fx); [ reflexivity | ].
    destruct s; rewrite ?pi_half, ?pi_half'; apply orb_true_r.
  - split; [ apply SFsqrt_nonneg | exact sqrt_one ].
Qed.

End Coarse.

Lemma coarse_libm_f :
  libm 24 128 Orientation.PI_f Orientation.PIO2_f Orientation.tiny_f
       (coarse_atan2 Orientation.PI_f Orientation.PIO2_f) (SFsqrt 24 128).
Proof. apply coarse_conforms; reflexivity. Qed.

Lemma coarse_libm_d :
  libm 53 1024 Orientation.PI_d Orientation.PIO2_d Orientation.tiny_d
       (coarse_atan2 Orientation.PI_d Orientation.PIO2_d) (SFsqrt 53 1024).
Proof. apply coarse_conforms; reflexivity. Qed.

(** *** The heading *)

Section Heading.

Import Orientation.

(** The heading of the Mega, from what [atan2] returns for two counts. *)
Lemma mega_heading_range (a : float) :
  is_zero a || within 24 128 tiny_f PI_f a = true ->
  let h := degrees a in
  let heading := if lt h (of_int 0) then add h (of_int 360) else h in
  lt heading (of_int 0) = false /\ lt heading (of_int 360) = true.
Proof.
  intros H. apply orb_prop in H. destruct H as [H | H].
  - destruct a as [[ | ] | | | ]; try discriminate H; split; reflexivity.
  - apply (normalise_range (degrees tiny_f)); try reflexivity.
    change (of_int 180) with (degrees PI_f).
    apply degrees_within; try reflexivity. exact H.
Qed.

Lemma esp_heading_range (a : float) :
  is_zero a || within 53 1024 tiny_d PI_d a = true ->
  let h := degrees_esp a in
  let heading := if lt h (of_int 0) then add h (of_int 360) else h in
  lt heading (of_int 0) = false /\ lt heading (of_int 360) = true.
Proof.
  intros H. apply orb_prop in H. destruct H as [H | H].
  - destruct a as [[ | ] | | | ]; try discriminate H; split; reflexivity.
  - apply (normalise_range (degrees_esp tiny_d)); try reflexivity.
    change (of_int 180) with (degrees_esp PI_d).
    apply degrees_esp_within; try reflexivity. exact H.
Qed.

End Heading.

(** Why the counts matter: an angle of [-2^-30], which no two 16-bit
    counts make, would be brought to exactly 360 by the rounding of the
    sum, in both sketches; the angle [-2^-16] stays below. *)
Example heading_near_360 :
  let normalise h := if lt h (of_int 0) then add h (of_int 360) else h in
  normalise (Orientation.degrees (neg (div (of_int 1) (of_int 1073741824))))
  = of_int 360
  /\ normalise (Orientation.degrees_esp
                  (neg (F64.div (F64.of_int 1) (F64.of_int 1073741824))))
     = of_int 360
  /\ normalise (Orientation.degrees (neg Orientation.tiny_f))
     = S754_finite false 11796451 (-15)
  /\ normalise (Orientation.degrees_esp (neg Orientation.tiny_d))
     = S754_finite false 11796451 (-15)
  /\ lt (S754_finite false 11796451 (-15)) (of_int 360) = true.
Proof. repeat split. Qed.

(** C5.  With an [atan2] that has the values of the C standard on the
    axes and maps two 16-bit counts to 0 or to an angle between 2^-16
    and pi in magnitude, the heading of both sketches is
    [atan2(magY, magX) * 180.0 / PI], plus 360 when that is negative,
    computed in binary32 on the Mega and in binary64 rounded to [float]
    on the ESP8266, where the sample is used only when the bus delivered
    six bytes.  For every sample of 16-bit counts the stored heading is
    not below 0 and is below 360.  East, north, west and south give 0,
    90, 180 and 270 exactly. *)
Theorem heading_normalised
        (atan2 atan2_d : float -> float -> float)
        (Haxes : atan2_axes Orientation.PI_f Orientation.PIO2_f atan2)
        (Hcounts : atan2_of_counts 24 128 Orientation.PI_f Orientation.tiny_f atan2)
        (Haxes_d : atan2_axes Orientation.PI_d Orientation.PIO2_d atan2_d)
        (Hcounts_d :
           atan2_of_counts 53 1024 Orientation.PI_d Orientation.tiny_d atan2_d)
        (rawX rawY rawZ : Z) (HX : int16 rawX) (HY : int16 rawY)
        (telemetry : Orientation.SensorData) :
  let mega := Orientation.readQMC5883L atan2 in
  let esp := Orientation.readQMC5883L_esp atan2_d in
  let t' := mega rawX rawY rawZ telemetry in
  let e' := esp 6 rawX rawY rawZ telemetry in
  let h := Orientation.degrees (atan2 (Orientation.magY t') (Orientation.magX t')) in
  let h_d := Orientation.degrees_esp (atan2_d (F64.of_int rawY) (F64.of_int rawX)) in
  (Orientation.magX t' = of_int rawX /\ Orientation.magY t' = of_int rawY
   /\ Orientation.heading t'
      = (if lt h (of_int 0) then add h (of_int 360) else h)
   /\ lt (Orientation.heading t') (of_int 0) = false
   /\ lt (Orientation.heading t') (of_int 360) = true)
  /\ (Orientation.magX e' = of_int rawX /\ Orientation.magY e' = of_int rawY
      /\ Orientation.heading e'
         = (if lt h_d (of_int 0) then add h_d (of_int 360) else h_d)
      /\ lt (Orientation.heading e') (of_int 0) = false
      /\ lt (Orientation.heading e') (of_int 360) = true
      /\ forall available, available <> 6 ->
           esp available rawX rawY rawZ telemetry = telemetry)
  /\ (Orientation.heading (mega 1 0 rawZ telemetry) = of_int 0
      /\ Orientation.heading (mega 0 1 rawZ telemetry) = of_int 90
      /\ Orientation.heading (mega (-1) 0 rawZ telemetry) = of_int 180
      /\ Orientation.heading (mega 0 (-1) rawZ telemetry) = of_int 270)
  /\ (Orientation.heading (esp 6 1 0 rawZ telemetry) = of_int 0
      /\ Orientation.heading (esp 6 0 1 rawZ telemetry) = of_int 90
      /\ Orientation.heading (esp 6 (-1) 0 rawZ telemetry) = of_int 180
      /\ Orientation.heading (esp 6 0 (-1) rawZ telemetry) = of_int 270).
Proof.
  intros mega esp t' e' h h_d.
  destruct Haxes as (East & West & North & South).
  destruct Haxes_d as (East_d & West_d & North_d & South_d).
  split; [ | split; [ | split ] ].
  - destruct (mega_heading_range _ (Hcounts rawY rawX HY HX)) as [H0 H360].
    repeat split; assumption.
  - destruct (esp_heading_range _ (Hcounts_d rawY rawX HY HX)) as [H0 H360].
    repeat split; try assumption.
    intros available Hav. unfold esp, Orientation.readQMC5883L_esp.
    destruct (Z.eqb_spec available 6); [ contradiction | reflexivity ].
  - unfold mega, Orientation.readQMC5883L. cbn [Orientation.heading].
    change (of_int 0) with (S754_zero false).
    rewrite (East false (of_int 1) eq_refl), (North false (of_int 1) eq_refl),
      (West false (of_int (-1)) eq_refl), (South false (of_int (-1)) eq_refl).
    repeat split.
  - unfold esp, Orientation.readQMC5883L_esp. cbn [Z.eqb Pos.eqb Orientation.heading].
    change (F64.of_int 0) with (S754_zero false).
    rewrite (East_d false (F64.of_int 1) eq_refl),
      (North_d false (F64.of_int 1) eq_refl),
      (West_d false (F64.of_int (-1)) eq_refl),
      (South_d false (F64.of_int (-1)) eq_refl).
    repeat split.
Qed.

Lemma heading_normalised_witness :
  int16 0 /\ int16 (-200)
  /\ (let t' := Orientation.readQMC5883L
                  (coarse_atan2 Orientation.PI_f Orientation.PIO2_f)
                  0 (-200) 7 Orientation.initial in
      Orientation.heading t' = of_int 270
      /\ lt (Orientation.heading t') (of_int 360) = true)
  /\ (let e' := Orientation.readQMC5883L_esp
                  (coarse_atan2 Orientation.PI_d Orientation.PIO2_d)
                  6 0 (-200) 7 Orientation.initial in
      Orientation.heading e' = of_int 270
      /\ lt (Orientation.heading e') (of_int 360) = true).
Proof.
  assert (H0 : int16 0) by (unfold int16; lia).
  assert (H200 : int16 (-200)) by (unfold int16; lia).
  destruct (heading_normalised
              (coarse_atan2 Orientation.PI_f Orientation.PIO2_f)
              (coarse_atan2 Orientation.PI_d Orientation.PIO2_d)
              (libm_axes _ _ _ _ _ _ _ coarse_libm_f)
              (libm_of_counts _ _ _ _ _ _ _ coarse_libm_f)
              (libm_axes _ _ _ _ _ _ _ coarse_libm_d)
              (libm_of_counts _ _ _ _ _ _ _ coarse_libm_d)
              0 (-200) 7 H0 H200 Orientation.initial)
    as ((_ & _ & _ & _ & Hm) & (_ & _ & _ & _ & He & _) & _).
  repeat split; try assumption; try reflexivity; unfold int16; lia.
Defined.

(** *** Roll and pitch *)

Section Pitch.

Import Orientation.

Lemma of_int_16384 : of_int 16384 = S754_finite false 8388608 (-9).
Proof. reflexivity. Qed.

Lemma of_int_16384_d :
  F64.of_int 16384 = S754_finite false 4503599627370496 (-38).
Proof. reflexivity. Qed.

(** The acceleration in g is a number or an infinity, never a NaN. *)
Lemma accel_not_nan (raw : Z) : is_nan (div (of_int raw) (of_int 16384)) = false.
Proof.
  rewrite of_int_16384. apply div_not_nan. apply binary_normalize_not_nan.
Qed.

Lemma accel_esp_not_nan (raw : Z) :
  is_nan (to_float (F64.div (F64.of_int raw) (F64.of_int 16384))) = false.
Proof.
  apply convert_not_nan. rewrite of_int_16384_d.
  apply div_not_nan. apply binary_normalize_not_nan.
Qed.

(** The pitch of the Mega, from an angle of the right half plane. *)
Lemma mega_pitch_range (a : float) :
  within 24 128 (S754_zero false) PIO2_f a = true ->
  is_nan (degrees a) = false
  /\ lt (degrees a) (of_int (-90)) = false
  /\ gt (degrees a) (of_int 90) = false.
Proof.
  intros H.
  apply (within_zero_bounds 24 128 (of_int 90) (degrees a) eq_refl).
  change (of_int 90) with (degrees PIO2_f).
  apply degrees_within_zero; try reflexivity. exact H.
Qed.

Lemma esp_pitch_range (a : float) :
  within 53 1024 (S754_zero false) PIO2_d a = true ->
  is_nan (degrees_esp a) = false
  /\ lt (degrees_esp a) (of_int (-90)) = false
  /\ gt (degrees_esp a) (of_int 90) = false.
Proof.
  intros H.
  apply (within_zero_bounds 24 128 (of_int 90) (degrees_esp a) eq_refl).
  change (of_int 90) with (degrees_esp PIO2_d).
  apply degrees_esp_within_zero; try reflexivity. exact H.
Qed.

(** The sum of two squares is not negative. *)
Lemma squares_nonneg (y z : float) :
  is_nan y = false -> is_nan z = false ->
  nonneg (add (mul y y) (mul z z)) = true.
Proof.
  intros Hy Hz. apply add_nonneg; now apply mul_self_nonneg.
Qed.

End Pitch.

(** C6.  With an [atan2] that has the values of the C standard on the
    axes and stays between -pi/2 and pi/2 on the right half plane, and a
    [sqrt] that keeps numbers that are not negative so and maps 1 to 1:
    roll is [atan2(accelY, accelZ) * 180.0 / PI] and pitch is
    [atan2(-accelX, sqrt(accelY^2 + accelZ^2)) * 180.0 / PI] of the raw
    sample divided by 16384.0 and of nothing else, whatever was in
    [telemetry] before; the Mega computes them in binary32, the ESP8266
    in binary64 rounded to [float].  For every raw sample the stored
    pitch is a number, not below -90 and not above 90.  A level sample,
    [accel = (0, 0, 1)], gives roll [+0.0] and pitch [-0.0], which
    compares equal to 0. *)
Theorem roll_pitch
        (atan2 atan2_d : float -> float -> float) (sqrt sqrt_d : float -> float)
        (Haxes : atan2_axes Orientation.PI_f Orientation.PIO2_f atan2)
        (Hright : atan2_right_half 24 128 Orientation.PIO2_f atan2)
        (Hsqrt : sqrt_sign 24 128 sqrt)
        (Haxes_d : atan2_axes Orientation.PI_d Orientation.PIO2_d atan2_d)
        (Hright_d : atan2_right_half 53 1024 Orientation.PIO2_d atan2_d)
        (Hsqrt_d : sqrt_sign 53 1024 sqrt_d)
        (rawX rawY rawZ : Z) (telemetry other : Orientation.SensorData) :
  let mega := Orientation.readMPU6050 atan2 sqrt in
  let esp := Orientation.readMPU6050_esp atan2_d sqrt_d in
  let t' := mega rawX rawY rawZ telemetry in
  let e' := esp rawX rawY rawZ telemetry in
  (Orientation.accelX t' = div (of_int rawX) (of_int 16384)
   /\ Orientation.accelY t' = div (of_int rawY) (of_int 16384)
   /\ Orientation.accelZ t' = div (of_int rawZ) (of_int 16384)
   /\ Orientation.roll t'
      = Orientation.degrees
          (atan2 (Orientation.accelY t') (Orientation.accelZ t'))
   /\ Orientation.pitch t'
      = Orientation.degrees
          (atan2 (neg (Orientation.accelX t'))
                 (sqrt (add (mul (Orientation.accelY t') (Orientation.accelY t'))
                            (mul (Orientation.accelZ t') (Orientation.accelZ t')))))
   /\ Orientation.roll (mega rawX rawY rawZ other) = Orientation.roll t'
   /\ Orientation.pitch (mega rawX rawY rawZ other) = Orientation.pitch t'
   /\ is_nan (Orientation.pitch t') = false
   /\ lt (Orientation.pitch t') (of_int (-90)) = false
   /\ gt (Orientation.pitch t') (of_int 90) = false)
  /\ (Orientation.accelX e'
      = to_float (F64.div (F64.of_int rawX) (F64.of_int 16384))
      /\ Orientation.accelY e'
         = to_float (F64.div (F64.of_int rawY) (F64.of_int 16384))
      /\ Orientation.accelZ e'
         = to_float (F64.div (F64.of_int rawZ) (F64.of_int 16384))
      /\ Orientation.roll e'
         = Orientation.degrees_esp
             (atan2_d (to_double (Orientation.accelY e'))
                      (to_double (Orientation.accelZ e')))
      /\ Orientation.pitch e'
         = Orientation.degrees_esp
             (atan2_d (to_double (neg (Orientation.accelX e')))
                (sqrt_d
                   (to_double
                      (add (mul (Orientation.accelY e') (Orientation.accelY e'))
                           (mul (Orientation.accelZ e') (Orientation.accelZ e'))))))
      /\ Orientation.roll (esp rawX rawY rawZ other) = Orientation.roll e'
      /\ Orientation.pitch (esp rawX rawY rawZ other) = Orientation.pitch e'
      /\ is_nan (Orientation.pitch e') = false
      /\ lt (Orientation.pitch e') (of_int (-90)) = false
      /\ gt (Orientation.pitch e') (of_int 90) = false)
  /\ (let level := mega 0 0 16384 telemetry in
      Orientation.accelX level = of_int 0
      /\ Orientation.accelY level = of_int 0
      /\ Orientation.accelZ level = of_int 1
      /\ Orientation.roll level = of_int 0
      /\ Orientation.pitch level = neg (of_int 0)
      /\ SFcompare (Orientation.pitch level) (of_int 0) = Some Eq)
  /\ (let level := esp 0 0 16384 telemetry in
      Orientation.accelX level = of_int 0
      /\ Orientation.accelY level = of_int 0
      /\ Orientation.accelZ level = of_int 1
      /\ Orientation.roll level = of_int 0
      /\ Orientation.pitch level = neg (of_int 0)
      /\ SFcompare (Orientation.pitch level) (of_int 0) = Some Eq).
Proof.
  intros mega esp t' e'.
  destruct Haxes as (East & _). destruct Haxes_d as (East_d & _).
  destruct Hsqrt as [Hsq Hone]. destruct Hsqrt_d as [Hsq_d Hone_d].
  split; [ | split; [ | split ] ].
  - assert (Hp : is_nan (Orientation.pitch t') = false
                 /\ lt (Orientation.pitch t') (of_int (-90)) = false
                 /\ gt (Orientation.pitch t') (of_int 90) = false).
    { unfold t', mega, Orientation.readMPU6050. cbn [Orientation.pitch].
      apply mega_pitch_range. apply Hright.
      - unfold neg. apply opp_not_nan, accel_not_nan.
      - apply Hsq. apply squares_nonneg; apply accel_not_nan. }
    repeat split; apply Hp.
  - assert (Hp : is_nan (Orientation.pitch e') = false
                 /\ lt (Orientation.pitch e') (of_int (-90)) = false
                 /\ gt (Orientation.pitch e') (of_int 90) = false).
    { unfold e', esp, Orientation.readMPU6050_esp. cbn [Orientation.pitch].
      apply esp_pitch_range. apply Hright_d.
      - apply convert_not_nan. unfold neg.
        apply opp_not_nan, accel_esp_not_nan.
      - apply Hsq_d. apply convert_nonneg.
        apply squares_nonneg; apply accel_esp_not_nan. }
    repeat split; apply Hp.
  - unfold mega, Orientation.readMPU6050.
    cbn [Orientation.accelX Orientation.accelY Orientation.accelZ
         Orientation.roll Orientation.pitch].
    assert (E0 : div (of_int 0) (of_int 16384) = S754_zero false) by reflexivity.
    assert (E1 : div (of_int 16384) (of_int 16384)
                 = binary_normalize 24 128 1 0 false) by reflexivity.
    rewrite E0, E1.
    assert (ES : add (mul (S754_zero false) (S754_zero false))
                     (mul (binary_normalize 24 128 1 0 false)
                          (binary_normalize 24 128 1 0 false))
                 = binary_normalize 24 128 1 0 false) by reflexivity.
    rewrite ES, Hone.
    change (neg (S754_zero false)) with (S754_zero true).
    rewrite !East by reflexivity.
    repeat split.
  - unfold esp, Orientation.readMPU6050_esp.
    cbn [Orientation.accelX Orientation.accelY Orientation.accelZ
         Orientation.roll Orientation.pitch].
    assert (E0 : to_float (F64.div (F64.of_int 0) (F64.of_int 16384))
                 = S754_zero false) by reflexivity.
    assert (E1 : to_float (F64.div (F64.of_int 16384) (F64.of_int 16384))
                 = of_int 1) by reflexivity.
    rewrite E0, E1.
    assert (ES : to_double (add (mul (S754_zero false) (S754_zero false))
                                (mul (of_int 1) (of_int 1)))
                 = binary_normalize 53 1024 1 0 false) by reflexivity.
    assert (ED : to_double (of_int 1) = binary_normalize 53 1024 1 0 false)
      by reflexivity.
    rewrite ES, ED, Hone_d.
    change (to_double (S754_zero false)) with (S754_zero false).
    change (to_double (neg (S754_zero false))) with (S754_zero true).
    rewrite !East_d by reflexivity.
    repeat split.
Qed.

Lemma roll_pitch_witness :
  (let t' := Orientation.readMPU6050
               (coarse_atan2 Orientation.PI_f Orientation.PIO2_f) (SFsqrt 24 128)
               16384 0 0 Orientation.initial in
   Orientation.pitch t' = of_int (-90)
   /\ lt (Orientation.pitch t') (of_int (-90)) = false
   /\ gt (Orientation.pitch t') (of_int 90) = false)
  /\ (let e' := Orientation.readMPU6050_esp
                  (coarse_atan2 Orientation.PI_d Orientation.PIO2_d)
                  (SFsqrt 53 1024) 16384 0 0 Orientation.initial in
      Orientation.pitch e' = of_int (-90)
      /\ lt (Orientation.pitch e') (of_int (-90)) = false
      /\ gt (Orientation.pitch e') (of_int 90) = false).
Proof.
  destruct (roll_pitch
              (coarse_atan2 Orientation.PI_f Orientation.PIO2_f)
              (coarse_atan2 Orientation.PI_d Orientation.PIO2_d)
              (SFsqrt 24 128) (SFsqrt 53 1024)
              (libm_axes _ _ _ _ _ _ _ coarse_libm_f)
              (libm_right_half _ _ _ _ _ _ _ coarse_libm_f)
              (libm_sqrt _ _ _ _ _ _ _ coarse_libm_f)
              (libm_axes _ _ _ _ _ _ _ coarse_libm_d)
              (libm_right_half _ _ _ _ _ _ _ coarse_libm_d)
              (libm_sqrt _ _ _ _ _ _ _ coarse_libm_d)
              16384 0 0 Orientation.initial Orientation.initial)
    as ((_ & _ & _ & _ & _ & _ & _ & _ & Hm1 & Hm2)
        & (_ & _ & _ & _ & _ & _ & _ & _ & He1 & He2) & _).
  repeat split; try assumption; reflexivity.
Defined.
